(** * The inference core of [worker/agents/inferutils/core.ts]

    A shallow embedding of the multi-provider inference engine: the
    streaming tool-call accumulator, the context-message sanitizer, the
    429 classifier, the context update, the blueprint array repair and the
    recursive inference loop; the definitions come first, the properties
    proved of them after. *)

From Stdlib Require Import ZArith Lia Bool Ascii String QArith Qround.
From stdpp Require Import base tactics option list strings sorting pretty.

Local Open Scope Z_scope.
Set Warnings "-register-all".

(** ** JavaScript primitives used by the engine *)

(** A JS value used as a condition: [undefined] and the empty string are
    falsy, every other string is truthy. *)
Definition truthy (s : option string) : bool :=
  match s with
  | Some s' => negb (String.eqb s' "")
  | None => false
  end.
Arguments truthy : simpl never.

(** A JS string is a sequence of code units; a [string] here holds the
    code units 0 to 255, one per character, so [String.length] is
    [.length]. Texts with a code unit above 255 are outside the model.

    [String.prototype.trim] strips white space and line terminators; of
    the code units 0 to 255 these are TAB, LF, VT, FF, CR, SPACE and
    NO-BREAK SPACE (160). *)
Definition is_white_space (c : ascii) : bool :=
  let n := nat_of_ascii c in
  ((9 <=? n)%nat && (n <=? 13)%nat) || (n =? 32)%nat || (n =? 160)%nat.

(** [s.trim() === ''] *)
Fixpoint trims_to_empty (s : string) : bool :=
  match s with
  | EmptyString => true
  | String c s' => is_white_space c && trims_to_empty s'
  end.

(** [name && name.trim() !== ''] on a string that is present. *)
Definition has_name (s : string) : bool :=
  negb (String.eqb s "") && negb (trims_to_empty s).

(** [Array.prototype.sort] is stable; [cmp a b <= 0] keeps [a] before [b].
    [sort_insert x l] puts [x], which stood before every element of [l],
    in front of the first element it does not exceed. *)
Section JsSort.
Context {A : Type} (cmp : A → A → Z).

Fixpoint sort_insert (x : A) (l : list A) : list A :=
  match l with
  | [] => [x]
  | y :: l' => if (cmp x y <=? 0)%Z then x :: y :: l' else y :: sort_insert x l'
  end.

Definition js_sort (l : list A) : list A := foldr sort_insert [] l.
End JsSort.

(** ** [Map]: insertion-ordered, one binding per key *)
Module JsMap.
Section JsMap.
Context {K V : Type} `{EqDecision K}.

Definition t : Type := list (K * V).

Definition empty : t := [].

Fixpoint get (m : t) (k : K) : option V :=
  match m with
  | [] => None
  | (k', v) :: m' => if decide (k' = k) then Some v else get m' k
  end.

Definition has (m : t) (k : K) : bool := bool_decide (is_Some (get m k)).

(** [set] on a present key replaces the value where it stands; a new key
    goes to the end. *)
Fixpoint set (m : t) (k : K) (v : V) : t :=
  match m with
  | [] => [(k, v)]
  | (k', v') :: m' =>
      if decide (k' = k) then (k, v) :: m' else (k', v') :: set m' k v
  end.

Fixpoint delete (m : t) (k : K) : t :=
  match m with
  | [] => []
  | (k', v') :: m' =>
      if decide (k' = k) then delete m' k else (k', v') :: delete m' k
  end.

Definition values (m : t) : list V := m.*2.
Definition keys (m : t) : list K := m.*1.
Definition size (m : t) : nat := length m.
End JsMap.
Arguments t : clear implicits.
End JsMap.

(** ** Streaming tool-call accumulator *)
Module Accumulator.

(** [ToolCallDelta]: one streamed fragment of a tool call. *)
Record DeltaFunction := {
  df_name : option string;
  df_arguments : option string;
}.

Record ToolCallDelta := {
  d_index : option Z;
  d_id : option string;
  d_function : option DeltaFunction;
}.

(** [ToolAccumulatorEntry]: a function tool call plus [index] and
    [__order]. One entry object is shared by both lookup maps, so entries
    live in a store and the maps hold references into it. *)
Record ToolAccumulatorEntry := {
  id : string;
  type : string;
  fn_name : string;
  fn_arguments : string;
  index : option Z;
  __order : nat;
}.

Definition ref := nat.

Record State := {
  store : list ToolAccumulatorEntry;
  byIndex : JsMap.t Z ref;
  byId : JsMap.t string ref;
  orderCounterRef : nat;
}.

(** The state [infer] starts a stream with: two empty maps, counter 0. *)
Definition initial : State :=
  {| store := []; byIndex := JsMap.empty; byId := JsMap.empty;
     orderCounterRef := 0 |}.

(** [ChatCompletionMessageFunctionToolCall] *)
Record ToolCall := {
  tc_id : string;
  tc_type : string;
  tc_name : string;
  tc_arguments : string;
}.

Definition set_id (e : ToolAccumulatorEntry) (i : string) :=
  {| id := i; type := type e; fn_name := fn_name e;
     fn_arguments := fn_arguments e; index := index e; __order := __order e |}.
Definition set_index (e : ToolAccumulatorEntry) (i : Z) :=
  {| id := id e; type := type e; fn_name := fn_name e;
     fn_arguments := fn_arguments e; index := Some i; __order := __order e |}.
Definition set_name (e : ToolAccumulatorEntry) (n : string) :=
  {| id := id e; type := type e; fn_name := n;
     fn_arguments := fn_arguments e; index := index e; __order := __order e |}.
Definition set_arguments (e : ToolAccumulatorEntry) (a : string) :=
  {| id := id e; type := type e; fn_name := fn_name e;
     fn_arguments := a; index := index e; __order := __order e |}.

Section Accumulate.
(** [JSON.parse] succeeds on the text. *)
Variable JSON_parses : string → bool.
(** [synthIdForIndex] reads the clock and a random source, so two calls
    differ; the oracle is given the number of entries created so far,
    which no two calls share, and the index. *)
Variable synthIdForIndex : nat → Z → string.

(** The [isComplete] test on the arguments accumulated [before]. *)
Definition isComplete (before : string) : bool :=
  (0 <? String.length before)%nat && JSON_parses before.

(** Look up the entry by id, then by index, else create it. *)
Definition lookup_or_create (st : State) (d : ToolCallDelta)
    : State * ref :=
  let idx := d_index d in
  let idFromDelta := d_id d in
  match (if truthy idFromDelta
         then JsMap.get (byId st) (default "" idFromDelta) else None) with
  | Some r => (st, r)
  | None =>
    match (match idx with
           | Some i => JsMap.get (byIndex st) i
           | None => None
           end) with
    | Some r => (st, r)
    | None =>
      let provisionalId :=
        if truthy idFromDelta then default "" idFromDelta
        else synthIdForIndex (orderCounterRef st)
               (default (Z.of_nat (JsMap.size (byId st))) idx) in
      let entry :=
        {| id := provisionalId; type := "function"; fn_name := "";
           fn_arguments := ""; __order := orderCounterRef st;
           index := idx |} in
      let r := length (store st) in
      ({| store := store st ++ [entry];
          byIndex := match idx with
                     | Some i => JsMap.set (byIndex st) i r
                     | None => byIndex st
                     end;
          byId := JsMap.set (byId st) provisionalId r;
          orderCounterRef := S (orderCounterRef st) |}, r)
    end
  end.

(** The four updates of the entry found: id, index, name, arguments. *)
Definition update_entry (st : State) (r : ref) (d : ToolCallDelta)
    (entry : ToolAccumulatorEntry) : State :=
  let idx := d_index d in
  let idFromDelta := d_id d in
  (* Update id if provided and different *)
  let rekey :=
    truthy idFromDelta
    && negb (String.eqb (id entry) (default "" idFromDelta)) in
  let byId1 :=
    if rekey
    then JsMap.set (JsMap.delete (byId st) (id entry))
           (default "" idFromDelta) r
    else byId st in
  let e1 := if rekey then set_id entry (default "" idFromDelta) else entry in
  (* Register index if provided and not yet registered *)
  let '(e2, byIndex2) :=
    match idx, index e1 with
    | Some i, None => (set_index e1 i, JsMap.set (byIndex st) i r)
    | _, _ => (e1, byIndex st)
    end in
  (* Update function name - replace if provided *)
  let e3 :=
    match d_function d with
    | Some f => if truthy (df_name f)
                then set_name e2 (default "" (df_name f)) else e2
    | None => e2
    end in
  (* Append arguments - accumulate string chunks *)
  let e4 :=
    match d_function d with
    | Some {| df_arguments := Some chunk |} =>
        let before := fn_arguments e3 in
        if isComplete before then e3
        else set_arguments e3 (before +:+ chunk)
    | _ => e3
    end in
  {| store := <[r := e4]> (store st);
     byIndex := byIndex2;
     byId := byId1;
     orderCounterRef := orderCounterRef st |}.

Definition accumulateToolCallDelta (st : State) (d : ToolCallDelta)
    : State :=
  let '(st1, r) := lookup_or_create st d in
  match store st1 !! r with
  | Some entry => update_entry st1 r d entry
  | None => st1
  end.

(** The loop over the deltas of a stream, in arrival order. *)
Definition accumulateAll (st : State) (ds : list ToolCallDelta) : State :=
  foldl accumulateToolCallDelta st ds.

Definition deref (st : State) (rs : list ref) : list ToolAccumulatorEntry :=
  omap (λ r, store st !! r) rs.

Definition toToolCall (e : ToolAccumulatorEntry) : ToolCall :=
  {| tc_id := id e; tc_type := "function"; tc_name := fn_name e;
     tc_arguments := fn_arguments e |}.

(** [a.index! - b.index!]; with an index missing the difference is NaN,
    which [sort] takes for 0. *)
Definition cmp_index (a b : ToolAccumulatorEntry) : Z :=
  match index a, index b with
  | Some x, Some y => x - y
  | _, _ => 0
  end.

Definition cmp_order (a b : ToolAccumulatorEntry) : Z :=
  Z.of_nat (__order a) - Z.of_nat (__order b).

Definition assembleToolCalls (st : State) : list ToolCall :=
  if (0 <? JsMap.size (byIndex st))%nat
  then toToolCall <$> js_sort cmp_index (deref st (JsMap.values (byIndex st)))
  else toToolCall <$> js_sort cmp_order (deref st (JsMap.values (byId st))).

(** What [infer] keeps of the assembled list: the calls with a name. *)
Definition streamedToolCalls (ds : list ToolCallDelta) : list ToolCall :=
  filter (λ tc, has_name (tc_name tc) = true)
    (assembleToolCalls (accumulateAll initial ds)).
End Accumulate.

End Accumulator.


(** *** Vocabulary for the accumulator's properties *)
Module AccumulatorSpec.
Import Accumulator.

(** The argument-string deltas of a stream, in arrival order. *)
Definition argumentDeltas (ds : list ToolCallDelta) : list string :=
  omap (λ d, d_function d ≫= df_arguments) ds.

(** The argument chunk one fragment carries, if any. *)
Definition chunk_of (d : ToolCallDelta) : option string :=
  d_function d ≫= df_arguments.

(** In-order concatenation of string deltas. *)
Definition concat_strings (l : list string) : string :=
  foldr String.append "" l.

(** A stream whose every fragment carries the id [sid]. *)
Definition carries_id (sid : string) (ds : list ToolCallDelta) : Prop :=
  Forall (λ d, d_id d = Some sid) ds.

(** The accumulator holds the one entry [e], filed under [sid], and under
    its index when a fragment gave one. *)
Definition holds_one (sid : string) (st : State) (e : ToolAccumulatorEntry)
    : Prop :=
  store st = [e] ∧ byId st = [(sid, 0%nat)] ∧ id e = sid ∧
  (byIndex st = [] ∧ index e = None
   ∨ ∃ i, byIndex st = [(i, 0%nat)] ∧ index e = Some i).

(** Every fragment of the stream carries an index, or none does. *)
Definition all_indexed (ds : list ToolCallDelta) : Prop :=
  Forall (λ d, is_Some (d_index d)) ds.
Definition none_indexed (ds : list ToolCallDelta) : Prop :=
  Forall (λ d, d_index d = None) ds.

(** Synthesized ids are unique within the process: two calls never agree,
    and no provider id is one of them. *)
Definition synth_unique (synth : nat → Z → string)
    (ds : list ToolCallDelta) : Prop :=
  (∀ n n' i i', synth n i = synth n' i' → n = n')
  ∧ (∀ d n i, d ∈ ds → d_id d ≠ Some (synth n i)).

(** Orders the final list is sorted by. *)
Definition index_le (a b : ToolAccumulatorEntry) : Prop :=
  match index a, index b with
  | Some x, Some y => x ≤ y
  | _, _ => False
  end.
Definition order_le (a b : ToolAccumulatorEntry) : Prop :=
  (__order a ≤ __order b)%nat.

(** Invariant of a stream whose fragments all carry an index: every entry
    has its index, and the index map files every entry once. *)
Definition indexed_inv (st : State) : Prop :=
  Forall (λ e, is_Some (index e)) (store st)
  ∧ JsMap.values (byIndex st) ≡ₚ seq 0 (length (store st)).

(** Invariant of a stream without indexes: the index map stays empty and
    the id map files every entry once, under the entry's own id; each key
    is a provider id of the stream or an id synthesized earlier. *)
Definition unindexed_inv (synth : nat → Z → string)
    (ds : list ToolCallDelta) (st : State) : Prop :=
  byIndex st = []
  ∧ orderCounterRef st = length (store st)
  ∧ JsMap.values (byId st) = seq 0 (length (store st))
  ∧ (∀ k r, (k, r) ∈ byId st → ∃ e, store st !! r = Some e ∧ id e = k)
  ∧ (∀ k, k ∈ JsMap.keys (byId st) →
       (∃ d, d ∈ ds ∧ d_id d = Some k)
       ∨ (∃ n i, (n < orderCounterRef st)%nat ∧ k = synth n i)).

(** One step of the arguments branch: a chunk is appended unless the text
    accumulated before it is already complete. *)
Definition appendChunk (complete : string → bool)
    (before : string) (chunk : option string) : string :=
  match chunk with
  | Some c => if complete before then before else before +:+ c
  | None => before
  end.

(** A toy stand-in for [JSON.parse] used to run the model on concrete
    streams: a text is taken to parse when it opens with a brace and its
    last character closes it. *)
Fixpoint ends_with_brace (s : string) : bool :=
  match s with
  | EmptyString => false
  | String c EmptyString => Ascii.eqb c "}"
  | String _ s' => ends_with_brace s'
  end.

Definition parses_braced (s : string) : bool :=
  match s with
  | String c s' => Ascii.eqb c "{" && ends_with_brace s'
  | EmptyString => false
  end.

(** The double-quote character, as a one-character string. *)
Definition dq : string := String (ascii_of_nat 34) EmptyString.

(** A clock-free stand-in for [synthIdForIndex]. *)
Definition synth_const (n : nat) (i : Z) : string := "tool_synth".

(** A stand-in whose ids differ from call to call: the call count in
    unary after the prefix. *)
Fixpoint tally (n : nat) : string :=
  match n with
  | O => EmptyString
  | S n' => String "I" (tally n')
  end.
Definition synth_tally (n : nat) (i : Z) : string := "tool_" +:+ tally n.

Definition mkDelta (i : option Z) (sid : option string)
    (n a : option string) : ToolCallDelta :=
  {| d_index := i; d_id := sid;
     d_function := Some {| df_name := n; df_arguments := a |} |}.

End AccumulatorSpec.

(** ** JSON values and JS objects *)
Module Json.

(** A value [JSON.parse] returns. An object is the list of its own
    properties in enumeration order. *)
Inductive JSON :=
| JNull
| JBool (b : bool)
| JNumber (q : Q)
| JString (s : string)
| JArray (items : list JSON)
| JObject (props : list (string * JSON)).

Definition obj : Type := list (string * JSON).

(** Nesting depth: 0 for a scalar. *)
Fixpoint depth (v : JSON) : nat :=
  match v with
  | JArray items => S (foldr (λ x acc, Nat.max (depth x) acc) 0%nat items)
  | JObject props => S (foldr (λ kv acc, Nat.max (depth kv.2) acc) 0%nat props)
  | _ => 0%nat
  end.

(** Reading a property: [o.k], [undefined] when absent. *)
Fixpoint obj_get (o : obj) (k : string) : option JSON :=
  match o with
  | [] => None
  | (k', v) :: o' => if decide (k' = k) then Some v else obj_get o' k
  end.

(** ['k' in o] *)
Definition obj_has (o : obj) (k : string) : bool :=
  bool_decide (is_Some (obj_get o k)).

(** The value of a decimal digit string. *)
Fixpoint digits_value (acc : N) (s : string) : option N :=
  match s with
  | EmptyString => Some acc
  | String c s' =>
      let n := N_of_ascii c in
      if ((48 <=? n) && (n <=? 57))%N
      then digits_value (10 * acc + (n - 48))%N s'
      else None
  end.

(** An array index: the canonical decimal string of an integer below
    [2^32 - 1]. Such keys are enumerated first, in ascending order. *)
Definition array_index (k : string) : option N :=
  match k with
  | EmptyString => None
  | String c rest =>
      if Ascii.eqb c "0" && negb (String.eqb rest "")
      then None
      else match digits_value 0 k with
           | Some n => if (n <? 4294967295)%N then Some n else None
           | None => None
           end
  end.

(** Where a new property [k] goes among the properties [o]: an array
    index after the array indexes not above it, any other key last. *)
Fixpoint obj_insert (o : obj) (n : N) (k : string) (v : JSON) : obj :=
  match o with
  | [] => [(k, v)]
  | (k', v') :: o' =>
      match array_index k' with
      | Some n' =>
          if (n' <=? n)%N then (k', v') :: obj_insert o' n k v
          else (k, v) :: (k', v') :: o'
      | None => (k, v) :: (k', v') :: o'
      end
  end.

Fixpoint obj_replace (o : obj) (k : string) (v : JSON) : obj :=
  match o with
  | [] => []
  | (k', v') :: o' =>
      if decide (k' = k) then (k, v) :: o' else (k', v') :: obj_replace o' k v
  end.

(** Defining or assigning a property: [o.k = v]. *)
Definition obj_define (o : obj) (k : string) (v : JSON) : obj :=
  if obj_has o k then obj_replace o k v
  else match array_index k with
       | Some n => obj_insert o n k v
       | None => o ++ [(k, v)]
       end.

(** [{ ...base, ...src }]: the properties of [src] defined on [base] in
    enumeration order. *)
Definition spread (base src : obj) : obj :=
  foldl (λ acc kv, obj_define acc kv.1 kv.2) base src.

Definition is_string (v : JSON) : bool :=
  match v with JString _ => true | _ => false end.

End Json.

(** ** Messages and the context-message sanitizer *)
Module Messages.
Import Accumulator.

(** [MessageRole]; ['function'] is the legacy role [serializeCallChain]
    still tests for. *)
Inductive MessageRole := system | user | assistant | tool | function_.

Global Instance MessageRole_eq_dec : EqDecision MessageRole.
Proof. solve_decision. Defined.

(** [MessageContent]: a string, a list of typed parts, or nothing. *)
Inductive ContentItem :=
| TextContent (text : string)
| ImageContent (image_url : string).

Inductive MessageContent :=
| ContentText (s : string)
| ContentParts (items : list ContentItem)
| ContentNull.

Record Message := {
  role : MessageRole;
  content : MessageContent;
  tool_calls : option (list ToolCall);
  name : option string;
  tool_call_id : option string;
}.

Definition with_content (m : Message) (c : MessageContent) : Message :=
  {| role := role m; content := c; tool_calls := tool_calls m;
     name := name m; tool_call_id := tool_call_id m |}.

Definition with_tool_calls (m : Message) (tcs : option (list ToolCall))
    : Message :=
  {| role := role m; content := content m; tool_calls := tcs;
     name := name m; tool_call_id := tool_call_id m |}.

Section Sanitizer.
(** [optimizeTextContent] rewrites one text with three regular
    expressions; nothing below depends on what it returns. *)
Variable optimizeTextContent : string → string.

Definition optimizeMessageContent (c : MessageContent) : MessageContent :=
  match c with
  | ContentNull => c
  | ContentText s =>
      if String.eqb s "" then c else ContentText (optimizeTextContent s)
  | ContentParts items =>
      ContentParts
        ((λ item, match item with
                  | TextContent t => TextContent (optimizeTextContent t)
                  | ImageContent _ => item
                  end) <$> items)
  end.

(** A new object per message, the content replaced. *)
Definition optimizeInputs (messages : list Message) : list Message :=
  (λ message, with_content message (optimizeMessageContent (content message)))
    <$> messages.

(** [msg.name?.trim()] is truthy. *)
Definition name_present (msg : Message) : bool :=
  match name msg with
  | Some n => negb (trims_to_empty n)
  | None => false
  end.

(** [msg.tool_call_id && validToolCallIds.has(msg.tool_call_id)] *)
Definition id_is_valid (validToolCallIds : list string) (msg : Message)
    : bool :=
  match tool_call_id msg with
  | Some i => negb (String.eqb i "") && bool_decide (i ∈ validToolCallIds)
  | None => false
  end.

(** The callback of [ctxMessages.filter]: whether [msg] is kept, and the
    set of valid ids after it. *)
Definition keep_message (validToolCallIds : list string) (msg : Message)
    : bool * list string :=
  match role msg, tool_calls msg with
  | assistant, Some tcs => (true, tc_id <$> tcs)
  | tool, _ =>
      if negb (name_present msg) then (false, validToolCallIds)
      else if negb (id_is_valid validToolCallIds msg)
           then (false, validToolCallIds)
           else (true, validToolCallIds)
  | _, _ => (true, validToolCallIds)
  end.

Fixpoint filterContext (validToolCallIds : list string)
    (ctxMessages : list Message) : list Message :=
  match ctxMessages with
  | [] => []
  | msg :: rest =>
      let '(keep, valid') := keep_message validToolCallIds msg in
      if keep then msg :: filterContext valid' rest
      else filterContext valid' rest
  end.

(** The callback of [filtered.map]: an assistant message keeps the tool
    calls that have an id, and no empty array. *)
Definition stripToolCalls (msg : Message) : Message :=
  match role msg, tool_calls msg with
  | assistant, Some tcs =>
      let kept := filter (λ tc, tc_id tc ≠ "") tcs in
      with_tool_calls msg (if (length kept =? 0)%nat then None else Some kept)
  | _, _ => msg
  end.

(** [messagesToPass] as it stands before the format instructions are
    added: the optimized conversation, then the sanitized context. *)
Definition sanitize (messages : list Message)
    (ctxMessages : option (list Message)) : list Message :=
  optimizeInputs messages
  ++ match ctxMessages with
     | Some ctx => stripToolCalls <$> filterContext [] ctx
     | None => []
     end.

(** *** The same steps on message objects

    The caller's messages are objects: [store] holds them and a message
    list is a list of references. [optimizeInputs] allocates its copies;
    the second pass assigns to [msg.tool_calls] of the context's own
    objects. *)
Abbreviation Store := (list Message).

Definition read (σ : Store) (rs : list nat) : list Message :=
  omap (λ r, σ !! r) rs.

Fixpoint filterContextRefs (σ : Store) (validToolCallIds : list string)
    (ctxMessages : list nat) : list nat :=
  match ctxMessages with
  | [] => []
  | r :: rest =>
      match σ !! r with
      | Some msg =>
          let '(keep, valid') := keep_message validToolCallIds msg in
          if keep then r :: filterContextRefs σ valid' rest
          else filterContextRefs σ valid' rest
      | None => filterContextRefs σ validToolCallIds rest
      end
  end.

Definition sanitizeRefs (σ : Store) (messages : list nat)
    (ctxMessages : option (list nat)) : Store * list nat :=
  let optimized := optimizeInputs (read σ messages) in
  let σ1 := σ ++ optimized in
  let optimizedRefs := seq (length σ) (length optimized) in
  match ctxMessages with
  | Some ctx =>
      let filtered := filterContextRefs σ1 [] ctx in
      let σ2 := foldl (λ s r, alter stripToolCalls r s) σ1 filtered in
      (σ2, optimizedRefs ++ filtered)
  | None => (σ1, optimizedRefs)
  end.
End Sanitizer.

(** *** The filter's callback, message by message *)

(** The set [validToolCallIds] holds once the callback has seen the
    messages [before]. *)
Definition valid_ids (before : list Message) : list string :=
  foldl (λ valid m,
           match role m, tool_calls m with
           | assistant, Some tcs => tc_id <$> tcs
           | _, _ => valid
           end) [] before.

(** The callback's own test on a tool message that comes after the
    messages [before]: whether the filter drops it as orphaned. *)
Definition orphaned (before : list Message) (m : Message) : bool :=
  bool_decide (role m = tool)
  && (negb (name_present m) || negb (id_is_valid (valid_ids before) m)).

(** A history without the tool messages that test drops, each message
    judged against the messages before it. *)
Fixpoint dropOrphans (before msgs : list Message) : list Message :=
  match msgs with
  | [] => []
  | m :: rest =>
      (if orphaned before m then [] else [m])
      ++ dropOrphans (before ++ [m]) rest
  end.

Definition mkMessage (r : MessageRole) (c : string)
    (tcs : option (list ToolCall)) (n i : option string) : Message :=
  {| role := r; content := ContentText c; tool_calls := tcs;
     name := n; tool_call_id := i |}.

Definition mkToolCall (i n : string) : ToolCall :=
  {| tc_id := i; tc_type := "function"; tc_name := n; tc_arguments := "{}" |}.

End Messages.

(** ** Tool results and the tool-call context *)
Module Context.
Import Accumulator Messages Json.

(** [CompletionSignal] *)
Record CompletionSignal := {
  signaled : bool;
  toolName : string;
  summary : option string;
}.

(** [ToolCallContext] *)
Record ToolCallContext := {
  messages : list Message;
  depth : nat;
  completionSignal : option CompletionSignal;
  warningInjected : option bool;
}.

(** [ToolCallResult]: [result] is [undefined] when the tool produced
    nothing. *)
Record ToolCallResult := {
  r_id : string;
  r_name : string;
  r_result : option JSON;
}.

(** The pluggable [CompletionDetector]. *)
Record CompletionDetector := {
  detectCompletion : list ToolCallResult → option CompletionSignal;
  isCompletionTool : string → bool;
}.

(** A JSON value used as a condition. *)
Definition js_truthy (v : JSON) : bool :=
  match v with
  | JNull => false
  | JBool b => b
  | JNumber q => negb (Qeq_bool q 0)
  | JString s => negb (String.eqb s "")
  | JArray _ | JObject _ => true
  end.

Section Update.
Variable JSON_stringify : JSON → string.

(** The tool-role message made of one executed result. *)
Definition toolMessage (result : ToolCallResult) : Message :=
  {| role := tool;
     content := ContentText
       (match r_result result with
        | Some v => if js_truthy v then JSON_stringify v else "done"
        | None => "done"
        end);
     tool_calls := None;
     name := Some (r_name result);
     tool_call_id := Some (r_id result) |}.

Definition updateToolCallContext (toolCallContext : option ToolCallContext)
    (assistantMessage : Message) (executedToolCalls : list ToolCallResult)
    (completionDetector : option CompletionDetector) : ToolCallContext :=
  let newMessages :=
    from_option messages [] toolCallContext
    ++ [assistantMessage]
    ++ (toolMessage
          <$> filter (λ result, has_name (r_name result) = true)
                executedToolCalls) in
  let newDepth := S (from_option depth 0%nat toolCallContext) in
  (* Detect completion signal from executed tool calls *)
  let completionSignal :=
    match toolCallContext ≫= completionSignal, completionDetector with
    | None, Some detector => detectCompletion detector executedToolCalls
    | previous, _ => previous
    end in
  {| messages := newMessages;
     depth := newDepth;
     completionSignal := completionSignal;
     warningInjected :=
       Some (from_option (default false ∘ warningInjected) false
               toolCallContext) |}.

(** *** Vocabulary for the signal's properties *)

(** One context update: the assistant message and the results executed
    for it. *)
Definition Round : Type := Message * list ToolCallResult.

(** The contexts a call chain goes through, one update per round. *)
Fixpoint contexts (detector : option CompletionDetector)
    (ctx : option ToolCallContext) (rounds : list Round)
    : list ToolCallContext :=
  match rounds with
  | [] => []
  | (assistantMessage, executed) :: rest =>
      let ctx' :=
        updateToolCallContext ctx assistantMessage executed detector in
      ctx' :: contexts detector (Some ctx') rest
  end.
End Update.

(** The signal of the first round whose results the detector recognizes. *)
Fixpoint firstDetected (detector : CompletionDetector)
    (rounds : list Round) : option CompletionSignal :=
  match rounds with
  | [] => None
  | (_, executed) :: rest =>
      match detectCompletion detector executed with
      | Some s => Some s
      | None => firstDetected detector rest
      end
  end.

(** Modelled from the spec: the detector of [./completionDetection] is
    not among the sources; the first tool in the list recognized as a
    completion tool wins, and its result is the summary when it is a
    string. *)
Definition firstCompletion (isCompletion : string → bool)
    (results : list ToolCallResult) : option CompletionSignal :=
  (λ r, {| signaled := true; toolName := r_name r;
           summary := match r_result r with
                      | Some (JString s) => Some s
                      | _ => None
                      end |})
    <$> head (filter (λ r, isCompletion (r_name r) = true) results).

Definition completionToolDetector (isCompletion : string → bool)
    : CompletionDetector :=
  {| detectCompletion := firstCompletion isCompletion;
     isCompletionTool := isCompletion |}.

End Context.

(** ** The array repair of the validator: [normalizeBlueprintData] *)
Module Normalize.
Import Json.

Section Body.
(** The recursive call; [None] when it does not return. *)
Variable rec : JSON → option JSON.

(** One entry of [Object.entries(o).map(([key, value]) => ...)]: a plain
    object without the identifying [field] gets the key as that field,
    in front of its repaired properties. *)
Definition keyed_entry (field : string) (kv : string * JSON)
    : option JSON :=
  let '(key, value) := kv in
  match value with
  | JObject props =>
      if obj_has props field then rec value
      else
        n ← rec value;
        Some (JObject (spread [(field, JString key)]
                         (match n with JObject p => p | _ => [] end)))
  | _ => rec value
  end.

(** [views] and [implementationRoadmap]: a plain object becomes the array
    of its entries, an array is repaired item by item. *)
Definition normalize_keyed (field key : string) (normalized : obj)
    : option obj :=
  match obj_get normalized key with
  | Some (JObject entries) =>
      arr ← mapM (keyed_entry field) entries;
      Some (obj_define normalized key (JArray arr))
  | Some (JArray items) =>
      arr ← mapM rec items;
      Some (obj_define normalized key (JArray arr))
  | _ => Some normalized
  end.

(** The [files] of the repaired [initialPhase]: only a plain object is
    converted. *)
Definition normalize_files (initialPhase : JSON) : option JSON :=
  match initialPhase with
  | JObject ip =>
      match obj_get ip "files" with
      | Some (JObject entries) =>
          arr ← mapM (keyed_entry "path") entries;
          Some (JObject (obj_define ip "files" (JArray arr)))
      | _ => Some initialPhase
      end
  | _ => Some initialPhase
  end.

Definition normalize_initialPhase (normalized : obj) : option obj :=
  match obj_get normalized "initialPhase" with
  | Some (JObject ip) =>
      ip1 ← rec (JObject ip);
      ip2 ← normalize_files ip1;
      Some (obj_define normalized "initialPhase" ip2)
  | _ => Some normalized
  end.

(** [pitfalls], [frameworks], [colorPalette]: the string values of an
    object, or the string items of an array. *)
Definition normalize_strings (key : string) (normalized : obj) : obj :=
  match obj_get normalized key with
  | Some (JObject entries) =>
      obj_define normalized key
        (JArray (filter (λ v, is_string v = true) entries.*2))
  | Some (JArray items) =>
      obj_define normalized key
        (JArray (filter (λ v, is_string v = true) items))
  | _ => normalized
  end.

Definition normalizeBody (raw : JSON) : option JSON :=
  match raw with
  | JArray items => JArray <$> mapM rec items
  | JObject props =>
      let normalized := spread [] props in
      n1 ← normalize_keyed "name" "views" normalized;
      n2 ← normalize_keyed "phase" "implementationRoadmap" n1;
      n3 ← normalize_initialPhase n2;
      let n4 := normalize_strings "pitfalls" n3 in
      let n5 := normalize_strings "frameworks" n4 in
      let n6 := normalize_strings "colorPalette" n5 in
      Some (JObject n6)
  | _ => Some raw
  end.
End Body.

(** The function calls itself on parts of its argument and, for [files],
    on parts of what a call returned; [fuel] bounds the nesting of calls. *)
Fixpoint normalizeFuel (fuel : nat) (raw : JSON) : option JSON :=
  match fuel with
  | O => None
  | S fuel' => normalizeBody (normalizeFuel fuel') raw
  end.

Definition normalizeBlueprintData (raw : JSON) : option JSON :=
  normalizeFuel (S (depth raw)) raw.

(** *** Vocabulary for the repair's properties *)

(** Enumeration order of property keys: array indexes ascending, then the
    other keys. *)
Definition key_order (k1 k2 : string) : Prop :=
  match array_index k1, array_index k2 with
  | Some a, Some b => (a ≤ b)%N
  | Some _, None => True
  | None, None => True
  | None, Some _ => False
  end.

(** A list that is the enumeration of a JS object's properties. *)
Definition Canonical (o : obj) : Prop :=
  NoDup o.*1 ∧ StronglySorted key_order o.*1.

Definition not_object (v : JSON) : Prop :=
  match v with JObject _ => False | _ => True end.

(** Array-shaped values: what a repaired value looks like. *)
Inductive Repaired : JSON → Prop :=
| Repaired_null : Repaired JNull
| Repaired_bool b : Repaired (JBool b)
| Repaired_number q : Repaired (JNumber q)
| Repaired_string s : Repaired (JString s)
| Repaired_array items : Forall Repaired items → Repaired (JArray items)
| Repaired_object props :
    Canonical props →
    (∀ key v, key ∈ ["views"; "implementationRoadmap"] →
       obj_get props key = Some v →
       not_object v ∧ ∀ items, v = JArray items → Forall Repaired items) →
    (∀ ip, obj_get props "initialPhase" = Some (JObject ip) →
       Repaired (JObject ip) ∧
       ∀ v, obj_get ip "files" = Some v → not_object v) →
    (∀ key v, key ∈ ["pitfalls"; "frameworks"; "colorPalette"] →
       obj_get props key = Some v →
       not_object v ∧
       ∀ items, v = JArray items → Forall (λ x, is_string x = true) items) →
    Repaired (JObject props).

Definition str (s : string) : JSON := JString s.

(** [rec] returns on every value nested at most [m] deep, with a value
    nested no deeper. *)
Definition returns_upto (rec : JSON → option JSON) (m : nat) : Prop :=
  ∀ x, (depth x ≤ m)%nat → ∃ y, rec x = Some y ∧ (depth y ≤ depth x)%nat.

End Normalize.

(** ** Transport failures and the retry delay *)
Module RateLimit.
Import Json Context.

(** A header or error field holding the delay: a string or a number. *)
Inductive HeaderValue :=
| HString (s : string)
| HNumber (q : Q).

Definition Headers : Type := list (string * HeaderValue).

(** What [client.chat.completions.create] throws, as far as the handler
    looks at it. *)
Record TransportError := {
  e_instanceof_Error : bool;
  e_name : string;
  e_message : option string;
  e_status : option Z;
  e_response_status : option Z;
  e_statusCode : option Z;
  e_headers : option Headers;
  e_response_headers : option Headers;
  e_retryAfter : option HeaderValue;
  e_retry_after : option HeaderValue;
}.

(** The response of [fetch], as far as the native path reads it. *)
Record HttpResponse := {
  res_ok : bool;
  res_status : Z;
  res_text : string;
  res_header : string → option string;
}.

Inductive Thrown :=
| RateLimitExceededError (message : string) (suggestedRetryAfter : option Z)
| AbortError (response : string) (toolCallContext : option ToolCallContext)
| InferError (message response : string)
    (toolCallContext : option ToolCallContext)
| Error (message : string)
| TypeError
| SyntaxError
| Transport (error : TransportError)
| Foreign (tag : string).

(** [a || b] on optional values with their truthiness. *)
Definition js_or {A} (truth : A → bool) (a b : option A) : option A :=
  match a with
  | Some x => if truth x then a else b
  | None => b
  end.

Definition number_truthy (n : Z) : bool := negb (n =? 0)%Z.

Definition header_truthy (h : HeaderValue) : bool :=
  match h with
  | HString s => negb (String.eqb s "")
  | HNumber q => negb (Qeq_bool q 0)
  end.

Fixpoint header_get (headers : Headers) (k : string) : option HeaderValue :=
  match headers with
  | [] => None
  | (k', v) :: rest => if String.eqb k' k then Some v else header_get rest k
  end.

(** [s.includes(sub)] *)
Definition includes (s sub : string) : bool :=
  bool_decide (is_Some (String.index 0 sub s)).

(** [text.replace(/s$/, '')] *)
Fixpoint strip_s_suffix (s : string) : string :=
  match s with
  | EmptyString => EmptyString
  | String c EmptyString => if Ascii.eqb c "s" then EmptyString else s
  | String c rest => String c (strip_s_suffix rest)
  end.

(** [Math.ceil(seconds * 1000)]. A double is a rational and the product
    is taken exactly here; the code rounds it to a double first, which
    for some values (2.007 is one) lies above the next integer, and then
    gives one millisecond more. *)
Definition to_millis (seconds : Q) : Z := Qceiling (seconds * 1000)%Q.

Section Classify.
(** [parseFloat]; [None] is [NaN]. *)
Variable parseFloat : string → option Q.
Variable JSON_parse : string → option JSON.
Variable show_number : Q → string.
(** [String(v)] of a value that is no string. *)
Variable ToString : JSON → string.

(** The handler around [client.chat.completions.create]. *)
Definition classifyTransportError (toolCallContext : option ToolCallContext)
    (error : TransportError) : Thrown :=
  if e_instanceof_Error error
     && (String.eqb (e_name error) "AbortError"
         || from_option (λ m, includes m "aborted") false (e_message error)
         || from_option (λ m, includes m "abort") false (e_message error))
  then AbortError "**User cancelled inference**" toolCallContext
  else
    let errorStatus :=
      js_or number_truthy (e_status error)
        (js_or number_truthy (e_response_status error) (e_statusCode error)) in
    match errorStatus with
    | Some 429 =>
        let headers :=
          default [] (match e_headers error with
                      | Some h => Some h
                      | None => e_response_headers error
                      end) in
        let retryAfterHeader :=
          js_or header_truthy (header_get headers "retry-after")
            (js_or header_truthy (header_get headers "Retry-After")
               (js_or header_truthy (e_retryAfter error)
                  (e_retry_after error))) in
        let retryDelayMs :=
          match retryAfterHeader with
          | Some h =>
              if header_truthy h then
                let retryAfterSeconds :=
                  match h with
                  | HString s => parseFloat s
                  | HNumber q => Some q
                  end in
                match retryAfterSeconds with
                | Some q => if Qlt_le_dec 0 q then to_millis q else 60000
                | None => 60000
                end
              else 60000
          | None => 60000
          end in
        RateLimitExceededError
          ("API rate limit exceeded. Retry after "
           +:+ show_number (inject_Z retryDelayMs / 1000)%Q +:+ "s")
          (Some retryDelayMs)
    | _ => Transport error
    end.

(** [o?.k] on a JSON value: [undefined] on anything without the key. *)
Definition optional_get (v : option JSON) (k : string) : option JSON :=
  match v with
  | Some (JObject props) => obj_get props k
  | _ => None
  end.

(** [d['@type'] === '...RetryInfo'] inside [find]; reading a property of
    [null] throws. *)
Definition is_retry_info (d : JSON) : Thrown + bool :=
  match d with
  | JNull => inl TypeError
  | JObject props =>
      inr (match obj_get props "@type" with
           | Some (JString t) =>
               String.eqb t "type.googleapis.com/google.rpc.RetryInfo"
           | _ => false
           end)
  | _ => inr false
  end.

Fixpoint find_retry_info (details : list JSON) : Thrown + option JSON :=
  match details with
  | [] => inr None
  | d :: rest =>
      match is_retry_info d with
      | inl e => inl e
      | inr true => inr (Some d)
      | inr false => find_retry_info rest
      end
  end.

(** The body of the [try] of the native 429 handler: it ends in a
    [throw] on every path. *)
Definition geminiRateLimitTry (res : HttpResponse) : Thrown :=
  match JSON_parse (res_text res) with
  | None => SyntaxError
  | Some errorJson =>
      let retryAfterHeader :=
        js_or (λ s, negb (String.eqb s "")) (res_header res "retry-after")
          (res_header res "Retry-After") in
      let finish (retryDelaySeconds : Q) : Thrown :=
        RateLimitExceededError
          ("Gemini API rate limit exceeded. Retry after "
           +:+ show_number retryDelaySeconds +:+ "s")
          (Some (to_millis retryDelaySeconds)) in
      match js_or (λ s, negb (String.eqb s "")) retryAfterHeader None with
      | Some h =>
          match parseFloat h with
          | Some parsed => if Qlt_le_dec 0 parsed then finish parsed
                           else finish 34%Q
          | None => finish 34%Q
          end
      | None =>
          match optional_get (optional_get (Some errorJson) "error")
                  "details" with
          | Some (JArray details) =>
              match find_retry_info details with
              | inl e => e
              | inr (Some retryInfo) =>
                  match optional_get (Some retryInfo) "retryDelay" with
                  | Some retryDelay =>
                      if js_truthy retryDelay then
                        let delayValue :=
                          match js_or js_truthy
                                  (optional_get (Some retryDelay) "seconds")
                                  (Some retryDelay) with
                          | Some v => v
                          | None => retryDelay
                          end in
                        let parsed :=
                          match delayValue with
                          | JString s => parseFloat (strip_s_suffix s)
                          | JNumber q => Some q
                          | v => parseFloat (ToString v)
                          end in
                        match parsed with
                        | Some q => if Qlt_le_dec 0 q then finish q
                                    else finish 34%Q
                        | None => finish 34%Q
                        end
                      else finish 34%Q
                  | None => finish 34%Q
                  end
              | inr None => finish 34%Q
              end
          | Some JNull | None => finish 34%Q
          | Some _ => TypeError
          end
      end
  end.

(** [catch (parseError) { throw ... }] of the same handler. *)
Definition geminiRateLimitCatch (parseError : Thrown) : Thrown :=
  RateLimitExceededError "Gemini API rate limit exceeded" (Some 34000).

(** The handler: the [throw] that ends the [try] is inside it, so the
    [catch] receives whatever the body threw. *)
Definition geminiRateLimit (res : HttpResponse) : Thrown :=
  geminiRateLimitCatch (geminiRateLimitTry res).

(** The delay a thrown value carries. *)
Definition suggestedRetryAfter_of (e : Thrown) : option Z :=
  match e with
  | RateLimitExceededError _ ms => ms
  | _ => None
  end.
End Classify.

(** *** Stand-ins for running the handlers on concrete responses *)

Definition digit_of (c : ascii) : option Z :=
  let n := Z.of_nat (nat_of_ascii c) in
  if (48 <=? n) && (n <=? 57) then Some (n - 48) else None.

(** Digits, then at most one fraction: a decimal without sign or
    exponent. *)
Fixpoint parse_decimal (int_part : Z) (scale : option positive)
    (seen : bool) (s : string) : option Q :=
  match s with
  | EmptyString =>
      if seen then Some (match scale with
                         | Some p => Qmake int_part p
                         | None => inject_Z int_part
                         end)
      else None
  | String c rest =>
      match digit_of c, scale with
      | Some d, None => parse_decimal (10 * int_part + d) None true rest
      | Some d, Some p =>
          parse_decimal (10 * int_part + d) (Some (10 * p)%positive) true rest
      | None, None =>
          if Ascii.eqb c "." then parse_decimal int_part (Some 1%positive)
                                    seen rest
          else None
      | None, Some _ => None
      end
  end.

Definition parseFloat_decimal (s : string) : option Q :=
  parse_decimal 0 None false s.

(** Numbers are shown as integers where they are, as fractions where
    not. *)
Definition show_rational (q : Q) : string :=
  if (Z.pos (Qden (Qred q)) =? 1)%Z then pretty (Qnum (Qred q))
  else pretty (Qnum (Qred q)) +:+ "/" +:+ pretty (Z.pos (Qden (Qred q))).

Definition quoted (s : string) : string :=
  String (ascii_of_nat 34) (s +:+ String (ascii_of_nat 34) EmptyString).

(** The body of a 429 answer that names its retry delay:
    [{"error":{"details":[{"@type":"...RetryInfo","retryDelay":"7.5s"}]}}] *)
Definition retry_info_text : string :=
  "{" +:+ quoted "error" +:+ ":{" +:+ quoted "details" +:+ ":[{"
  +:+ quoted "@type" +:+ ":"
  +:+ quoted "type.googleapis.com/google.rpc.RetryInfo" +:+ ","
  +:+ quoted "retryDelay" +:+ ":" +:+ quoted "7.5s" +:+ "}]}}".

Definition retry_info_body : JSON :=
  JObject
    [("error",
      JObject
        [("details",
          JArray
            [JObject
               [("@type",
                 JString "type.googleapis.com/google.rpc.RetryInfo");
                ("retryDelay", JString "7.5s")]])])].

(** [JSON.parse] where it is asked for this one text. *)
Definition parse_retry_info (text : string) : option JSON :=
  if String.eqb text retry_info_text then Some retry_info_body else None.

(** The 429 answer of the native endpoint: no [Retry-After] header. *)
Definition too_many_requests : HttpResponse :=
  {| res_ok := false; res_status := 429; res_text := retry_info_text;
     res_header := λ _, None |}.

(** A 429 failure of the chat-completion client, with the headers it
    carries. *)
Definition status_429 (headers : option Headers) : TransportError :=
  {| e_instanceof_Error := true; e_name := "APIError";
     e_message := Some "429 Too Many Requests";
     e_status := Some 429; e_response_status := None;
     e_statusCode := None;
     e_headers := headers; e_response_headers := None;
     e_retryAfter := None; e_retry_after := None |}.

End RateLimit.

(** ** The recursive inference loop *)
Module Inference.
Import Accumulator Messages Json Context RateLimit.

(** The provider capability matrix. *)
Record Capabilities := {
  openAICompatible : bool;
  cap_requiresNativeInference : option bool;
}.

Definition PROVIDER_CAPABILITIES : list (string * Capabilities) :=
  [ ("openai", {| openAICompatible := true;
                  cap_requiresNativeInference := None |});
    ("grok", {| openAICompatible := true;
                cap_requiresNativeInference := None |});
    ("anthropic", {| openAICompatible := false;
                     cap_requiresNativeInference := None |});
    ("google-ai-studio", {| openAICompatible := false;
                            cap_requiresNativeInference := Some true |});
    ("deepseek", {| openAICompatible := true;
                    cap_requiresNativeInference := None |}) ].

Definition requiresNativeInference (provider : string) : bool :=
  match JsMap.get PROVIDER_CAPABILITIES provider with
  | Some capabilities =>
      match cap_requiresNativeInference capabilities with
      | Some b => b
      | None => false
      end
  | None => false
  end.

(** What a call returns: [{ string, toolCallContext }] or
    [{ object, toolCallContext }]. *)
Inductive Response :=
| InferResponseString (text : string) (toolCallContext : option ToolCallContext)
| InferResponseObject (object : JSON)
    (toolCallContext : option ToolCallContext).

(** The reply of the chat-completion endpoint. *)
Record CompletionMessage := {
  cm_content : option string;
  cm_tool_calls : option (list ToolCall);
}.

Record Delta := {
  delta_content : option string;
  delta_tool_calls : option (list ToolCallDelta);
}.

Record ChatCompletionChunk := {
  chunk_delta : option Delta;
  finish_reason : option string;
}.

Inductive ChatResponse :=
| ChatCompletion (message : option CompletionMessage)
| ChatStream (events : list ChatCompletionChunk).

(** What the loop does to the outside, in order. A [SelfCall] records the
    depth of the context a recursive call is given. *)
Inductive Event :=
| NetworkRequest (model : string) (sent : list Message)
| NativeRequest (model : string) (prompt : string)
| ToolsExecuted (calls : list ToolCall)
| AssistantMessageSeen (message : Message)
| ChunkSent (text : string)
| SelfCall (depth : nat).

Definition is_request (ev : Event) : bool :=
  match ev with
  | NetworkRequest _ _ | NativeRequest _ _ => true
  | _ => false
  end.

(** [s.slice(n)] *)
Fixpoint string_drop (n : nat) (s : string) : string :=
  match n, s with
  | O, _ => s
  | S n', String _ rest => string_drop n' rest
  | S _, EmptyString => EmptyString
  end.

Record StreamOptions := { chunk_size : nat }.

Record CompletionConfig := { detector : option CompletionDetector }.

(** The arguments of [infer] that the loop reads. *)
Record InferArgs {Schema SchemaFormat ToolDefinition ActionKey Overrides : Type}
  := {
  a_messages : list Message;
  a_schema : option Schema;
  a_schemaName : option string;
  a_format : option SchemaFormat;
  a_actionKey : ActionKey;
  a_modelName : string;
  a_stream : option StreamOptions;
  a_tools : option (list ToolDefinition);
  a_runtimeOverrides : option Overrides;
  a_onAssistantMessage : bool;
  a_completionConfig : option CompletionConfig;
}.
Arguments InferArgs : clear implicits.

(** *** Calls that await, throw and leave a trace *)

Record Machine {World : Type} := { world : World; trace : list Event }.
Arguments Machine : clear implicits.

Inductive Res (A : Type) :=
| Returned (a : A)
| Threw (e : Thrown)
| OutOfFuel.
Arguments Returned {A} a.
Arguments Threw {A} e.
Arguments OutOfFuel {A}.

Definition M (World A : Type) : Type :=
  Machine World → Machine World * Res A.

Section Monad.
Context {World : Type}.

Definition ret {A} (a : A) : M World A := λ m, (m, Returned a).

Definition bind {A B} (c : M World A) (k : A → M World B) : M World B :=
  λ m, match c m with
       | (m', Returned a) => k a m'
       | (m', Threw e) => (m', Threw e)
       | (m', OutOfFuel) => (m', OutOfFuel)
       end.

Definition throw {A} (e : Thrown) : M World A := λ m, (m, Threw e).

Definition out_of_fuel {A} : M World A := λ m, (m, OutOfFuel).

Definition emit (ev : Event) : M World unit :=
  λ m, ({| world := world m; trace := trace m ++ [ev] |}, Returned tt).

(** [try { c } catch (e) { handler e }] *)
Definition try_catch {A} (c : M World A) (handler : Thrown → M World A)
    : M World A :=
  λ m, match c m with
       | (m', Threw e) => handler e m'
       | r => r
       end.

(** A question to the outside: the world moves on and answers. *)
Definition ask {A} (f : World → World * A) : M World A :=
  λ m, let '(w, a) := f (world m) in
       ({| world := w; trace := trace m |}, Returned a).

Definition ask_or_throw {A} (f : World → World * (Thrown + A)) : M World A :=
  λ m, let '(w, r) := f (world m) in
       ({| world := w; trace := trace m |},
        match r with inl e => Threw e | inr a => Returned a end).

Definition ask_may_throw (f : World → World * option Thrown) : M World unit :=
  λ m, let '(w, r) := f (world m) in
       ({| world := w; trace := trace m |},
        match r with Some e => Threw e | None => Returned tt end).
End Monad.

Notation "'do' x <- c ; k" := (bind c (λ x, k))
  (at level 10, x binder, c at level 100, k at level 200).
Notation "'do_' c ; k" := (bind c (λ _, k))
  (at level 10, c at level 100, k at level 200).

(** The collaborators and constants the sources import. The outside
    world answers the calls that are awaited; an answer may be a throw. *)
Class Collaborators
    (World Schema SchemaFormat ToolDefinition ActionKey Overrides : Type) := {
  MAX_LLM_MESSAGES : nat;
  getMaxToolCallingDepth : ActionKey → nat;
  (** [AI_MODEL_CONFIG[modelName]?.provider] *)
  AI_MODEL_CONFIG : string → option string;
  td_name : ToolDefinition → string;
  JSON_parses : string → bool;
  synthIdForIndex : nat → Z → string;
  optimizeTextContent : string → string;
  JSON_stringify : JSON → string;
  JSON_parse : string → option JSON;
  parseFloat : string → option Q;
  show_number : Q → string;
  ToString : JSON → string;
  (** ['markdown'] *)
  markdown : SchemaFormat;
  generateTemplateForSchema : Schema → SchemaFormat → string;
  parseContentForSchema : string → SchemaFormat → Schema → option JSON;
  safeParse : Schema → JSON → option JSON;
  (** The model name sent: the bracketed tag and the provider prefix
      removed. *)
  effectiveModelName : string → string → string;
  GOOGLE_AI_STUDIO_API_KEY : option string;
  (** The prompt the native path builds from the conversation, the format
      instructions and whether tools are offered. *)
  buildPrompt : list Message → string → bool → string;
  (** User settings, the rate-limit service and the model configuration. *)
  resolveConfiguration :
    World
    → InferArgs Schema SchemaFormat ToolDefinition ActionKey Overrides
    → World * option Thrown;
  chat_completions_create :
    World → string → list Message → bool
    → World * (TransportError + ChatResponse);
  onAssistantMessage : World → Message → World * option Thrown;
  executeToolCalls :
    World → list ToolCall → list ToolDefinition
    → World * (Thrown + list ToolCallResult);
  fetch : World → string → string → World * (Thrown + HttpResponse);
  res_json : World → HttpResponse → World * (Thrown + JSON);
  geminiCallId : World → World * string;
}.

Section Loop.
Context {World Schema SchemaFormat ToolDefinition ActionKey Overrides : Type}.
Context `{!Collaborators World Schema SchemaFormat ToolDefinition ActionKey
            Overrides}.

Abbreviation InferArgs :=
  (InferArgs Schema SchemaFormat ToolDefinition ActionKey Overrides).
Abbreviation M := (M World).

Definition depth_of (toolCallContext : option ToolCallContext) : nat :=
  from_option depth 0%nat toolCallContext.

Definition detector_of (args : InferArgs) : option CompletionDetector :=
  a_completionConfig args ≫= detector.

(** [schema && schemaName] *)
Definition structured (args : InferArgs) : bool :=
  bool_decide (is_Some (a_schema args)) && truthy (a_schemaName args).

(** The context object after the sanitizer's second pass has assigned to
    its assistant messages. *)
Definition afterSanitize (toolCallContext : option ToolCallContext)
    : option ToolCallContext :=
  (λ ctx, {| messages := stripToolCalls <$> messages ctx;
             depth := depth ctx;
             completionSignal := completionSignal ctx;
             warningInjected := warningInjected ctx |}) <$> toolCallContext.

(** The format instructions go into the last message, rebuilt from its
    role and content alone. *)
Definition appendInstructions (formatInstructions : string)
    (messagesToPass : list Message) : Thrown + list Message :=
  match last messagesToPass with
  | None => inl TypeError
  | Some lastMessage =>
      let front := take (length messagesToPass - 1) messagesToPass in
      let rebuilt (c : MessageContent) :=
        {| role := role lastMessage; content := c; tool_calls := None;
           name := None; tool_call_id := None |} in
      match content lastMessage with
      | ContentText text =>
          inr (front ++ [rebuilt (ContentText
                                    (text +:+ "

" +:+ formatInstructions))])
      | ContentParts items =>
          inr (front ++
               [rebuilt (ContentParts
                  ((λ item, match item with
                            | TextContent text =>
                                TextContent (text +:+ "

" +:+ formatInstructions)
                            | ImageContent _ => item
                            end) <$> items))])
      | ContentNull => inr messagesToPass
      end
  end.

(** The loop over the events of a stream: tool-call deltas go to the
    accumulator, text is buffered and flushed to [stream.onChunk]. *)
Fixpoint consumeStream (chunkSize : nat) (events : list ChatCompletionChunk)
    (acc : Accumulator.State) (content : string) (streamIndex : nat)
    : M (Accumulator.State * string) :=
  match events with
  | [] => ret (acc, content)
  | event :: rest =>
      let delta := chunk_delta event in
      let acc' :=
        match delta ≫= delta_tool_calls with
        | Some deltas =>
            accumulateAll JSON_parses synthIdForIndex acc deltas
        | None => acc
        end in
      let content' :=
        content +:+ default "" (delta ≫= delta_content) in
      let slice := string_drop streamIndex content' in
      if (chunkSize <=? String.length slice)%nat
         || bool_decide (is_Some (finish_reason event))
      then
        do_ emit (ChunkSent slice);
        consumeStream chunkSize rest acc' content'
          (streamIndex + String.length slice)
      else consumeStream chunkSize rest acc' content' streamIndex
  end.

Definition named (toolCalls : list ToolCall) : list ToolCall :=
  filter (λ tc, has_name (tc_name tc) = true) toolCalls.

(** Content and tool calls of the reply. *)
Definition readResponse (stream : option StreamOptions)
    (response : ChatResponse) : M (string * list ToolCall) :=
  match stream, response with
  | Some options, ChatStream events =>
      do r <- consumeStream (chunk_size options) events
                Accumulator.initial "" 0;
      ret (r.2, named (assembleToolCalls r.1))
  | Some _, ChatCompletion message =>
      ret (default "" (message ≫= cm_content),
           default [] (message ≫= cm_tool_calls))
  | None, ChatCompletion message =>
      ret (default "" (message ≫= cm_content),
           named (default [] (message ≫= cm_tool_calls)))
  | None, ChatStream _ => throw TypeError
  end.

(** [parsed.k]: reading a property of [null] throws. *)
Definition property (v : JSON) (k : string) : M (option JSON) :=
  match v with
  | JNull => throw TypeError
  | JObject props => ret (obj_get props k)
  | _ => ret None
  end.

Definition text_of (v : JSON) : string :=
  match v with JString s => s | _ => ToString v end.

(** [json?.candidates?.[0]?.content?.parts?.[0]?.text] *)
Definition first_of (v : option JSON) : option JSON :=
  match v with
  | Some (JArray items) => head items
  | Some (JObject props) => obj_get props "0"
  | Some (JString (String c _)) => Some (JString (String c EmptyString))
  | _ => None
  end.

Definition candidateText (json : JSON) : option JSON :=
  optional_get
    (first_of
       (optional_get
          (optional_get (first_of (optional_get (Some json) "candidates"))
             "content")
          "parts"))
    "text".

Definition maxDepthNotice : string :=
  "[System: Maximum tool calling depth reached.]".

Definition show_nat (n : nat) : string :=
  show_number (inject_Z (Z.of_nat n)).

(** The native path. *)
Fixpoint inferGeminiNative (fuel : nat) (args : InferArgs)
    (toolCallContext : option ToolCallContext) : M Response :=
  let currentDepth := depth_of toolCallContext in
  if (getMaxToolCallingDepth (a_actionKey args) <=? currentDepth)%nat then
    if bool_decide (is_Some (a_schema args))
    then throw (AbortError
                  ("Maximum tool calling depth ("
                   +:+ show_nat (getMaxToolCallingDepth (a_actionKey args))
                   +:+ ") exceeded.")
                  toolCallContext)
    else ret (InferResponseString maxDepthNotice toolCallContext)
  else
  match fuel with
  | O => out_of_fuel
  | S fuel' =>
    if negb (truthy GOOGLE_AI_STUDIO_API_KEY)
    then throw (Error "Missing GOOGLE_AI_STUDIO_API_KEY")
    else
    let formatInstructions :=
      match a_schema args with
      | Some schema =>
          if truthy (a_schemaName args)
          then generateTemplateForSchema schema
                 (default markdown (a_format args))
          else ""
      | None => ""
      end in
    let prompt :=
      buildPrompt (a_messages args) formatInstructions
        (bool_decide (is_Some (a_tools args))) in
    do_ emit (NativeRequest (a_modelName args) prompt);
    do res <- ask_or_throw (λ w, fetch w (a_modelName args) prompt);
    if negb (res_ok res) then
      if (res_status res =? 429)%Z
      then throw (geminiRateLimit parseFloat JSON_parse show_number ToString
                    res)
      else throw (Error ("Gemini API error "
                         +:+ show_number (inject_Z (res_status res))
                         +:+ ": " +:+ res_text res))
    else
    do json <- ask_or_throw (λ w, res_json w res);
    match candidateText json with
    | None => throw (InferError "Empty response from Gemini" "" toolCallContext)
    | Some text =>
      if negb (js_truthy text)
      then throw (InferError "Empty response from Gemini" "" toolCallContext)
      else
      match JSON_parse (text_of text) with
      | None =>
          throw (InferError "Invalid JSON from Gemini" (text_of text)
                   toolCallContext)
      | Some parsed =>
        do action <- property parsed "action";
        match action, a_tools args with
        | Some action, Some tools =>
          if js_truthy action then
            do toolName <- property action "tool";
            match toolName with
            | Some (JString toolName) =>
              match find (λ t, String.eqb (td_name t) toolName) tools with
              | None =>
                  throw (InferError ("Unknown tool: " +:+ toolName)
                           (text_of text) toolCallContext)
              | Some _ =>
                do callId <- ask geminiCallId;
                do actionArgs <- property action "args";
                do thought <- property parsed "thought";
                let toolCall :=
                  {| tc_id := callId; tc_type := "function";
                     tc_name := toolName;
                     tc_arguments :=
                       JSON_stringify
                         (match actionArgs with
                          | Some JNull | None => JObject []
                          | Some v => v
                          end) |} in
                let assistantMessage :=
                  {| role := assistant;
                     content := ContentText
                       (match thought with
                        | Some v => if js_truthy v then text_of v else ""
                        | None => ""
                        end);
                     tool_calls := Some [toolCall];
                     name := None; tool_call_id := None |} in
                do_ emit (ToolsExecuted [toolCall]);
                do executed <- ask_or_throw
                                 (λ w, executeToolCalls w [toolCall] tools);
                let newContext :=
                  updateToolCallContext JSON_stringify toolCallContext
                    assistantMessage executed (detector_of args) in
                match completionSignal newContext with
                | Some signal =>
                  if signaled signal then
                    let summaryText :=
                      if truthy (summary signal)
                      then default "" (summary signal) else "Task complete" in
                    if bool_decide (is_Some (a_schema args))
                    then throw (AbortError
                                  ("Completion signaled: " +:+ summaryText)
                                  (Some newContext))
                    else ret (InferResponseString summaryText
                                (Some newContext))
                  else
                    do_ emit (SelfCall (depth newContext));
                    inferGeminiNative fuel' args (Some newContext)
                | None =>
                    do_ emit (SelfCall (depth newContext));
                    inferGeminiNative fuel' args (Some newContext)
                end
              end
            | _ =>
                throw (InferError ("Unknown tool: "
                                   +:+ from_option text_of "undefined" toolName)
                         (text_of text) toolCallContext)
            end
          else
            do final <- property parsed "final";
            let final' := match final with
                          | Some JNull | None => None
                          | Some v => Some v
                          end in
            match a_schema args with
            | Some schema =>
                match safeParse schema (default parsed final') with
                | Some data => ret (InferResponseObject data toolCallContext)
                | None => throw (InferError "Schema validation failed"
                                   (text_of text) toolCallContext)
                end
            | None =>
                ret (InferResponseString
                       (from_option text_of (text_of text) final')
                       toolCallContext)
            end
        | _, _ =>
            do final <- property parsed "final";
            let final' := match final with
                          | Some JNull | None => None
                          | Some v => Some v
                          end in
            match a_schema args with
            | Some schema =>
                match safeParse schema (default parsed final') with
                | Some data => ret (InferResponseObject data toolCallContext)
                | None => throw (InferError "Schema validation failed"
                                   (text_of text) toolCallContext)
                end
            | None =>
                ret (InferResponseString
                       (from_option text_of (text_of text) final')
                       toolCallContext)
            end
        end
      end
    end
  end.


(** [client.chat.completions.create] inside its [try]: a failure is
    classified, anything else is thrown on as it is. *)
Definition requestCompletion (modelName : string)
    (messagesToPass : list Message) (stream : bool)
    (toolCallContext : option ToolCallContext) : M ChatResponse :=
  λ m, let '(w, r) :=
         chat_completions_create (world m) modelName messagesToPass stream in
       ({| world := w; trace := trace m |},
        match r with
        | inl error =>
            Threw (classifyTransportError parseFloat show_number
                     toolCallContext error)
        | inr response => Returned response
        end).

(** [executeToolCalls] inside its [try]: an [AbortError] ends the call
    with the content received, any other failure leaves no results. *)
Definition runTools (args : InferArgs) (toolCallContext : option ToolCallContext)
    (assistantMessage : Message) (content : string)
    (toolCalls : list ToolCall) : M (Response + list ToolCallResult) :=
  match a_tools args with
  | Some tools =>
      do_ emit (ToolsExecuted toolCalls);
      try_catch
        (do executed <- ask_or_throw (λ w, executeToolCalls w toolCalls tools);
         ret (inr executed))
        (λ error,
           match error with
           | AbortError _ _ =>
               ret (inl (InferResponseString content
                           (Some (updateToolCallContext JSON_stringify
                                    toolCallContext assistantMessage []
                                    (detector_of args)))))
           | _ => ret (inr [])
           end)
  | None => ret (inr [])
  end.

(** [if (onAssistantMessage) await onAssistantMessage(assistantMessage)] *)
Definition notify (args : InferArgs) (assistantMessage : Message) : M unit :=
  if a_onAssistantMessage args
  then do_ emit (AssistantMessageSeen assistantMessage);
       ask_may_throw (λ w, onAssistantMessage w assistantMessage)
  else ret tt.

(** The arguments of the recursive call: the caller's, with the model
    name as rewritten and no runtime overrides; without a schema and its
    name the schema, name and format are left out too. *)
Definition nextArgs (args : InferArgs) (modelName : string) : InferArgs :=
  if structured args
  then {| a_messages := a_messages args;
          a_schema := a_schema args;
          a_schemaName := a_schemaName args;
          a_format := a_format args;
          a_actionKey := a_actionKey args;
          a_modelName := modelName;
          a_stream := a_stream args;
          a_tools := a_tools args;
          a_runtimeOverrides := None;
          a_onAssistantMessage := a_onAssistantMessage args;
          a_completionConfig := a_completionConfig args |}
  else {| a_messages := a_messages args;
          a_schema := None;
          a_schemaName := None;
          a_format := None;
          a_actionKey := a_actionKey args;
          a_modelName := modelName;
          a_stream := a_stream args;
          a_tools := a_tools args;
          a_runtimeOverrides := None;
          a_onAssistantMessage := a_onAssistantMessage args;
          a_completionConfig := a_completionConfig args |}.

(** The end of a call that made no further tool round: the content, or
    the object parsed from it. *)
Definition finish (args : InferArgs) (toolCallContext : option ToolCallContext)
    (content : string) : M Response :=
  match a_schema args with
  | None => ret (InferResponseString content toolCallContext)
  | Some schema =>
      let parsedContent :=
        match a_format args with
        | Some format => parseContentForSchema content format schema
        | None => JSON_parse content
        end in
      let normalizedContent :=
        match parsedContent with
        | Some parsed => Normalize.normalizeBlueprintData parsed
        | None => None
        end in
      match normalizedContent with
      | Some normalized =>
          match safeParse schema normalized with
          | Some data => ret (InferResponseObject data toolCallContext)
          | None =>
              throw (InferError "Failed to parse response" content
                       toolCallContext)
          end
      | None =>
          throw (InferError "Failed to parse response" content toolCallContext)
      end
  end.

Definition messageLimitError (n : nat) : Thrown :=
  RateLimitExceededError
    ("Message limit exceeded: " +:+ show_nat n +:+ " messages (max: "
     +:+ show_nat MAX_LLM_MESSAGES
     +:+ "). Please use context compactification.")
    None.

Definition depthExceededError (args : InferArgs)
    (toolCallContext : option ToolCallContext) : Thrown :=
  AbortError
    ("Maximum tool calling depth ("
     +:+ show_nat (getMaxToolCallingDepth (a_actionKey args))
     +:+ ") exceeded. Tools may be calling each other recursively.")
    toolCallContext.

(** [infer] *)
Fixpoint infer (fuel : nat) (args : InferArgs)
    (toolCallContext : option ToolCallContext) : M Response :=
  if (MAX_LLM_MESSAGES <? length (a_messages args))%nat
  then throw (messageLimitError (length (a_messages args)))
  else
  (* Check tool calling depth to prevent infinite recursion *)
  let currentDepth := depth_of toolCallContext in
  if (getMaxToolCallingDepth (a_actionKey args) <=? currentDepth)%nat then
    if bool_decide (is_Some (a_schema args))
    then throw (depthExceededError args toolCallContext)
    else ret (InferResponseString maxDepthNotice toolCallContext)
  else
  match AI_MODEL_CONFIG (a_modelName args) with
  | None => throw (Error ("Unknown model: " +:+ a_modelName args))
  | Some provider =>
    if requiresNativeInference provider
    then inferGeminiNative fuel args toolCallContext
    else
    match fuel with
    | O => out_of_fuel
    | S fuel' =>
      do_ ask_may_throw (λ w, resolveConfiguration w args);
      let modelName := effectiveModelName provider (a_modelName args) in
      let isClaudeModel := includes modelName "claude" in
      let isDeepSeekModel := String.eqb provider "deepseek" in
      let needsStructuredOutput :=
        structured args && negb (bool_decide (is_Some (a_format args))) in
      let forcedFormat :=
        if isClaudeModel && needsStructuredOutput then Some markdown
        else if isDeepSeekModel && needsStructuredOutput then Some markdown
        else a_format args in
      let sanitized :=
        sanitize optimizeTextContent (a_messages args)
          (messages <$> toolCallContext) in
      let toolCallContext := afterSanitize toolCallContext in
      let instructed : Thrown + list Message :=
        match forcedFormat with
        | Some forcedFormat =>
            match a_schema args with
            | Some schema =>
                if truthy (a_schemaName args)
                then appendInstructions
                       (generateTemplateForSchema schema forcedFormat)
                       sanitized
                else inl (Error "Schema and schemaName are required when using a custom format")
            | None =>
                inl (Error "Schema and schemaName are required when using a custom format")
            end
        | None => inr sanitized
        end in
      match instructed with
      | inl e => throw e
      | inr messagesToPass =>
        do_ emit (NetworkRequest modelName messagesToPass);
        do response <- requestCompletion modelName messagesToPass
                         (bool_decide (is_Some (a_stream args)))
                         toolCallContext;
        do r <- readResponse (a_stream args) response;
        let content := r.1 in
        let toolCalls := r.2 in
        let assistantMessage :=
          {| role := assistant; content := ContentText content;
             tool_calls := Some toolCalls;
             name := None; tool_call_id := None |} in
        do_ notify args assistantMessage;
        if String.eqb content ""
           && negb (bool_decide (is_Some (a_stream args)))
           && (length toolCalls =? 0)%nat
        then ret (InferResponseString "" toolCallContext)
        else
        do ran <- runTools args toolCallContext assistantMessage content
                    toolCalls;
        match ran with
        | inl response => ret response
        | inr [] => finish args toolCallContext content
        | inr executedToolCalls =>
          let newToolCallContext :=
            updateToolCallContext JSON_stringify toolCallContext
              assistantMessage executedToolCalls (detector_of args) in
          (* Stop recursion if completion signal detected *)
          if from_option signaled false (completionSignal newToolCallContext)
          then
            let summaryText :=
              match completionSignal newToolCallContext ≫= summary with
              | Some s => if String.eqb s "" then "Task complete" else s
              | None => "Task complete"
              end in
            if structured args
            then throw (AbortError ("Completion signaled: " +:+ summaryText)
                          (Some newToolCallContext))
            else ret (InferResponseString
                        (if String.eqb content "" then summaryText
                         else content)
                        (Some newToolCallContext))
          else
          (* Filter completion tools from recursion trigger *)
          let executedCallsWithResults :=
            filter (λ result,
                      bool_decide (is_Some (r_result result))
                      && negb (from_option
                                 (λ d, isCompletionTool d (r_name result))
                                 false (detector_of args)) = true)
              executedToolCalls in
          match executedCallsWithResults with
          | [] => ret (InferResponseString content (Some newToolCallContext))
          | _ =>
              do_ emit (SelfCall (depth newToolCallContext));
              infer fuel' (nextArgs args modelName) (Some newToolCallContext)
          end
        end
      end
    end
  end.

(** One logical inference request: the fuel is the number of rounds the
    depth guard leaves. *)
Definition inferRequest (args : InferArgs)
    (toolCallContext : option ToolCallContext) : M Response :=
  infer (getMaxToolCallingDepth (a_actionKey args) - depth_of toolCallContext)
    args toolCallContext.

End Loop.

(** *** Vocabulary for the loop's properties *)

(** The requests to a model among the events. *)
Definition requests (evs : list Event) : nat :=
  length (filter (λ ev, is_request ev = true) evs).

(** The depths the recursive calls were given, in order. *)
Definition self_calls (evs : list Event) : list nat :=
  omap (λ ev, match ev with SelfCall d => Some d | _ => None end) evs.

(** A computation that, from any machine, ends without exhausting its
    fuel, makes at most [r] requests and at most [s] recursive calls, and
    gives these the depths [d+1], [d+2], ... in this order. *)
Definition within {World A} (r s d : nat) (c : M World A) : Prop :=
  ∀ m, ∃ evs,
    trace (c m).1 = trace m ++ evs
    ∧ (requests evs ≤ r)%nat
    ∧ (length (self_calls evs) ≤ s)%nat
    ∧ self_calls evs = seq (S d) (length (self_calls evs))
    ∧ (c m).2 ≠ OutOfFuel.

(** [c'] does what [c] does wherever [c] does not run out of fuel. *)
Definition extends {World A} (c c' : M World A) : Prop :=
  ∀ m, (c m).2 ≠ OutOfFuel → c' m = c m.

(** *** A small world to run the loop in

    A model that asks for one more tool call at every round, and tools
    that always answer. *)
Module Scenario.

Definition read_file_call (w : nat) : ToolCall :=
  {| tc_id := "call_" +:+ pretty w; tc_type := "function";
     tc_name := "read_file"; tc_arguments := "{}" |}.

#[export] Instance eager_model
    : Collaborators nat unit string string unit unit := {|
  MAX_LLM_MESSAGES := 2;
  getMaxToolCallingDepth := λ _, 3%nat;
  AI_MODEL_CONFIG := λ modelName,
    if String.eqb modelName "openai/gpt-4o" then Some "openai"
    else if String.eqb modelName "google-ai-studio/gemini-2.5-pro"
         then Some "google-ai-studio"
         else None;
  td_name := λ t, t;
  JSON_parses := λ _, false;
  synthIdForIndex := AccumulatorSpec.synth_tally;
  optimizeTextContent := λ s, s;
  JSON_stringify := λ _, "{}";
  JSON_parse := λ _, None;
  parseFloat := parseFloat_decimal;
  show_number := show_rational;
  ToString := λ _, "[object Object]";
  markdown := "markdown";
  generateTemplateForSchema := λ _ _, "Reply in the requested format.";
  parseContentForSchema := λ _ _ _, None;
  safeParse := λ _ v, Some v;
  effectiveModelName := λ _ modelName, modelName;
  GOOGLE_AI_STUDIO_API_KEY := Some "key";
  buildPrompt := λ _ _ _, "prompt";
  resolveConfiguration := λ w _, (w, None);
  chat_completions_create := λ w _ _ _,
    (S w,
     inr (ChatCompletion
            (Some {| cm_content := Some "reading";
                     cm_tool_calls := Some [read_file_call w] |})));
  onAssistantMessage := λ w _, (w, None);
  executeToolCalls := λ w calls _,
    (w,
     inr ((λ tc, {| r_id := tc_id tc; r_name := tc_name tc;
                    r_result := Some (JString "contents") |}) <$> calls));
  fetch := λ w _ _,
    (S w, inr {| res_ok := false; res_status := 429;
                 res_text := "Too Many Requests";
                 res_header := λ _, None |});
  res_json := λ w _, (w, inr JNull);
  geminiCallId := λ w, (w, "gemini_" +:+ pretty w);
|}.

Definition text_message (r : MessageRole) (text : string) : Message :=
  {| role := r; content := ContentText text; tool_calls := None;
     name := None; tool_call_id := None |}.

(** A free-text request with one tool on offer. *)
Definition request (conversation : list Message)
    : InferArgs unit string string unit unit :=
  {| a_messages := conversation;
     a_schema := None;
     a_schemaName := None;
     a_format := None;
     a_actionKey := tt;
     a_modelName := "openai/gpt-4o";
     a_stream := None;
     a_tools := Some ["read_file"];
     a_runtimeOverrides := None;
     a_onAssistantMessage := false;
     a_completionConfig := None |}.

Definition short_conversation : list Message :=
  [text_message user "What does the file say?"].

Definition long_conversation : list Message :=
  [text_message system "You are an agent.";
   text_message user "What does the file say?";
   text_message user "Please answer."].

(** A context that has used up the three rounds. *)
Definition exhausted : ToolCallContext :=
  {| messages := []; depth := 3; completionSignal := None;
     warningInjected := None |}.

Definition start : Machine nat := {| world := 0%nat; trace := [] |}.

End Scenario.
End Inference.

(** ** More vocabulary for the loop *)
Module InferenceSpec.
Import Accumulator Messages Json Context RateLimit Inference.

(** Every event a computation adds to the trace satisfies [P]. *)
Definition emits {World A} (P : Event → Prop) (c : M World A) : Prop :=
  ∀ m, ∃ evs, trace (c m).1 = trace m ++ evs ∧ Forall P evs.

(** The requests and the recursive calls a computation adds keep pace:
    at most [a] requests more than recursive calls, at most [b] recursive
    calls more than requests. *)
Definition paced {World A} (a b : nat) (c : M World A) : Prop :=
  ∀ m, ∃ evs,
    trace (c m).1 = trace m ++ evs
    ∧ (requests evs ≤ a + length (self_calls evs))%nat
    ∧ (length (self_calls evs) ≤ b + requests evs)%nat.

(** The texts handed to [stream.onChunk], in order. *)
Definition chunks (evs : list Event) : list string :=
  omap (λ ev, match ev with ChunkSent text => Some text | _ => None end) evs.

(** The text of the content deltas of a stream, in arrival order. *)
Definition contentDeltas (events : list ChatCompletionChunk) : list string :=
  (λ event, default "" (chunk_delta event ≫= delta_content)) <$> events.

Section Prompt.
Context {World Schema SchemaFormat ToolDefinition ActionKey Overrides : Type}.
Context `{!Collaborators World Schema SchemaFormat ToolDefinition ActionKey
            Overrides}.

(** The prompt [inferGeminiNative] builds: of the conversation, the format
    instructions and whether tools are on offer. *)
Definition nativePrompt
    (args : InferArgs Schema SchemaFormat ToolDefinition ActionKey Overrides)
    : string :=
  buildPrompt (a_messages args)
    (match a_schema args with
     | Some schema =>
         if truthy (a_schemaName args)
         then generateTemplateForSchema schema
                (default markdown (a_format args))
         else ""
     | None => ""
     end)
    (bool_decide (is_Some (a_tools args))).
End Prompt.

(** *** More of the small world *)

Import Scenario.

(** The same world without a key for the native endpoint. *)
Definition keyless_model : Collaborators nat unit string string unit unit := {|
  MAX_LLM_MESSAGES := MAX_LLM_MESSAGES;
  getMaxToolCallingDepth := getMaxToolCallingDepth;
  AI_MODEL_CONFIG := AI_MODEL_CONFIG;
  td_name := td_name;
  JSON_parses := JSON_parses;
  synthIdForIndex := synthIdForIndex;
  optimizeTextContent := optimizeTextContent;
  JSON_stringify := JSON_stringify;
  JSON_parse := JSON_parse;
  parseFloat := parseFloat;
  show_number := show_number;
  ToString := ToString;
  markdown := markdown;
  generateTemplateForSchema := generateTemplateForSchema;
  parseContentForSchema := parseContentForSchema;
  safeParse := safeParse;
  effectiveModelName := effectiveModelName;
  GOOGLE_AI_STUDIO_API_KEY := None;
  buildPrompt := buildPrompt;
  resolveConfiguration := resolveConfiguration;
  chat_completions_create := chat_completions_create;
  onAssistantMessage := onAssistantMessage;
  executeToolCalls := executeToolCalls;
  fetch := fetch;
  res_json := res_json;
  geminiCallId := geminiCallId;
|}.

(** A native endpoint that answers every prompt by asking for the file
    again. *)
Definition native_answer : JSON :=
  JObject
    [("candidates",
      JArray
        [JObject
           [("content",
             JObject
               [("parts", JArray [JObject [("text", JString "action")]])])]])].

Definition native_action : JSON :=
  JObject
    [("thought", JString "read it");
     ("action", JObject [("tool", JString "read_file")])].

Definition message_text (msg : Message) : string :=
  match content msg with ContentText text => text | _ => "" end.

Definition eager_native_model
    : Collaborators nat unit string string unit unit := {|
  MAX_LLM_MESSAGES := MAX_LLM_MESSAGES;
  getMaxToolCallingDepth := getMaxToolCallingDepth;
  AI_MODEL_CONFIG := AI_MODEL_CONFIG;
  td_name := td_name;
  JSON_parses := JSON_parses;
  synthIdForIndex := synthIdForIndex;
  optimizeTextContent := optimizeTextContent;
  JSON_stringify := JSON_stringify;
  JSON_parse := λ _, Some native_action;
  parseFloat := parseFloat;
  show_number := show_number;
  ToString := ToString;
  markdown := markdown;
  generateTemplateForSchema := generateTemplateForSchema;
  parseContentForSchema := parseContentForSchema;
  safeParse := safeParse;
  effectiveModelName := effectiveModelName;
  GOOGLE_AI_STUDIO_API_KEY := GOOGLE_AI_STUDIO_API_KEY;
  buildPrompt := λ conversation _ _,
    AccumulatorSpec.concat_strings (message_text <$> conversation);
  resolveConfiguration := resolveConfiguration;
  chat_completions_create := chat_completions_create;
  onAssistantMessage := onAssistantMessage;
  executeToolCalls := executeToolCalls;
  fetch := λ w _ _,
    (S w, inr {| res_ok := true; res_status := 200; res_text := "";
                 res_header := λ _, None |});
  res_json := λ w _, (w, inr native_answer);
  geminiCallId := geminiCallId;
|}.

(** A request for the model of the native path. *)
Definition native_request (conversation : list Message)
    : InferArgs unit string string unit unit :=
  {| a_messages := conversation;
     a_schema := None;
     a_schemaName := None;
     a_format := None;
     a_actionKey := tt;
     a_modelName := "google-ai-studio/gemini-2.5-pro";
     a_stream := None;
     a_tools := Some ["read_file"];
     a_runtimeOverrides := None;
     a_onAssistantMessage := false;
     a_completionConfig := None |}.

(** A request without tools, and one for a model that is not configured. *)
Definition plain_request (conversation : list Message)
    : InferArgs unit string string unit unit :=
  {| a_messages := conversation;
     a_schema := None;
     a_schemaName := None;
     a_format := None;
     a_actionKey := tt;
     a_modelName := "openai/gpt-4o";
     a_stream := None;
     a_tools := None;
     a_runtimeOverrides := None;
     a_onAssistantMessage := false;
     a_completionConfig := None |}.

Definition unknown_request (conversation : list Message)
    : InferArgs unit string string unit unit :=
  {| a_messages := conversation;
     a_schema := None;
     a_schemaName := None;
     a_format := None;
     a_actionKey := tt;
     a_modelName := "acme/model-x";
     a_stream := None;
     a_tools := None;
     a_runtimeOverrides := None;
     a_onAssistantMessage := false;
     a_completionConfig := None |}.

End InferenceSpec.

(** *** More vocabulary for the accumulator *)
Module AccumulatorMore.
Import Accumulator.

(** A string a fragment gives: present and not empty. *)
Definition given (s : option string) : option string :=
  if truthy s then s else None.

(** The ids and the function names the fragments give, in arrival
    order. *)
Definition givenIds (ds : list ToolCallDelta) : list string :=
  omap (λ d, given (d_id d)) ds.
Definition givenNames (ds : list ToolCallDelta) : list string :=
  omap (λ d, given (d_function d ≫= df_name)) ds.

(** A stream whose every fragment carries the index [i]. *)
Definition indexed_at (i : Z) (ds : list ToolCallDelta) : Prop :=
  Forall (λ d, d_index d = Some i) ds.

(** The accumulator holds the one entry [e], filed under the index [i]
    and under its own id. *)
Definition holds_index (i : Z) (st : State) (e : ToolAccumulatorEntry)
    : Prop :=
  store st = [e] ∧ byIndex st = [(i, 0%nat)] ∧ byId st = [(id e, 0%nat)]
  ∧ index e = Some i.

End AccumulatorMore.

(** ** API keys and the configuration of a model *)
Module ApiKeys.
Import RateLimit.

(** [s.trim()] *)
Fixpoint trim_start (s : string) : string :=
  match s with
  | EmptyString => EmptyString
  | String c s' => if is_white_space c then trim_start s' else s
  end.

Fixpoint trim_end (s : string) : string :=
  match s with
  | EmptyString => EmptyString
  | String c s' =>
      match trim_end s' with
      | EmptyString =>
          if is_white_space c then EmptyString else String c EmptyString
      | t => String c t
      end
  end.

Definition trim (s : string) : string := trim_end (trim_start s).

(** [toLowerCase] on the code units 0 to 255: the letters A to Z and the
    Latin-1 capitals (192 to 222 without the multiplication sign, 215)
    move up by 32. *)
Definition lower_char (c : ascii) : ascii :=
  let n := nat_of_ascii c in
  if ((65 <=? n)%nat && (n <=? 90)%nat)
     || ((192 <=? n)%nat && (n <=? 222)%nat && negb (n =? 215)%nat)
  then ascii_of_nat (n + 32) else c.

Fixpoint map_chars (f : ascii → ascii) (s : string) : string :=
  match s with
  | EmptyString => EmptyString
  | String c s' => String (f c) (map_chars f s')
  end.

Definition toLowerCase : string → string := map_chars lower_char.

(** [toUpperCase] of one code unit: the letters a to z and the Latin-1
    small letters (224 to 254 without the division sign, 247) move down
    by 32, and the sharp s (223) becomes SS. The capitals of the micro
    sign (181) and of y with diaeresis (255) are code units above 255:
    there is no result within the model. *)
Definition upper_unit (c : ascii) : option string :=
  let n := nat_of_ascii c in
  if ((97 <=? n)%nat && (n <=? 122)%nat)
     || ((224 <=? n)%nat && (n <=? 254)%nat && negb (n =? 247)%nat)
  then Some (String (ascii_of_nat (n - 32)) EmptyString)
  else if (n =? 223)%nat then Some "SS"
  else if (n =? 181)%nat || (n =? 255)%nat then None
  else Some (String c EmptyString).

Fixpoint toUpperCase (s : string) : option string :=
  match s with
  | EmptyString => Some EmptyString
  | String c s' =>
      match upper_unit c, toUpperCase s' with
      | Some u, Some t => Some (u +:+ t)
      | _, _ => None
      end
  end.

(** [isValidApiKey]; the argument is [undefined] where the environment
    has no such variable. *)
Definition isValidApiKey (apiKey : option string) : bool :=
  match apiKey with
  | None => false
  | Some k =>
      if String.eqb k "" || String.eqb (trim k) "" then false
      else if String.eqb (toLowerCase (trim k)) "default"
              || String.eqb (toLowerCase (trim k)) "none"
              || (String.length (trim k) <? 10)%nat
           then false
           else true
  end.

Record GatewayOverride := { baseUrl : string; token : string }.

(** [userApiKeys] is a plain object with string values: its own
    properties in the order they were made, and behind them the members
    every object inherits from [Object.prototype]. *)
Definition KeyObject : Type := list (string * string).

Definition Object_prototype : list string :=
  [ "constructor"; "__defineGetter__"; "__defineSetter__";
    "hasOwnProperty"; "__lookupGetter__"; "__lookupSetter__";
    "isPrototypeOf"; "propertyIsEnumerable"; "toString"; "valueOf";
    "__proto__"; "toLocaleString" ].

(** What [object[key]] gives: the string of an own property, or an
    inherited member, which is a function or ([__proto__]) the prototype
    object, or [undefined]. *)
Inductive Member :=
| OwnString (s : string)
| Inherited.

Definition object_get (object : KeyObject) (key : string) : option Member :=
  match JsMap.get object key with
  | Some s => Some (OwnString s)
  | None =>
      if bool_decide (key ∈ Object_prototype) then Some Inherited else None
  end.

(** [InferenceRuntimeOverrides], as far as it is read here. *)
Record RuntimeOverrides := {
  userApiKeys : option KeyObject;
  aiGatewayOverride : option GatewayOverride;
}.

(** [AIModelConfig], as far as it is read here. *)
Record AIModelConfig := {
  provider : string;
  directOverride : bool;
}.

Record Configuration := {
  baseURL : string;
  apiKey : option string;
  defaultHeaders : option (list (string * string));
}.

Section Env.
(** The string variables of the environment, by name. *)
Variable env : string → option string.
(** [buildGatewayUrl(env, providerOverride, gatewayOverride)]: it parses
    URLs and asks the gateway binding, and may throw. *)
Variable buildGatewayUrl :
  option string → option GatewayOverride → Thrown + string.

(** [runtimeOverrides?.aiGatewayOverride?.token ??
     env.CLOUDFLARE_AI_GATEWAY_TOKEN] *)
Definition gatewayToken (runtimeOverrides : option RuntimeOverrides)
    : option string :=
  match runtimeOverrides ≫= aiGatewayOverride with
  | Some override => Some (token override)
  | None => env "CLOUDFLARE_AI_GATEWAY_TOKEN"
  end.

(** The name of the variable that holds the key of a provider; there is
    none within the model where the capitals leave it. *)
Definition envKey (provider : string) : option string :=
  if String.eqb provider "grok" then Some "GROQ_API_KEY"
  else if String.eqb provider "deepseek" then Some "DEEPSEEK_API_KEY"
  else
    match toUpperCase provider with
    | Some providerKeyString =>
        Some (map_chars (λ c, if Ascii.eqb c "-" then "_"%char else c)
                providerKeyString
              +:+ "_API_KEY")
    | None => None
    end.

(** [env[envKey]]: the variables of the environment have names within
    the model, so a name outside it finds nothing. *)
Definition envValue (provider : string) : option string :=
  match envKey provider with
  | Some key => env key
  | None => None
  end.

Definition deepseekKeyRequired : Thrown :=
  Error "DEEPSEEK_API_KEY is required and must be a valid DeepSeek API key. DeepSeek does not support Cloudflare AI Gateway tokens.".

(** [runtimeKey && isValidApiKey(runtimeKey)]. An inherited member is
    truthy and no string: [isValidApiKey] calls its [trim], which is not
    there, and a [TypeError] is thrown. *)
Definition runtimeKeyIsValid (runtimeKey : option Member) : Thrown + bool :=
  match runtimeKey with
  | None => inr false
  | Some (OwnString key) =>
      inr (truthy (Some key) && isValidApiKey (Some key))
  | Some Inherited => inl TypeError
  end.

(** [getApiKey] *)
Definition getApiKey (provider : string)
    (runtimeOverrides : option RuntimeOverrides) : Thrown + option string :=
  let runtimeKey : option Member :=
    match runtimeOverrides ≫= userApiKeys with
    | Some keys => object_get keys provider
    | None => None
    end in
  match runtimeKeyIsValid runtimeKey, runtimeKey with
  | inl e, _ => inl e
  | inr true, Some (OwnString key) => inr (Some key)
  | inr _, _ =>
      let apiKey := envValue provider in
      (* Check if apiKey is empty or undefined and is valid *)
      if negb (isValidApiKey apiKey) then
        if String.eqb provider "deepseek" then inl deepseekKeyRequired
        else inr (gatewayToken runtimeOverrides)
      else inr apiKey
  end.

(** [getConfigurationForModel] *)
Definition getConfigurationForModel (modelConfig : AIModelConfig)
    (runtimeOverrides : option RuntimeOverrides) : Thrown + Configuration :=
  let direct (url : string) (key : string) : Thrown + Configuration :=
    inr {| baseURL := url; apiKey := env key; defaultHeaders := None |} in
  let viaGateway (providerForcedOverride : option string)
      : Thrown + Configuration :=
    let gatewayOverride := runtimeOverrides ≫= aiGatewayOverride in
    match buildGatewayUrl providerForcedOverride gatewayOverride with
    | inl e => inl e
    | inr url =>
        let gatewayToken := gatewayToken runtimeOverrides in
        match getApiKey (provider modelConfig) runtimeOverrides with
        | inl e => inl e
        | inr key =>
            inr {| baseURL := url; apiKey := key;
                   defaultHeaders :=
                     if truthy gatewayToken
                        && negb (bool_decide (key = gatewayToken))
                     then Some [("cf-aig-authorization",
                                 "Bearer " +:+ default "" gatewayToken)]
                     else None |}
        end
    end in
  if directOverride modelConfig then
    if String.eqb (provider modelConfig) "openrouter"
    then direct "https://openrouter.ai/api/v1" "OPENROUTER_API_KEY"
    else if String.eqb (provider modelConfig) "anthropic"
    then direct "https://api.anthropic.com/v1/" "ANTHROPIC_API_KEY"
    else if String.eqb (provider modelConfig) "grok"
    then direct "https://api.x.ai/v1" "GROQ_API_KEY"
    else if String.eqb (provider modelConfig) "openai"
    then direct "https://api.openai.com/v1" "OPENAI_API_KEY"
    else if String.eqb (provider modelConfig) "deepseek"
    then
      let deepseekKey := env "DEEPSEEK_API_KEY" in
      if negb (truthy deepseekKey) || negb (isValidApiKey deepseekKey)
      then inl (Error "DEEPSEEK_API_KEY is required and must be a valid DeepSeek API key. DeepSeek does not support Cloudflare AI Gateway.")
      else inr {| baseURL := "https://api.deepseek.com/v1";
                  apiKey := deepseekKey; defaultHeaders := None |}
    else viaGateway (Some (provider modelConfig))
  else viaGateway None.
End Env.

(** *** An environment to run the resolution in *)

Definition demo_env (name : string) : option string :=
  if String.eqb name "OPENAI_API_KEY" then Some "sk-openai-0123456789"
  else if String.eqb name "DEEPSEEK_API_KEY" then Some "default"
  else if String.eqb name "CLOUDFLARE_AI_GATEWAY_TOKEN"
       then Some "gateway-token-xyz"
       else None.

Definition demo_gateway (providerOverride : option string)
    (override : option GatewayOverride) : Thrown + string :=
  inr ("https://gateway.example/v1/" +:+ default "compat" providerOverride).

End ApiKeys.

(** *** Orphaned tool messages

    What an orphaned tool message is, said of a message and the sequence
    it stands in, without the tests of the filter's callback. *)
Module SanitizerSpec.
Import Accumulator Messages Json Context RateLimit Inference.

(** An assistant message that carries a [tool_calls] set. *)
Definition offers_tool_calls (m : Message) : bool :=
  bool_decide (role m = assistant) && bool_decide (is_Some (tool_calls m)).

(** The ids of the most recent assistant [tool_calls] set among the
    messages [before], found from the end; none when no assistant message
    before carries tool calls. *)
Definition recent_tool_call_ids (before : list Message) : list string :=
  match List.find offers_tool_calls (reverse before) with
  | Some m => tc_id <$> default [] (tool_calls m)
  | None => []
  end.

(** A tool message is an orphan after the messages [before] when its name
    is missing or empty, or when its [tool_call_id] is missing or is none
    of the ids of the most recent assistant [tool_calls] set before it. *)
Definition orphan (before : list Message) (m : Message) : Prop :=
  role m = tool
  ∧ (name m = None ∨ name m = Some ""
     ∨ ∀ i, tool_call_id m = Some i → i ∉ recent_tool_call_ids before).

(** The lists of messages sent to the chat-completion endpoint, in the
    order of the requests. *)
Definition sent_upstream (evs : list Event) : list (list Message) :=
  omap (λ ev, match ev with
              | NetworkRequest _ sent => Some sent
              | _ => None
              end) evs.

Import Scenario.

(** A request for an object in a custom format, with one tool on
    offer. *)
Definition structured_request (conversation : list Message)
    : InferArgs unit string string unit unit :=
  {| a_messages := conversation;
     a_schema := Some tt;
     a_schemaName := Some "Answer";
     a_format := Some "markdown";
     a_actionKey := tt;
     a_modelName := "openai/gpt-4o";
     a_stream := None;
     a_tools := Some ["read_file"];
     a_runtimeOverrides := None;
     a_onAssistantMessage := false;
     a_completionConfig := None |}.

(** A text with the format instructions of the small world after it. *)
Definition instructed (text : string) : string :=
  text +:+ String "010" (String "010" "Reply in the requested format.").

End SanitizerSpec.

(** * Properties *)

(** ** Strings *)
Lemma append_cons (c : ascii) (s t : string) :
  String c s +:+ t = String c (s +:+ t).
Proof. reflexivity. Qed.

Lemma append_nil_r (s : string) : s +:+ "" = s.
Proof.
  induction s as [|c s IH]; [done|]. by rewrite append_cons, IH.
Qed.

Lemma append_assoc (a b c : string) : (a +:+ b) +:+ c = a +:+ (b +:+ c).
Proof.
  induction a as [|x a IH]; [done|]. by rewrite !append_cons, IH.
Qed.

Lemma truthy_Some (s : string) : s ≠ "" → truthy (Some s) = true.
Proof.
  intros Hs. unfold truthy. destruct (String.eqb_spec s ""); [done|done].
Qed.

Lemma truthy_inv (o : option string) :
  truthy o = true → ∃ s, o = Some s ∧ s ≠ "".
Proof.
  destruct o as [s|]; [|done]. unfold truthy.
  destruct (String.eqb_spec s ""); [done|]. by exists s.
Qed.

(** ** The stable sort *)
Section JsSortFacts.
Context {A : Type} (cmp : A → A → Z).

Lemma sort_insert_perm x l : sort_insert cmp x l ≡ₚ x :: l.
Proof.
  induction l as [|y l IH]; simpl; [done|].
  destruct (cmp x y <=? 0)%Z; [done|]. rewrite IH. apply Permutation_swap.
Qed.

Lemma js_sort_perm l : js_sort cmp l ≡ₚ l.
Proof.
  induction l as [|x l IH]; simpl; [done|].
  by rewrite sort_insert_perm, IH.
Qed.

Context (R : relation A) `{!Transitive R} (P : A → Prop).
Hypothesis cmp_le : ∀ a b, P a → P b → (cmp a b <=? 0)%Z = true → R a b.
Hypothesis cmp_gt : ∀ a b, P a → P b → (cmp a b <=? 0)%Z = false → R b a.

Lemma sort_insert_sorted x l :
  P x → Forall P l → StronglySorted R l →
  StronglySorted R (sort_insert cmp x l).
Proof.
  intros Hx Hl Hs. induction l as [|y l IH]; simpl.
  - repeat constructor.
  - apply Forall_cons in Hl as [Hy Hl].
    apply StronglySorted_cons in Hs as [Hyl Hs].
    destruct (cmp x y <=? 0)%Z eqn:Hc.
    + apply StronglySorted_cons. split; [|by apply StronglySorted_cons].
      constructor; [by apply cmp_le|].
      eapply Forall_impl; [exact Hyl|]. intros z Hz.
      etrans; [by apply cmp_le|done].
    + apply StronglySorted_cons. split; [|by apply IH].
      rewrite sort_insert_perm. constructor; [by apply cmp_gt|done].
Qed.

Lemma js_sort_sorted l : Forall P l → StronglySorted R (js_sort cmp l).
Proof.
  induction l as [|x l IH]; intros Hl; simpl; [constructor|].
  apply Forall_cons in Hl as [Hx Hl].
  apply sort_insert_sorted; [done| |by apply IH].
  by rewrite js_sort_perm.
Qed.
End JsSortFacts.

(** ** The insertion-ordered map *)
Section JsMapFacts.
Context {K V : Type} `{EqDecision K}.
Implicit Types (m : JsMap.t K V) (k : K) (v : V).

Lemma get_None_keys m k : JsMap.get m k = None ↔ k ∉ JsMap.keys m.
Proof.
  unfold JsMap.keys. induction m as [|[k' v'] m IH]; simpl.
  - split; [intros _; apply not_elem_of_nil|done].
  - rewrite not_elem_of_cons. destruct (decide (k' = k)) as [->|Hne].
    + split; [done|]. by intros [? _].
    + rewrite IH. split; [done|by intros [_ ?]].
Qed.

Lemma get_Some_elem m k v : JsMap.get m k = Some v → (k, v) ∈ m.
Proof.
  induction m as [|[k' v'] m IH]; simpl; [done|].
  destruct (decide (k' = k)) as [->|].
  - intros [= ->]. left.
  - intros. right. by apply IH.
Qed.

Lemma set_fresh m k v : JsMap.get m k = None → JsMap.set m k v = m ++ [(k, v)].
Proof.
  induction m as [|[k' v'] m IH]; simpl; [done|].
  destruct (decide (k' = k)); [done|]. intros. by rewrite IH.
Qed.
End JsMapFacts.

(** ** Accumulator: a stream with one stable id *)
Module AccumulatorProofs.
Import Accumulator AccumulatorSpec.

Section SingleId.
Variable JSON_parses : string → bool.
Variable synthIdForIndex : nat → Z → string.

Local Abbreviation accumulate :=
  (accumulateToolCallDelta JSON_parses synthIdForIndex).
Local Abbreviation accumulateAll' :=
  (accumulateAll JSON_parses synthIdForIndex).
Local Abbreviation complete := (isComplete JSON_parses).

Lemma update_entry_arguments st r d e :
  ∃ e', update_entry JSON_parses st r d e =
          {| store := <[r := e']> (store st);
             byIndex := match d_index d, index e with
                        | Some i, None => JsMap.set (byIndex st) i r
                        | _, _ => byIndex st
                        end;
             byId := if truthy (d_id d)
                        && negb (String.eqb (id e) (default "" (d_id d)))
                     then JsMap.set (JsMap.delete (byId st) (id e))
                            (default "" (d_id d)) r
                     else byId st;
             orderCounterRef := orderCounterRef st |}
        ∧ fn_arguments e' = appendChunk complete (fn_arguments e) (chunk_of d)
        ∧ id e' = (if truthy (d_id d)
                      && negb (String.eqb (id e) (default "" (d_id d)))
                   then default "" (d_id d) else id e)
        ∧ index e' = match d_index d, index e with
                     | Some i, None => Some i
                     | _, _ => index e
                     end
        ∧ __order e' = __order e.
Proof.
  unfold update_entry, chunk_of.
  destruct (truthy (d_id d) && _) eqn:Hk;
    destruct (d_index d) as [i|], (index e) as [j|] eqn:Hi;
    destruct (d_function d) as [[n [c|]]|]; simpl; rewrite ?Hi;
    try destruct (truthy n); try destruct (complete _) eqn:Hc;
    eexists; (split; [reflexivity|]); simpl; rewrite ?Hc, ?Hi; done.
Qed.

Lemma first_fragment sid d :
  sid ≠ "" → d_id d = Some sid →
  ∃ e, holds_one sid (accumulate initial d) e
       ∧ fn_arguments e = appendChunk complete "" (chunk_of d)
       ∧ __order e = 0%nat.
Proof.
  intros Hsid Hd.
  unfold accumulateToolCallDelta, lookup_or_create. rewrite Hd.
  rewrite (truthy_Some _ Hsid). simpl.
  assert (JsMap.get (K:=Z) (V:=ref) JsMap.empty = λ _, None) as Hg by done.
  replace (match d_index d with
           | Some i => JsMap.get (byIndex initial) i
           | None => None
           end) with (@None ref) by (by destruct (d_index d)).
  simpl.
  match goal with
  | |- context [update_entry _ ?st ?r ?d ?e] =>
      destruct (update_entry_arguments st r d e)
        as (e' & -> & Ha & Hi & Hx & Ho)
  end.
  exists e'. simpl in *. rewrite Hd in Hi |- *. simpl in Hi |- *.
  rewrite (truthy_Some _ Hsid), String.eqb_refl in Hi |- *. simpl in *.
  split; [|done].
  unfold holds_one; simpl. repeat split; [done|].
  destruct (d_index d) as [i|]; simpl in *; [right; exists i|left]; done.
Qed.

Lemma next_fragment sid st e d :
  sid ≠ "" → d_id d = Some sid → holds_one sid st e →
  ∃ e', holds_one sid (accumulate st d) e'
        ∧ fn_arguments e' = appendChunk complete (fn_arguments e) (chunk_of d)
        ∧ __order e' = __order e.
Proof.
  intros Hsid Hd (Hst & Hid & He & Hix).
  unfold accumulateToolCallDelta, lookup_or_create. rewrite Hd.
  rewrite (truthy_Some _ Hsid), Hid. simpl.
  destruct (decide (sid = sid)); [|done]. rewrite Hst. simpl.
  destruct (update_entry_arguments st 0%nat d e)
    as (e' & -> & Ha & Hi & Hx & Ho).
  exists e'. rewrite Hd in Hi |- *. simpl in Hi |- *.
  rewrite (truthy_Some _ Hsid), He, String.eqb_refl in Hi |- *.
  simpl in *. split; [|done].
  unfold holds_one; simpl. rewrite Hst, Hid. repeat split; [by rewrite Hi|].
  destruct Hix as [[Hb Hn]|(i & Hb & Hn)]; rewrite Hn in Hx |- *; rewrite Hb.
  - destruct (d_index d) as [j|]; [right; exists j|left]; done.
  - right; exists i. by destruct (d_index d).
Qed.

Lemma all_fragments sid ds : ∀ st e,
  sid ≠ "" → carries_id sid ds → holds_one sid st e →
  ∃ e', holds_one sid (accumulateAll' st ds) e'
        ∧ fn_arguments e'
          = foldl (appendChunk complete) (fn_arguments e) (chunk_of <$> ds)
        ∧ __order e' = __order e.
Proof.
  induction ds as [|d ds IH]; intros st e Hsid Hall Hone; simpl.
  - by exists e.
  - apply Forall_cons in Hall as [Hd Hall].
    destruct (next_fragment sid st e d Hsid Hd Hone) as (e1 & H1 & Ha1 & Ho1).
    destruct (IH _ e1 Hsid Hall H1) as (e2 & H2 & Ha2 & Ho2).
    exists e2. rewrite Ha2, Ha1, Ho2, Ho1. done.
Qed.

(** Once the text is complete no chunk changes it. *)
Lemma appendChunk_complete (f : string → bool) acc cs :
  f acc = true → foldl (appendChunk f) acc cs = acc.
Proof.
  intros Hc. induction cs as [|[c|] cs IH]; simpl; [done| |done].
  by rewrite Hc.
Qed.

Lemma argumentDeltas_cons d ds :
  argumentDeltas (d :: ds)
  = match chunk_of d with
    | Some c => c :: argumentDeltas ds
    | None => argumentDeltas ds
    end.
Proof. reflexivity. Qed.

(** The fold of the arguments branch keeps a prefix of the chunks: the
    shortest one after which the text is complete, or all of them. *)
Lemma appendChunk_prefix (f : string → bool) ds : ∀ acc,
  ∃ k, (k ≤ length (argumentDeltas ds))%nat
    ∧ foldl (appendChunk f) acc (chunk_of <$> ds)
      = acc +:+ concat_strings (take k (argumentDeltas ds))
    ∧ (∀ j, (j < k)%nat →
         f (acc +:+ concat_strings (take j (argumentDeltas ds))) = false)
    ∧ ((k < length (argumentDeltas ds))%nat →
         f (acc +:+ concat_strings (take k (argumentDeltas ds))) = true).
Proof.
  induction ds as [|d ds IH]; intros acc.
  - exists 0%nat. simpl. rewrite append_nil_r. repeat split; [done|lia|lia].
  - rewrite argumentDeltas_cons, fmap_cons.
    destruct (chunk_of d) as [c|]; [|apply IH].
    change (foldl (appendChunk f) acc (Some c :: (chunk_of <$> ds)))
      with (foldl (appendChunk f) (appendChunk f acc (Some c))
              (chunk_of <$> ds)).
    unfold appendChunk at 2. destruct (f acc) eqn:Hf.
    + exists 0%nat. rewrite appendChunk_complete by done.
      simpl. rewrite append_nil_r. repeat split; [lia|lia|done].
    + destruct (IH (acc +:+ c)) as (k & Hk & Heq & Hlt & Hge).
      set (l := argumentDeltas ds) in *.
      exists (S k). rewrite Heq, !firstn_cons.
      change (concat_strings (c :: take k l))
        with (c +:+ concat_strings (take k l)).
      rewrite <- append_assoc.
      repeat split; [simpl; lia| |simpl; intros; apply Hge; lia].
      intros [|j] Hj.
      * simpl. by rewrite append_nil_r.
      * rewrite firstn_cons.
        change (concat_strings (c :: take j l))
          with (c +:+ concat_strings (take j l)).
        rewrite <- append_assoc. apply Hlt. lia.
Qed.

Lemma isComplete_parses s :
  JSON_parses "" = false → complete s = JSON_parses s.
Proof.
  intros H0. unfold isComplete. destruct s; simpl; [by rewrite H0|done].
Qed.

Lemma assemble_one sid st e :
  holds_one sid st e → assembleToolCalls st = [toToolCall e].
Proof.
  intros (Hst & Hid & He & [[Hb Hn]|(i & Hb & Hn)]);
    unfold assembleToolCalls, deref; rewrite Hb, Hid, Hst; done.
Qed.

(** C1. A stream whose fragments all carry one stable id accumulates into
    exactly one entry for that id; the one tool call assembled from it has
    as arguments the in-order concatenation of the argument deltas up to
    and including the first delta after which the text parses as JSON
    ([k] deltas), and every later delta is discarded. *)
Theorem accumulator_one_stable_id (sid : string) (ds : list ToolCallDelta) :
  JSON_parses "" = false → sid ≠ "" → ds ≠ [] → carries_id sid ds →
  ∃ e k,
    store (accumulateAll' initial ds) = [e]
    ∧ JsMap.keys (byId (accumulateAll' initial ds)) = [sid]
    ∧ assembleToolCalls (accumulateAll' initial ds)
      = [ {| tc_id := sid; tc_type := "function"; tc_name := fn_name e;
             tc_arguments := fn_arguments e |} ]
    ∧ (k ≤ length (argumentDeltas ds))%nat
    ∧ fn_arguments e = concat_strings (take k (argumentDeltas ds))
    ∧ (∀ j, (j < k)%nat →
         JSON_parses (concat_strings (take j (argumentDeltas ds))) = false)
    ∧ ((k < length (argumentDeltas ds))%nat →
         JSON_parses (concat_strings (take k (argumentDeltas ds))) = true).
Proof.
  intros H0 Hsid Hne Hall. destruct ds as [|d ds]; [done|].
  apply Forall_cons in Hall as [Hd Hall]. simpl.
  destruct (first_fragment sid d Hsid Hd) as (e1 & H1 & Ha1 & _).
  destruct (all_fragments sid ds _ e1 Hsid Hall H1) as (e & He & Ha & _).
  destruct (appendChunk_prefix complete (d :: ds) "")
    as (k & Hk & Heq & Hlt & Hge).
  assert (fn_arguments e
          = foldl (appendChunk complete) "" (chunk_of <$> d :: ds)) as Hfold
    by (rewrite Ha, Ha1; reflexivity).
  rewrite Heq in Hfold. clear Heq.
  exists e, k. pose proof He as (Hst & Hid & Hi & _).
  repeat split; try done.
  - by rewrite Hid.
  - rewrite (assemble_one sid _ e He). unfold toToolCall. by rewrite Hi.
  - intros j Hj. rewrite <- isComplete_parses by done. by apply Hlt.
  - intros Hj. rewrite <- isComplete_parses by done. by apply Hge.
Qed.

End SingleId.

(** The stream of the scenario, every fragment carrying the id: the
    arguments arrive in two chunks and a third chunk trails the complete
    text. *)
Lemma accumulator_one_stable_id_witness :
  let ds := [ mkDelta (Some 0) (Some "abc") (Some "search")
                (Some ("{" +:+ dq +:+ "q" +:+ dq +:+ ":"));
              mkDelta (Some 0) (Some "abc") None
                (Some (dq +:+ "x" +:+ dq +:+ "}"));
              mkDelta None (Some "abc") None (Some " trailing") ] in
  ∃ e k,
    store (accumulateAll parses_braced synth_const initial ds) = [e]
    ∧ JsMap.keys (byId (accumulateAll parses_braced synth_const initial ds))
      = ["abc"]
    ∧ assembleToolCalls (accumulateAll parses_braced synth_const initial ds)
      = [ {| tc_id := "abc"; tc_type := "function"; tc_name := fn_name e;
             tc_arguments := fn_arguments e |} ]
    ∧ (k ≤ length (argumentDeltas ds))%nat
    ∧ fn_arguments e = concat_strings (take k (argumentDeltas ds))
    ∧ (∀ j, (j < k)%nat →
         parses_braced (concat_strings (take j (argumentDeltas ds))) = false)
    ∧ ((k < length (argumentDeltas ds))%nat →
         parses_braced (concat_strings (take k (argumentDeltas ds))) = true).
Proof.
  intros ds.
  apply (accumulator_one_stable_id parses_braced synth_const "abc" ds).
  - reflexivity.
  - discriminate.
  - discriminate.
  - repeat constructor.
Defined.

Example scenario_three_fragments :
  streamedToolCalls parses_braced synth_const
    [ mkDelta (Some 0) None (Some "search") None;
      mkDelta (Some 0) (Some "abc") None
        (Some ("{" +:+ dq +:+ "q" +:+ dq +:+ ":"));
      mkDelta (Some 0) (Some "abc") None
        (Some (dq +:+ "x" +:+ dq +:+ "}")) ]
  = [ {| tc_id := "abc"; tc_type := "function"; tc_name := "search";
         tc_arguments :=
           "{" +:+ dq +:+ "q" +:+ dq +:+ ":" +:+ dq +:+ "x" +:+ dq +:+ "}" |} ].
Proof. vm_compute. reflexivity. Qed.

End AccumulatorProofs.

(** ** Accumulator: the assembled list *)
Module AssembleProofs.
Import Accumulator AccumulatorSpec AccumulatorProofs.

Section Assemble.
Variable JSON_parses : string → bool.
Variable synthIdForIndex : nat → Z → string.

Local Abbreviation accumulate :=
  (accumulateToolCallDelta JSON_parses synthIdForIndex).
Local Abbreviation accumulateAll' :=
  (accumulateAll JSON_parses synthIdForIndex).
Local Abbreviation locate := (lookup_or_create synthIdForIndex).

(** *** Streams in which every fragment carries an index *)

Lemma locate_indexed st d i :
  d_index d = Some i → indexed_inv st → indexed_inv (locate st d).1.
Proof.
  intros Hi [Hall Hperm]. unfold lookup_or_create. rewrite Hi.
  destruct (if truthy (d_id d) then _ else _); [done|].
  destruct (JsMap.get (byIndex st) i) eqn:Hg; [done|].
  split; simpl.
  - apply Forall_app. split; [done|]. repeat constructor. by eexists.
  - rewrite set_fresh by done. unfold JsMap.values in *.
    rewrite fmap_app, length_app, seq_app, Hperm. done.
Qed.

Lemma update_indexed st r d e :
  indexed_inv st → store st !! r = Some e →
  indexed_inv (update_entry JSON_parses st r d e).
Proof.
  intros [Hall Hperm] Hr.
  destruct (update_entry_arguments JSON_parses st r d e)
    as (e' & -> & _ & _ & Hx & _).
  pose proof (Forall_lookup_1 _ _ _ _ Hall Hr) as [j Hj].
  rewrite Hj in Hx |- *.
  assert (index e' = Some j) as Hj' by (by destruct (d_index d)).
  split; simpl.
  - apply Forall_insert; [done|by eexists].
  - rewrite length_insert. by destruct (d_index d).
Qed.

Lemma accumulate_indexed st d :
  is_Some (d_index d) → indexed_inv st → indexed_inv (accumulate st d).
Proof.
  intros [i Hi] Hinv. unfold accumulateToolCallDelta.
  pose proof (locate_indexed st d i Hi Hinv) as H1.
  destruct (locate st d) as [st1 r]. simpl in H1.
  destruct (store st1 !! r) as [e|] eqn:Hr; [|done].
  by apply update_indexed.
Qed.

Lemma accumulateAll_indexed ds : ∀ st,
  all_indexed ds → indexed_inv st → indexed_inv (accumulateAll' st ds).
Proof.
  induction ds as [|d ds IH]; intros st Hall Hinv; simpl; [done|].
  apply Forall_cons in Hall as [Hd Hall].
  apply IH; [done|]. by apply accumulate_indexed.
Qed.

Lemma deref_all st : deref st (seq 0 (length (store st))) = store st.
Proof.
  unfold deref. generalize (store st) as l. intros l.
  induction l as [|x l IH] using rev_ind; [done|].
  rewrite length_app, seq_app, omap_app. simpl.
  rewrite lookup_app_r, Nat.sub_diag by lia. simpl. f_equal.
  rewrite <- IH at 2. apply list_omap_ext. 
  apply Forall_Forall2_diag, Forall_forall. intros i Hi.
  apply elem_of_seq in Hi. by rewrite lookup_app_l by lia.
Qed.

Lemma deref_empty st rs : store st = [] → deref st rs = [].
Proof.
  unfold deref. intros ->. induction rs as [|r rs IH]; [done|].
  by destruct r.
Qed.

Lemma deref_perm st rs :
  rs ≡ₚ seq 0 (length (store st)) → deref st rs ≡ₚ store st.
Proof.
  intros Hp. rewrite <- deref_all. unfold deref. by rewrite Hp.
Qed.

(** *** Streams in which no fragment carries an index *)

Lemma locate_unindexed ds st d :
  d_index d = None → d ∈ ds → synth_unique synthIdForIndex ds →
  unindexed_inv synthIdForIndex ds st →
  unindexed_inv synthIdForIndex ds (locate st d).1
  ∧ ∃ e, store (locate st d).1 !! (locate st d).2 = Some e
         ∧ (truthy (d_id d) = true → id e = default "" (d_id d)).
Proof.
  intros Hi Hd [Hinj Hprov] (Hbi & Hctr & Hval & Hown & Hkeys).
  unfold lookup_or_create. rewrite Hi.
  destruct (truthy (d_id d)) eqn:Ht.
  - destruct (JsMap.get (byId st) (default "" (d_id d))) as [r|] eqn:Hg.
    + simpl. split; [done|].
      destruct (Hown _ _ (get_Some_elem _ _ _ Hg)) as (e & He & Hid).
      by exists e.
    + simpl. rewrite set_fresh by done. split.
      * repeat split; simpl.
        -- done.
        -- rewrite length_app. simpl. lia.
        -- unfold JsMap.values in *.
           rewrite fmap_app, length_app, seq_app, Hval. done.
        -- intros k r [Hin|Hin]%elem_of_app.
           ++ destruct (Hown _ _ Hin) as (e & He & Hid).
              exists e. by rewrite lookup_app_l by by eapply lookup_lt_Some.
           ++ apply list_elem_of_singleton in Hin as [= -> ->].
              eexists. by rewrite lookup_app_r, Nat.sub_diag by lia.
        -- intros k. unfold JsMap.keys. rewrite fmap_app.
           intros [Hin|Hin]%elem_of_app.
           ++ destruct (Hkeys _ Hin) as [?|(n & i & Hn & ->)]; [by left|].
              right. exists n, i. split; [lia|done].
           ++ apply list_elem_of_singleton in Hin as ->. left. exists d.
              split; [done|].
              by destruct (truthy_inv _ Ht) as (s & -> & _).
      * eexists. by rewrite lookup_app_r, Nat.sub_diag by lia.
  - simpl.
    set (k0 := synthIdForIndex (orderCounterRef st) _).
    assert (JsMap.get (byId st) k0 = None) as Hg.
    { apply get_None_keys. intros Hin.
      destruct (Hkeys _ Hin) as [(d' & Hd' & Hid)|(n & i & Hn & Heq)].
      - by eapply Hprov.
      - apply Hinj in Heq. lia. }
    rewrite set_fresh by done. split; [|].
    + repeat split; simpl.
      * done.
      * rewrite length_app. simpl. lia.
      * unfold JsMap.values in *.
        rewrite fmap_app, length_app, seq_app, Hval. done.
      * intros k r [Hin|Hin]%elem_of_app.
        -- destruct (Hown _ _ Hin) as (e & He & Hid).
           exists e. by rewrite lookup_app_l by by eapply lookup_lt_Some.
        -- apply list_elem_of_singleton in Hin as [= -> ->].
           eexists. by rewrite lookup_app_r, Nat.sub_diag by lia.
      * intros k. unfold JsMap.keys. rewrite fmap_app.
        intros [Hin|Hin]%elem_of_app.
        -- destruct (Hkeys _ Hin) as [?|(n & i & Hn & ->)]; [by left|].
           right. exists n, i. split; [lia|done].
        -- apply list_elem_of_singleton in Hin as ->. right.
           eexists _, _. split; [|done]. lia.
    + eexists. split; [|done]. by rewrite lookup_app_r, Nat.sub_diag by lia.
Qed.

Lemma update_unindexed ds st r d e :
  d_index d = None → store st !! r = Some e →
  (truthy (d_id d) = true → id e = default "" (d_id d)) →
  unindexed_inv synthIdForIndex ds st →
  unindexed_inv synthIdForIndex ds (update_entry JSON_parses st r d e).
Proof.
  intros Hi Hr Hid (Hbi & Hctr & Hval & Hown & Hkeys).
  destruct (update_entry_arguments JSON_parses st r d e)
    as (e' & -> & _ & Hid' & _ & _).
  assert (truthy (d_id d)
          && negb (String.eqb (id e) (default "" (d_id d))) = false) as Hk.
  { destruct (truthy (d_id d)); [|done].
    rewrite Hid by done. by rewrite String.eqb_refl. }
  rewrite Hk in Hid' |- *. rewrite Hi.
  repeat split; simpl; rewrite ?length_insert; try done.
  intros k r' Hin. destruct (Hown _ _ Hin) as (e0 & He0 & Hk0).
  destruct (decide (r' = r)) as [->|Hne].
  - exists e'. rewrite list_lookup_insert_eq by by eapply lookup_lt_Some.
    split; [done|]. congruence.
  - exists e0. by rewrite list_lookup_insert_ne.
Qed.

Lemma accumulate_unindexed ds st d :
  d_index d = None → d ∈ ds → synth_unique synthIdForIndex ds →
  unindexed_inv synthIdForIndex ds st →
  unindexed_inv synthIdForIndex ds (accumulate st d).
Proof.
  intros Hi Hd Hu Hinv. unfold accumulateToolCallDelta.
  destruct (locate_unindexed ds st d Hi Hd Hu Hinv) as (H1 & e & He & Hid).
  destruct (locate st d) as [st1 r]. simpl in *. rewrite He.
  by apply update_unindexed.
Qed.

Lemma accumulateAll_unindexed ds ds' : ∀ st,
  ds' ⊆ ds → none_indexed ds' → synth_unique synthIdForIndex ds →
  unindexed_inv synthIdForIndex ds st →
  unindexed_inv synthIdForIndex ds (accumulateAll' st ds').
Proof.
  induction ds' as [|d ds' IH]; intros st Hsub Hnone Hu Hinv; simpl; [done|].
  apply Forall_cons in Hnone as [Hd Hnone].
  apply IH; [intros x Hx; apply Hsub; by right|done|done|].
  apply accumulate_unindexed; [done|apply Hsub; left|done|done].
Qed.

(** *** The list [infer] keeps *)

Lemma index_le_trans : Transitive index_le.
Proof.
  intros a b c. unfold index_le.
  destruct (index a), (index b), (index c); try done. lia.
Qed.

Lemma order_le_trans : Transitive order_le.
Proof. intros a b c. unfold order_le. lia. Qed.

Lemma sorted_by_index l :
  Forall (λ e, is_Some (index e)) l →
  StronglySorted index_le (js_sort cmp_index l).
Proof.
  apply js_sort_sorted; [apply index_le_trans| |];
    intros a b [x Hx] [y Hy]; unfold cmp_index, index_le; rewrite Hx, Hy;
    intros ?%Z.leb_le || intros ?%Z.leb_gt; lia.
Qed.

Lemma sorted_by_order l : StronglySorted order_le (js_sort cmp_order l).
Proof.
  apply (js_sort_sorted cmp_order order_le (Transitive0 := order_le_trans)
           (λ _, True)).
  - intros a b _ _ ?%Z.leb_le. unfold cmp_order, order_le in *. lia.
  - intros a b _ _ ?%Z.leb_gt. unfold cmp_order, order_le in *. lia.
  - by apply Forall_true.
Qed.

Lemma named_calls (es : list ToolAccumulatorEntry) :
  filter (λ tc, has_name (tc_name tc) = true) (toToolCall <$> es)
  = toToolCall <$> filter (λ e, has_name (fn_name e) = true) es.
Proof.
  induction es as [|e es IH]; [done|].
  rewrite fmap_cons, !filter_cons. simpl.
  destruct (decide (has_name (fn_name e) = true)); simpl; by rewrite IH.
Qed.

(** X25. For a stream in which every fragment carries an index, or none
    does (synthesized ids being unique), the list kept of the stream
    holds each accumulated entry whose name is not blank exactly once: it
    is the list [es], a permutation of all the entries sorted by index
    when indexes were given and by first-seen order otherwise, without
    the entries whose name is empty or white space. *)
Theorem assembled_named_entries_once (ds : list ToolCallDelta) :
  all_indexed ds ∨ (none_indexed ds ∧ synth_unique synthIdForIndex ds) →
  ∃ es,
    es ≡ₚ store (accumulateAll' initial ds)
    ∧ (all_indexed ds → StronglySorted index_le es)
    ∧ (none_indexed ds → StronglySorted order_le es)
    ∧ streamedToolCalls JSON_parses synthIdForIndex ds
      = toToolCall <$> filter (λ e, has_name (fn_name e) = true) es.
Proof.
  unfold streamedToolCalls, assembleToolCalls.
  set (st := accumulateAll' initial ds).
  intros [Hall|[Hnone Hu]].
  - assert (indexed_inv st) as [Hidx Hperm].
    { apply accumulateAll_indexed; [done|]. split; [constructor|done]. }
    pose proof (deref_perm st _ Hperm) as Hd.
    exists (js_sort cmp_index (deref st (JsMap.values (byIndex st)))).
    assert (Forall (λ e, is_Some (index e))
              (deref st (JsMap.values (byIndex st)))) as Hsome
      by (by rewrite Hd).
    split; [by rewrite js_sort_perm|].
    split; [intros _; by apply sorted_by_index|].
    destruct (0 <? JsMap.size (byIndex st))%nat eqn:Hsz.
    + split; [|apply named_calls].
      intros Hnone. destruct ds as [|d ds]; [done|].
      apply Forall_cons in Hall as [[i Hi] _].
      apply Forall_cons in Hnone as [Hn _]. congruence.
    + apply Nat.ltb_ge in Hsz. unfold JsMap.size, JsMap.values in *.
      assert (byIndex st = []) as Hnil by (destruct (byIndex st); naive_solver lia).
      rewrite Hnil in *. simpl in *.
      apply Permutation_nil_l in Hd. symmetry in Hperm.
      apply Permutation_nil_r in Hperm.
      assert (store st = []) as Hst by done.
      rewrite (deref_empty st) by done.
      split; [constructor|done].
  - assert (unindexed_inv synthIdForIndex ds st)
      as (Hbi & Hctr & Hval & Hown & Hkeys).
    { apply accumulateAll_unindexed; [done|done|done|].
      repeat split; try done.
      - intros k r Hin. by apply elem_of_nil in Hin.
      - intros k Hin. by apply elem_of_nil in Hin. }
    rewrite Hbi. simpl. rewrite Hval, deref_all.
    exists (js_sort cmp_order (store st)).
    split; [apply js_sort_perm|].
    split; [|split; [intros _; apply sorted_by_order|apply named_calls]].
    intros Hall. destruct ds as [|d ds].
    + subst st. simpl. constructor.
    + apply Forall_cons in Hall as [[i Hi] _].
      apply Forall_cons in Hnone as [Hn _]. congruence.
Qed.

End Assemble.

Lemma synth_tally_inj n n' i i' : synth_tally n i = synth_tally n' i' → n = n'.
Proof.
  unfold synth_tally. intros H%(inj _). revert n' H.
  induction n as [|n IH]; intros [|n']; simpl; try done.
  intros [= H]. f_equal. by apply IH.
Qed.

(** Two calls announced without id or index and named later by id. *)
Lemma assembled_named_entries_once_witness :
  let ds := [ mkDelta None (Some "a") (Some "read") (Some "{}");
              mkDelta None None (Some " ") None;
              mkDelta None (Some "b") (Some "write") (Some "{}") ] in
  ∃ es,
    es ≡ₚ store (accumulateAll parses_braced synth_tally initial ds)
    ∧ (all_indexed ds → StronglySorted index_le es)
    ∧ (none_indexed ds → StronglySorted order_le es)
    ∧ streamedToolCalls parses_braced synth_tally ds
      = toToolCall <$> filter (λ e, has_name (fn_name e) = true) es.
Proof.
  intros ds.
  apply (assembled_named_entries_once parses_braced synth_tally ds).
  right. split; [repeat constructor|]. split.
  - apply synth_tally_inj.
  - intros d n i Hd. unfold ds in Hd.
    repeat (apply elem_of_cons in Hd as [->|Hd]); try discriminate.
    by apply elem_of_nil in Hd.
Defined.

(** A name of white space is no name to the filter: the entry is
    accumulated with it, and the list kept of the stream is empty. So it
    is with a no-break space. *)
Example assembled_drops_white_space_name :
  let ds := [ mkDelta (Some 0) (Some "call_1") (Some " ") (Some "{}") ] in
  store (accumulateAll parses_braced synth_const initial ds)
  = [ {| id := "call_1"; type := "function"; fn_name := " ";
         fn_arguments := "{}"; index := Some 0; __order := 0 |} ]
  ∧ streamedToolCalls parses_braced synth_const ds = []
  ∧ streamedToolCalls parses_braced synth_const
      [ mkDelta (Some 0) (Some "call_1")
          (Some (String (ascii_of_nat 160) EmptyString)) (Some "{}") ]
    = [].
Proof. repeat split; vm_compute; reflexivity. Qed.

(** C2 fails on the code. In a stream that mixes fragments without and
    with an index, a call announced without an index is filed under its
    id only; once a later fragment files a call under an index, the
    assembled list is read off the index map alone. Two entries are
    accumulated here, both named, and the final list holds one of
    them. *)
Theorem mixed_stream_loses_entry :
  let ds := [ mkDelta None (Some "call_a") (Some "read") (Some "{}");
              mkDelta (Some 0) (Some "call_b") (Some "write") (Some "{}") ] in
  let st := accumulateAll parses_braced synth_const initial ds in
  store st
  = [ {| id := "call_a"; type := "function"; fn_name := "read";
         fn_arguments := "{}"; index := None; __order := 0 |};
      {| id := "call_b"; type := "function"; fn_name := "write";
         fn_arguments := "{}"; index := Some 0; __order := 1 |} ]
  ∧ assembleToolCalls st
    = [ {| tc_id := "call_b"; tc_type := "function"; tc_name := "write";
           tc_arguments := "{}" |} ]
  ∧ streamedToolCalls parses_braced synth_const ds
    = [ {| tc_id := "call_b"; tc_type := "function"; tc_name := "write";
           tc_arguments := "{}" |} ].
Proof. repeat split; vm_compute; reflexivity. Qed.

End AssembleProofs.

(** ** The context-message sanitizer *)
Module SanitizerProofs.
Import Accumulator Messages SanitizerSpec.

Section Sanitizer.
Variable optimizeTextContent : string → string.

Local Abbreviation optimize := (optimizeInputs optimizeTextContent).
Local Abbreviation sanitize' := (sanitize optimizeTextContent).

Lemma valid_ids_snoc before m :
  valid_ids (before ++ [m])
  = match role m, tool_calls m with
    | assistant, Some tcs => tc_id <$> tcs
    | _, _ => valid_ids before
    end.
Proof. unfold valid_ids. by rewrite foldl_snoc. Qed.

(** The filter's callback keeps what is not orphaned and tracks the most
    recent assistant [tool_calls] set. *)
Lemma keep_message_spec before m :
  keep_message (valid_ids before) m
  = (negb (orphaned before m), valid_ids (before ++ [m])).
Proof.
  rewrite valid_ids_snoc. unfold keep_message, orphaned.
  destruct (role m) eqn:Hr, (tool_calls m) as [tcs|]; simpl; try done.
  all: destruct (name_present m); simpl; try done.
  all: by destruct (id_is_valid _ m).
Qed.

Lemma filterContext_dropOrphans msgs : ∀ before,
  filterContext (valid_ids before) msgs = dropOrphans before msgs.
Proof.
  induction msgs as [|m rest IH]; intros before; simpl; [done|].
  rewrite keep_message_spec, IH. by destruct (orphaned before m).
Qed.

Lemma stripToolCalls_role m : role (stripToolCalls m) = role m.
Proof.
  unfold stripToolCalls. by destruct (role m) eqn:Hr, (tool_calls m).
Qed.

Lemma stripToolCalls_other m :
  role m ≠ assistant → stripToolCalls m = m.
Proof.
  unfold stripToolCalls. by destruct (role m), (tool_calls m).
Qed.

Lemma stripToolCalls_not_empty m : tool_calls (stripToolCalls m) ≠ Some [] ∨
  role m ≠ assistant.
Proof.
  unfold stripToolCalls.
  destruct (role m); try (by right). left.
  destruct (tool_calls m) as [tcs|] eqn:Ht; [|by rewrite Ht].
  unfold with_tool_calls. simpl.
  by destruct (filter _ tcs).
Qed.

(** The ids a stripped assistant message still offers are the non-empty
    ones it offered before. *)
Lemma valid_ids_strip before sent m i :
  i ≠ "" → i ∈ valid_ids (before ++ [m]) →
  role m = assistant → is_Some (tool_calls m) →
  i ∈ valid_ids (sent ++ [stripToolCalls m]).
Proof.
  intros Hi Hin Hr [tcs Ht]. rewrite valid_ids_snoc in Hin |- *.
  rewrite stripToolCalls_role. rewrite Hr, Ht in Hin. rewrite Hr.
  unfold stripToolCalls. rewrite Hr, Ht. simpl.
  apply list_elem_of_fmap in Hin as (tc & -> & Htc).
  assert (tc ∈ filter (λ tc, tc_id tc ≠ "") tcs) as Hk
    by (by apply list_elem_of_filter).
  destruct (filter _ tcs) as [|x l] eqn:Hf; [by apply elem_of_nil in Hk|].
  exact (list_elem_of_fmap_2 tc_id _ _ Hk).
Qed.

Lemma id_is_valid_mono valid valid' m :
  (∀ i, i ≠ "" → i ∈ valid → i ∈ valid') →
  id_is_valid valid m = true → id_is_valid valid' m = true.
Proof.
  unfold id_is_valid. destruct (tool_call_id m) as [i|]; [|done].
  intros Hsub [Hne Hin%bool_decide_eq_true]%andb_true_iff.
  rewrite Hne. simpl. apply bool_decide_eq_true, Hsub; [|done].
  intros ->. by rewrite String.eqb_refl in Hne.
Qed.

(** No tool message of the sanitized context is orphaned in the sequence
    it is sent in. *)
Lemma sanitized_not_orphaned msgs : ∀ before sent pre m suf,
  (∀ i, i ≠ "" → i ∈ valid_ids before → i ∈ valid_ids sent) →
  stripToolCalls <$> dropOrphans before msgs = pre ++ m :: suf →
  role m = tool → orphaned (sent ++ pre) m = false.
Proof.
  induction msgs as [|x rest IH]; intros before sent pre m suf Hsub Heq Hm.
  { by destruct pre. }
  simpl in Heq.
  assert (∀ i, i ≠ "" → i ∈ valid_ids (before ++ [x]) →
               i ∈ valid_ids (sent ++ [stripToolCalls x])) as Hnext.
  { intros i Hi Hin.
    destruct (decide (role x = assistant ∧ is_Some (tool_calls x)))
      as [[Hr Ht]|Hno].
    - by eapply valid_ids_strip.
    - rewrite valid_ids_snoc in Hin |- *.
      assert (stripToolCalls x = x) as ->.
      { unfold stripToolCalls.
        destruct (role x), (tool_calls x); try done.
        exfalso. apply Hno. split; [done|by eexists]. }
      destruct (role x), (tool_calls x); try (by apply Hsub).
      exfalso. apply Hno. split; [done|by eexists]. }
  destruct (orphaned before x) eqn:Ho; simpl in Heq.
  - (* dropped: an orphaned tool message leaves the id set as it was *)
    eapply (IH (before ++ [x]) sent); [|done|done].
    intros i Hi Hin. apply Hsub; [done|].
    rewrite valid_ids_snoc in Hin. unfold orphaned in Ho.
    apply andb_true_iff in Ho as [Hr%bool_decide_eq_true _].
    by rewrite Hr in Hin.
  - destruct pre as [|p pre]; simpl in Heq.
    + injection Heq as <- _. rewrite stripToolCalls_role in Hm.
      rewrite stripToolCalls_other by (rewrite Hm; done).
      rewrite app_nil_r. unfold orphaned in *.
      rewrite Hm in *. rewrite bool_decide_eq_true_2 in * by done.
      simpl in *. apply orb_false_iff in Ho as [Hn Hv].
      rewrite Hn. simpl. apply negb_false_iff.
      apply negb_false_iff in Hv. by eapply id_is_valid_mono.
    + injection Heq as <- Heq.
      replace (sent ++ stripToolCalls x :: pre)
        with ((sent ++ [stripToolCalls x]) ++ pre)
        by (by rewrite <- app_assoc).
      by eapply (IH (before ++ [x])).
Qed.

(** The set the filter tracks is the set the sequence shows: the ids of
    the most recent assistant message before that carries tool calls. *)
Lemma valid_ids_recent before :
  valid_ids before = recent_tool_call_ids before.
Proof.
  induction before as [|m before IH] using rev_ind; [done|].
  rewrite valid_ids_snoc. unfold recent_tool_call_ids in *.
  rewrite reverse_snoc. cbn [List.find]. unfold offers_tool_calls at 1.
  destruct (role m) eqn:Hr; cbn [bool_decide decide_rel andb];
    try (rewrite bool_decide_eq_false_2 by done; cbn [andb];
         destruct (tool_calls m); exact IH).
  rewrite bool_decide_eq_true_2 by done. cbn [andb].
  destruct (tool_calls m) as [tcs|] eqn:Ht.
  - rewrite bool_decide_eq_true_2 by (by eexists). by rewrite Ht.
  - rewrite bool_decide_eq_false_2 by (by intros [? ?]). exact IH.
Qed.

(** What the filter's test lets through is no orphan. *)
Lemma not_orphaned_no_orphan before m :
  role m = tool → orphaned before m = false → ¬ orphan before m.
Proof.
  intros Hr Ho (_ & Horphan). unfold orphaned in Ho.
  rewrite bool_decide_eq_true_2 in Ho by done. cbn [andb] in Ho.
  apply orb_false_iff in Ho as [Hn%negb_false_iff Hv%negb_false_iff].
  unfold name_present in Hn. unfold id_is_valid in Hv.
  destruct Horphan as [Hnone|[Hempty|Hid]].
  - by rewrite Hnone in Hn.
  - by rewrite Hempty in Hn.
  - destruct (tool_call_id m) as [i|]; [|done].
    apply andb_true_iff in Hv as [_ Hin%bool_decide_eq_true].
    rewrite valid_ids_recent in Hin. by apply (Hid i).
Qed.

(** X24. What the sanitizer appends of a context holds no orphan: no
    tool message of it has a missing or empty name, and each one carries
    a [tool_call_id] that is among the ids of the most recent assistant
    [tool_calls] set before it in the sequence, the conversation
    included; and no assistant message of it carries an empty
    [tool_calls] array. This is the sequence before the format
    instructions are added. *)
Theorem sanitized_context_has_no_orphan (messages ctx : list Message) :
  ∃ kept,
    sanitize' messages (Some ctx) = optimize messages ++ kept
    ∧ (∀ pre m suf, kept = pre ++ m :: suf →
         ¬ orphan (optimize messages ++ pre) m)
    ∧ (∀ m, m ∈ kept → role m = assistant → tool_calls m ≠ Some []).
Proof.
  exists (stripToolCalls <$> dropOrphans [] ctx). split; [|split].
  - unfold sanitize. by rewrite <- (filterContext_dropOrphans ctx []).
  - intros pre m suf Hs Horphan. pose proof Horphan as [Hm _].
    revert Horphan. apply not_orphaned_no_orphan; [done|].
    eapply (sanitized_not_orphaned ctx []); [|done|done].
    intros i _ Hin. by apply elem_of_nil in Hin.
  - intros m (x & -> & _)%list_elem_of_fmap Hr.
    rewrite stripToolCalls_role in Hr.
    by destruct (stripToolCalls_not_empty x).
Qed.

(** *** The side effect on the caller's objects *)

Lemma stripToolCalls_assistant m tcs :
  role m = assistant → tool_calls m = Some tcs →
  stripToolCalls m
  = with_tool_calls m
      (if (length (filter (λ tc, tc_id tc ≠ "") tcs) =? 0)%nat then None
       else Some (filter (λ tc, tc_id tc ≠ "") tcs)).
Proof. intros Hr Ht. unfold stripToolCalls. by rewrite Hr, Ht. Qed.

Lemma stripToolCalls_no_calls m :
  tool_calls m = None → stripToolCalls m = m.
Proof. intros Ht. unfold stripToolCalls. rewrite Ht. by destruct (role m). Qed.

Lemma stripToolCalls_idemp m :
  stripToolCalls (stripToolCalls m) = stripToolCalls m.
Proof.
  destruct (decide (role m = assistant)) as [Hr|Hr];
    [|by rewrite !(stripToolCalls_other m) by done].
  destruct (tool_calls m) as [tcs|] eqn:Ht;
    [|by rewrite !(stripToolCalls_no_calls m) by done].
  rewrite (stripToolCalls_assistant m tcs) by done.
  pose proof (list_filter_filter (λ tc, tc_id tc ≠ "")
                (λ tc, tc_id tc ≠ "") tcs) as Hff.
  rewrite (list_filter_iff (λ tc, tc_id tc ≠ "" ∧ tc_id tc ≠ "")
             (λ tc, tc_id tc ≠ "")) in Hff by tauto.
  destruct (filter (λ tc, tc_id tc ≠ "") tcs) as [|x l] eqn:Hf.
  - by rewrite stripToolCalls_no_calls.
  - rewrite (stripToolCalls_assistant _ (x :: l)) by done.
    rewrite Hff. done.
Qed.

Lemma lookup_alter_all {A} (f : A → A) (F : list nat) : ∀ (σ : list A) r,
  (∀ x, f (f x) = f x) →
  foldl (λ s r, alter f r s) σ F !! r
  = if decide (r ∈ F) then f <$> σ !! r else σ !! r.
Proof.
  induction F as [|a F IH]; intros σ r Hf.
  - destruct (decide (r ∈ [])) as [Hin|_]; [by apply elem_of_nil in Hin|done].
  - change (foldl (λ s r, alter f r s) σ (a :: F))
      with (foldl (λ s r, alter f r s) (alter f a σ) F).
    rewrite IH by done. destruct (decide (a = r)) as [->|Hne].
    + rewrite list_lookup_alter_eq.
      destruct (decide (r ∈ r :: F)) as [_|Hn]; [|exfalso; apply Hn; left].
      destruct (decide (r ∈ F)); [|done].
      destruct (σ !! r); simpl; [by rewrite Hf|done].
    + rewrite list_lookup_alter_ne by done.
      destruct (decide (r ∈ F)) as [Hin|Hin];
        destruct (decide (r ∈ a :: F)) as [Hin'|Hin']; try done.
      * exfalso. apply Hin'. by right.
      * apply elem_of_cons in Hin' as [->|?]; done.
Qed.

(** What the sanitizer leaves in the store: every object it was given is
    as before, except the context messages it kept, which went through
    the second pass in place. *)
Lemma sanitizeRefs_store σ messages ctx r :
  (r < length σ)%nat →
  (sanitizeRefs optimizeTextContent σ messages (Some ctx)).1 !! r
  = if decide (r ∈ filterContextRefs
                     (σ ++ optimize (read σ messages)) [] ctx)
    then stripToolCalls <$> σ !! r
    else σ !! r.
Proof.
  intros Hr. unfold sanitizeRefs. cbv zeta. cbn [fst].
  rewrite lookup_alter_all by apply stripToolCalls_idemp.
  by rewrite lookup_app_l by done.
Qed.

(** [optimizeInputs] alone writes to no object it was given. *)
Lemma optimizeInputs_frame σ messages r :
  (r < length σ)%nat →
  (sanitizeRefs optimizeTextContent σ messages None).1 !! r = σ !! r.
Proof.
  intros Hr. unfold sanitizeRefs. cbv zeta. cbn [fst]. by rewrite lookup_app_l.
Qed.

(** *** The messages read back are the sanitized sequence *)

Lemma read_cons (σ : list Message) r rs :
  read σ (r :: rs)
  = match σ !! r with Some m => m :: read σ rs | None => read σ rs end.
Proof. reflexivity. Qed.

Lemma read_app (σ : list Message) rs rs' : read σ (rs ++ rs') = read σ rs ++ read σ rs'.
Proof. apply omap_app. Qed.

Lemma read_filterContextRefs (σ : list Message) rs : ∀ valid,
  read σ (filterContextRefs σ valid rs) = filterContext valid (read σ rs).
Proof.
  induction rs as [|r rs IH]; intros valid; [done|].
  rewrite read_cons. simpl.
  destruct (σ !! r) as [msg|] eqn:Hr; [|apply IH]. simpl.
  destruct (keep_message valid msg) as [[] valid'].
  - by rewrite read_cons, Hr, IH.
  - apply IH.
Qed.

Lemma filterContextRefs_sub (σ : list Message) rs : ∀ valid r,
  r ∈ filterContextRefs σ valid rs → r ∈ rs.
Proof.
  induction rs as [|a rs IH]; intros valid r; simpl; [done|].
  destruct (σ !! a) as [msg|]; [|by right; eapply IH].
  destruct (keep_message valid msg) as [[] valid'].
  - intros [->|Hin]%elem_of_cons; [left|right; by eapply IH].
  - right. by eapply IH.
Qed.

Lemma read_ext (σ τ : list Message) rs :
  (∀ r, r ∈ rs → σ !! r = τ !! r) → read σ rs = read τ rs.
Proof.
  induction rs as [|r rs IH]; intros H; [done|].
  rewrite !read_cons, H, IH; [done| |left].
  intros r' Hr'. apply H. by right.
Qed.

Lemma read_fresh (σ τ : list Message) : read (σ ++ τ) (seq (length σ) (length τ)) = τ.
Proof.
  revert σ. induction τ as [|x τ IH]; intros σ; [done|].
  change (seq (length σ) (length (x :: τ)))
    with (length σ :: seq (S (length σ)) (length τ)).
  rewrite read_cons, lookup_app_r, Nat.sub_diag by lia. simpl. f_equal.
  specialize (IH (σ ++ [x])).
  rewrite length_app, Nat.add_1_r, <- app_assoc in IH. done.
Qed.

Lemma read_stripped (σ τ : list Message) rs :
  (∀ r, r ∈ rs → τ !! r = stripToolCalls <$> σ !! r) →
  read τ rs = stripToolCalls <$> read σ rs.
Proof.
  induction rs as [|r rs IH]; intros H; [done|].
  rewrite !read_cons, H by left.
  rewrite IH by (intros r' Hr'; apply H; by right).
  by destruct (σ !! r).
Qed.

(** Read back from the store, the references returned are the value-level
    sanitized sequence. *)
Lemma sanitizeRefs_reads (σ : list Message) messages ctx :
  Forall (λ r, (r < length σ)%nat) ctx →
  read (sanitizeRefs optimizeTextContent σ messages (Some ctx)).1
       (sanitizeRefs optimizeTextContent σ messages (Some ctx)).2
  = sanitize' (read σ messages) (Some (read σ ctx)).
Proof.
  intros Hctx. unfold sanitizeRefs, sanitize. cbv zeta. cbn [fst snd].
  set (opt := optimize (read σ messages)).
  set (σ1 := σ ++ opt).
  set (F := filterContextRefs σ1 [] ctx).
  set (σ2 := foldl _ σ1 F).
  assert (∀ r, σ2 !! r
               = if decide (r ∈ F) then stripToolCalls <$> σ1 !! r
                 else σ1 !! r) as H2.
  { intros r. apply lookup_alter_all, stripToolCalls_idemp. }
  assert (∀ r, r ∈ F → (r < length σ)%nat) as HF.
  { intros r Hin%filterContextRefs_sub.
    rewrite Forall_forall in Hctx. auto. }
  rewrite read_app. f_equal.
  - rewrite <- (read_fresh σ opt) at 2. apply read_ext.
    intros r Hr%elem_of_seq. rewrite H2.
    destruct (decide (r ∈ F)) as [Hin%HF|]; [lia|done].
  - rewrite (read_stripped σ1 σ2 F).
    + f_equal. unfold F. rewrite read_filterContextRefs. f_equal.
      apply read_ext. intros r Hr. rewrite Forall_forall in Hctx.
      unfold σ1. by rewrite lookup_app_l by auto.
    + intros r Hr. rewrite H2. by destruct (decide (r ∈ F)).
Qed.

End Sanitizer.

(** C5 fails on the code: the second pass assigns to [tool_calls] of the
    context's own message. Here the caller's assistant message with an
    empty [tool_calls] array has none after sanitization. *)
Lemma sanitizer_mutates_context_message (opt : string → string) :
  let σ := [ mkMessage assistant "" (Some []) None None ] in
  (sanitizeRefs opt σ [] (Some [0%nat])).1 !! 0%nat
  = Some (mkMessage assistant "" None None None)
  ∧ σ !! 0%nat = Some (mkMessage assistant "" (Some []) None None).
Proof. split; reflexivity. Qed.

End SanitizerProofs.

(** ** The completion signal *)
Module ContextProofs.
Import Accumulator Messages Json Context.

Section Signal.
Variable JSON_stringify : JSON → string.

Local Abbreviation update := (updateToolCallContext JSON_stringify).
Local Abbreviation contexts' := (contexts JSON_stringify).

Lemma update_depth ctx am ex det :
  depth (update ctx am ex det) = S (from_option depth 0%nat ctx).
Proof. reflexivity. Qed.

(** A signal that is set survives the update. *)
Lemma update_keeps_signal ctx am ex det s :
  completionSignal ctx = Some s →
  completionSignal (update (Some ctx) am ex det) = Some s.
Proof. intros Hs. unfold updateToolCallContext. simpl. by rewrite Hs. Qed.

Lemma update_signal ctx am ex det :
  completionSignal (update ctx am ex det)
  = match ctx ≫= completionSignal, det with
    | None, Some d => detectCompletion d ex
    | previous, _ => previous
    end.
Proof. reflexivity. Qed.

Lemma firstDetected_cons d am ex rest :
  firstDetected d ((am, ex) :: rest)
  = match detectCompletion d ex with
    | Some s => Some s
    | None => firstDetected d rest
    end.
Proof. reflexivity. Qed.

Lemma contexts_signal det rounds : ∀ ctx i c,
  contexts' det ctx rounds !! i = Some c →
  completionSignal c
  = match ctx ≫= completionSignal with
    | Some s => Some s
    | None =>
        match det with
        | Some d => firstDetected d (take (S i) rounds)
        | None => None
        end
    end.
Proof.
  induction rounds as [|[am ex] rest IH]; intros ctx i c; [done|].
  change (contexts' det ctx ((am, ex) :: rest))
    with (update ctx am ex det
          :: contexts' det (Some (update ctx am ex det)) rest).
  destruct i as [|i].
  - intros [= <-]. rewrite update_signal.
    destruct (ctx ≫= completionSignal); [done|].
    destruct det as [d|]; [|done].
    rewrite firstn_cons, firstDetected_cons, take_0.
    by destruct (detectCompletion d ex).
  - intros Hc. rewrite (IH _ _ _ Hc).
    change (Some (update ctx am ex det) ≫= completionSignal)
      with (completionSignal (update ctx am ex det)).
    rewrite update_signal.
    destruct (ctx ≫= completionSignal); [done|].
    destruct det as [d|]; [|done].
    rewrite (firstn_cons (S i)), firstDetected_cons.
    by destruct (detectCompletion d ex).
Qed.

Lemma firstDetected_take d rounds : ∀ i j s,
  (i ≤ j)%nat →
  firstDetected d (take i rounds) = Some s →
  firstDetected d (take j rounds) = Some s.
Proof.
  induction rounds as [|[am ex] rest IH]; intros i j s Hij.
  - by rewrite !take_nil.
  - destruct i as [|i]; [done|]. destruct j as [|j]; [lia|]. simpl.
    destruct (detectCompletion d ex); [done|]. apply IH. lia.
Qed.

(** C7. Over any sequence of context updates of one call chain, the
    context's signal is the one it started with or else the detection on
    the first round whose results the detector recognized; and once a
    context of the chain carries a signal, every later context carries
    that same signal (flag, tool name and summary). *)
Theorem completion_signal_set_once (det : option CompletionDetector)
    (ctx : option ToolCallContext) (rounds : list Round) :
  (∀ i c, contexts' det ctx rounds !! i = Some c →
     completionSignal c
     = match ctx ≫= completionSignal with
       | Some s => Some s
       | None =>
           match det with
           | Some d => firstDetected d (take (S i) rounds)
           | None => None
           end
       end)
  ∧ (∀ i j c c' s, (i ≤ j)%nat →
       contexts' det ctx rounds !! i = Some c →
       contexts' det ctx rounds !! j = Some c' →
       completionSignal c = Some s → completionSignal c' = Some s).
Proof.
  split; [apply contexts_signal|].
  intros i j c c' s Hij Hi Hj.
  rewrite (contexts_signal _ _ _ _ _ Hi), (contexts_signal _ _ _ _ _ Hj).
  destruct (ctx ≫= completionSignal); [done|].
  destruct det as [d|]; [|done]. apply firstDetected_take. lia.
Qed.

End Signal.

(** Within one batch the first completion tool wins, and a second batch
    with another completion result does not overwrite the signal. *)
Example completion_first_wins :
  let det := Some (completionToolDetector (String.eqb "finish")) in
  let am := mkMessage assistant "" None None None in
  let batch1 :=
    [ {| r_id := "1"; r_name := "finish";
         r_result := Some (JString "first") |};
      {| r_id := "2"; r_name := "finish";
         r_result := Some (JString "second") |} ] in
  let batch2 :=
    [ {| r_id := "3"; r_name := "finish";
         r_result := Some (JString "third") |} ] in
  completionSignal
    <$> contexts (λ _, "json") det None [(am, batch1); (am, batch2)]
  = [ Some {| signaled := true; toolName := "finish";
              summary := Some "first" |};
      Some {| signaled := true; toolName := "finish";
              summary := Some "first" |} ].
Proof. reflexivity. Qed.

End ContextProofs.

(** ** JS objects *)
Module JsonProofs.
Import Json Normalize.

Lemma obj_has_true o k : obj_has o k = true ↔ is_Some (obj_get o k).
Proof. unfold obj_has. apply bool_decide_eq_true. Qed.

Lemma obj_has_false o k : obj_has o k = false ↔ obj_get o k = None.
Proof.
  unfold obj_has. rewrite bool_decide_eq_false, eq_None_not_Some. done.
Qed.

Lemma obj_get_None o k : obj_get o k = None ↔ k ∉ o.*1.
Proof.
  induction o as [|[k' v'] o IH]; simpl.
  - split; [intros _; apply not_elem_of_nil|done].
  - rewrite not_elem_of_cons. destruct (decide (k' = k)) as [->|Hne].
    + split; [done|]. by intros [? _].
    + rewrite IH. split; [done|by intros [_ ?]].
Qed.

Lemma obj_get_elem o k v : obj_get o k = Some v → (k, v) ∈ o.
Proof.
  induction o as [|[k' v'] o IH]; simpl; [done|].
  destruct (decide (k' = k)) as [->|].
  - intros [= ->]. left.
  - intros. right. by apply IH.
Qed.

(** *** Reading after writing *)

Lemma obj_get_replace o k v k' :
  is_Some (obj_get o k) →
  obj_get (obj_replace o k v) k'
  = if decide (k = k') then Some v else obj_get o k'.
Proof.
  induction o as [|[k0 v0] o IH]; simpl; [by intros [? ?]|].
  destruct (decide (k0 = k)) as [->|Hne]; simpl.
  - intros _. by destruct (decide (k = k')).
  - intros Hs. rewrite IH by done.
    destruct (decide (k0 = k')) as [->|]; [|done].
    by destruct (decide (k = k')).
Qed.

Lemma obj_get_insert o n k v k' :
  obj_get o k = None →
  obj_get (obj_insert o n k v) k'
  = if decide (k = k') then Some v else obj_get o k'.
Proof.
  induction o as [|[k0 v0] o IH]; simpl; [done|].
  destruct (decide (k0 = k)) as [|Hne]; [done|]. intros Hk.
  destruct (array_index k0) as [n0|]; [destruct (n0 <=? n)%N|]; simpl.
  - rewrite IH by done. destruct (decide (k0 = k')) as [->|]; [|done].
    by destruct (decide (k = k')).
  - done.
  - done.
Qed.

Lemma obj_get_app o k v k' :
  obj_get o k = None →
  obj_get (o ++ [(k, v)]) k'
  = if decide (k = k') then Some v else obj_get o k'.
Proof.
  induction o as [|[k0 v0] o IH]; simpl; [done|].
  destruct (decide (k0 = k)) as [|Hne]; [done|]. intros Hk.
  rewrite IH by done. destruct (decide (k0 = k')) as [->|]; [|done].
  by destruct (decide (k = k')).
Qed.

Lemma obj_get_define o k v k' :
  obj_get (obj_define o k v) k'
  = if decide (k = k') then Some v else obj_get o k'.
Proof.
  unfold obj_define. destruct (obj_has o k) eqn:Hh.
  - apply obj_get_replace. by apply obj_has_true.
  - apply obj_has_false in Hh. destruct (array_index k).
    + by apply obj_get_insert.
    + by apply obj_get_app.
Qed.

Lemma obj_define_same o k v : obj_get o k = Some v → obj_define o k v = o.
Proof.
  intros Hg. unfold obj_define.
  rewrite (proj2 (obj_has_true o k)) by by eexists.
  induction o as [|[k0 v0] o IH]; simpl in *; [done|].
  destruct (decide (k0 = k)) as [->|]; [by injection Hg as ->|].
  by rewrite IH.
Qed.

Lemma obj_get_spread src : ∀ base k,
  NoDup src.*1 →
  obj_get (spread base src) k
  = match obj_get src k with Some v => Some v | None => obj_get base k end.
Proof.
  unfold spread.
  induction src as [|[k0 v0] src IH]; intros base k Hnd; simpl; [done|].
  apply NoDup_cons in Hnd as [Hk0 Hnd].
  rewrite IH, obj_get_define by done. simpl.
  destruct (decide (k0 = k)) as [->|]; [|done].
  by rewrite (proj2 (obj_get_None src k)).
Qed.

(** *** The values an object holds *)

Lemma obj_replace_values (P : JSON → Prop) o k v :
  Forall P o.*2 → P v → Forall P (obj_replace o k v).*2.
Proof.
  intros Ho Hv. induction o as [|[k0 v0] o IH]; simpl in *; [done|].
  apply Forall_cons in Ho as [H0 Ho].
  destruct (decide (k0 = k)); simpl; constructor; auto.
Qed.

Lemma obj_insert_values (P : JSON → Prop) o n k v :
  Forall P o.*2 → P v → Forall P (obj_insert o n k v).*2.
Proof.
  intros Ho Hv. induction o as [|[k0 v0] o IH]; simpl in *.
  - by constructor.
  - pose proof Ho as [H0 Ho']%Forall_cons.
    destruct (array_index k0) as [n0|]; [destruct (n0 <=? n)%N|]; simpl;
      constructor; auto.
Qed.

Lemma obj_define_values (P : JSON → Prop) o k v :
  Forall P o.*2 → P v → Forall P (obj_define o k v).*2.
Proof.
  intros Ho Hv. unfold obj_define. destruct (obj_has o k).
  - by apply obj_replace_values.
  - destruct (array_index k).
    + by apply obj_insert_values.
    + rewrite fmap_app. apply Forall_app. split; [done|]. by constructor.
Qed.

Lemma spread_values (P : JSON → Prop) src : ∀ base,
  Forall P base.*2 → Forall P src.*2 → Forall P (spread base src).*2.
Proof.
  unfold spread. induction src as [|[k v] src IH]; intros base Hb Hs; [done|].
  simpl in *. apply Forall_cons in Hs as [Hv Hs].
  apply IH; [|done]. by apply obj_define_values.
Qed.

Lemma obj_get_values (P : JSON → Prop) o k v :
  Forall P o.*2 → obj_get o k = Some v → P v.
Proof.
  intros Ho Hg. apply obj_get_elem in Hg.
  rewrite Forall_forall in Ho. apply Ho.
  apply list_elem_of_fmap. by exists (k, v).
Qed.

(** *** Enumeration order *)

Lemma key_order_trans : Transitive key_order.
Proof.
  intros a b c. unfold key_order.
  destruct (array_index a), (array_index b), (array_index c); try done. lia.
Qed.

Lemma obj_replace_keys o k v : (obj_replace o k v).*1 = o.*1.
Proof.
  induction o as [|[k0 v0] o IH]; simpl; [done|].
  destruct (decide (k0 = k)) as [->|]; simpl; [done|f_equal; exact IH].
Qed.

Lemma obj_insert_keys o n k v : (obj_insert o n k v).*1 ≡ₚ k :: o.*1.
Proof.
  induction o as [|[k0 v0] o IH]; simpl; [done|].
  destruct (array_index k0) as [n0|]; [destruct (n0 <=? n)%N|]; simpl;
    [|done|done].
  rewrite IH. apply Permutation_swap.
Qed.

Lemma obj_insert_sorted o n k v :
  array_index k = Some n →
  StronglySorted key_order o.*1 →
  StronglySorted key_order (obj_insert o n k v).*1.
Proof.
  intros Hk Hs. induction o as [|[k0 v0] o IH]; simpl in *.
  - repeat constructor.
  - apply StronglySorted_cons in Hs as [Hall Hs].
    assert (key_order k k0 → Forall (key_order k) (k0 :: o.*1)) as Hfront.
    { intros H0. constructor; [done|].
      eapply Forall_impl; [exact Hall|]. intros x Hx.
      by eapply key_order_trans. }
    destruct (array_index k0) as [n0|] eqn:H0;
      [destruct (n0 <=? n)%N eqn:Hle|]; simpl.
    + apply StronglySorted_cons. split; [|by apply IH].
      rewrite obj_insert_keys. constructor; [|done].
      unfold key_order. rewrite H0, Hk. by apply N.leb_le.
    + apply StronglySorted_cons. split; [|by apply StronglySorted_cons].
      apply Hfront. unfold key_order. rewrite H0, Hk.
      apply N.leb_gt in Hle. lia.
    + apply StronglySorted_cons. split; [|by apply StronglySorted_cons].
      apply Hfront. unfold key_order. by rewrite H0, Hk.
Qed.

Lemma obj_define_canonical o k v :
  Canonical o → Canonical (obj_define o k v).
Proof.
  intros [Hnd Hs]. unfold obj_define, Canonical.
  destruct (obj_has o k) eqn:Hh; cbv iota.
  - by rewrite obj_replace_keys.
  - apply obj_has_false, obj_get_None in Hh.
    destruct (array_index k) as [n|] eqn:Hk; cbv iota.
    + split; [|by apply obj_insert_sorted].
      rewrite obj_insert_keys. by apply NoDup_cons.
    + rewrite fmap_app. simpl. split.
      * apply NoDup_app. split; [done|]. split; [|apply NoDup_singleton].
        intros x Hx ->%list_elem_of_singleton. done.
      * apply StronglySorted_app. split; [|split; [done|repeat constructor]].
        intros x y _ ->%list_elem_of_singleton.
        unfold key_order. rewrite Hk. by destruct (array_index x).
Qed.

Lemma spread_canonical src : ∀ base,
  Canonical base → Canonical (spread base src).
Proof.
  unfold spread. induction src as [|[k v] src IH]; intros base Hb; [done|].
  simpl. apply IH. by apply obj_define_canonical.
Qed.

Lemma canonical_nil : Canonical [].
Proof. split; simpl; constructor. Qed.

Lemma obj_insert_last o n k v :
  array_index k = Some n → Forall (λ k0, key_order k0 k) o.*1 →
  obj_insert o n k v = o ++ [(k, v)].
Proof.
  intros Hk Hall. induction o as [|[k0 v0] o IH]; simpl in *; [done|].
  apply Forall_cons in Hall as [H0 Hall].
  unfold key_order in H0. rewrite Hk in H0.
  destruct (array_index k0) as [n0|]; [|done].
  rewrite (proj2 (N.leb_le n0 n)) by done. by rewrite IH.
Qed.

(** Copying a JS object yields the same enumeration. *)
Lemma spread_canonical_id o : Canonical o → spread [] o = o.
Proof.
  unfold spread. induction o as [|[k v] o IH] using rev_ind; [done|].
  intros [Hnd Hs]. rewrite fmap_app in Hnd, Hs. simpl in *.
  apply NoDup_app in Hnd as (Hnd & Hfresh & _).
  apply StronglySorted_app in Hs as (Hlast & Hs & _).
  rewrite foldl_snoc, IH by done. simpl.
  assert (k ∉ o.*1) as Hk.
  { intros Hin. eapply Hfresh; [done|]. by apply list_elem_of_singleton. }
  unfold obj_define.
  rewrite (proj2 (obj_has_false o k)) by by apply obj_get_None.
  destruct (array_index k) as [n|] eqn:Hn; cbv iota; [|done].
  apply obj_insert_last; [done|]. apply Forall_forall. intros x Hx.
  apply Hlast; [done|]. by apply list_elem_of_singleton.
Qed.

End JsonProofs.

(** ** The array repair *)
Module NormalizeProofs.
Import Json Normalize JsonProofs.
Local Open Scope nat_scope.

(** *** Depth *)

Lemma depth_array_le l n :
  depth (JArray l) ≤ S n ↔ Forall (λ x, depth x ≤ n) l.
Proof.
  simpl. rewrite <- Nat.succ_le_mono.
  induction l as [|x l IH]; simpl.
  - split; [constructor|lia].
  - rewrite Forall_cons, <- IH. lia.
Qed.

Lemma depth_object_array o : depth (JObject o) = depth (JArray o.*2).
Proof.
  simpl. f_equal. induction o as [|[k v] o IH]; simpl; [done|].
  by rewrite IH.
Qed.

Lemma depth_object_le o n :
  depth (JObject o) ≤ S n ↔ Forall (λ x, depth x ≤ n) o.*2.
Proof. by rewrite depth_object_array, depth_array_le. Qed.

Lemma depth_array_pos l : (1 ≤ depth (JArray l))%nat.
Proof. simpl. lia. Qed.

Lemma depth_array_items l m :
  depth (JArray l) ≤ m → Forall (λ x, depth x ≤ m) l.
Proof.
  destruct m as [|m]; [simpl; lia|]. intros H%depth_array_le.
  eapply Forall_impl; [exact H|]. simpl. lia.
Qed.

Lemma depth_object_values o m :
  depth (JObject o) ≤ m → Forall (λ x, depth x ≤ m) o.*2.
Proof. rewrite depth_object_array. apply depth_array_items. Qed.

Lemma depth_array_mono {A} (g : A → JSON) (l : list A) (l' : list JSON) :
  Forall2 (λ x y, depth y ≤ depth (g x)) l l' →
  depth (JArray l') ≤ depth (JArray (g <$> l)).
Proof.
  intros H. destruct (depth (JArray (g <$> l))) as [|n] eqn:Hd; [done|].
  apply depth_array_le.
  assert (Forall (λ x, depth x ≤ n) (g <$> l)) as Hl
    by (apply depth_array_le; lia).
  clear Hd. induction H as [|x y l l' Hxy H IH]; [done|].
  rewrite fmap_cons in Hl. apply Forall_cons in Hl as [Hx Hl].
  constructor; [lia|by apply IH].
Qed.

Lemma Forall_filter_keep {A} (Q P : A → Prop) `{∀ x, Decision (P x)} l :
  Forall Q l → Forall Q (filter P l).
Proof.
  rewrite !Forall_forall. intros Hl x [_ Hx]%list_elem_of_filter. auto.
Qed.

Lemma filter_all {A} (P : A → Prop) `{∀ x, Decision (P x)} l :
  Forall P l → filter P l = l.
Proof.
  induction 1 as [|x l Hx Hl IH]; [done|].
  by rewrite filter_cons_True, IH.
Qed.

Lemma depth_filter (P : JSON → Prop) `{∀ x, Decision (P x)} l :
  depth (JArray (filter P l)) ≤ depth (JArray l).
Proof.
  destruct (depth (JArray l)) as [|n] eqn:Hd; [done|].
  apply depth_array_le, Forall_filter_keep, depth_array_le. lia.
Qed.

(** *** The repair returns *)

Section Total.
Variable rec : JSON → option JSON.
Variable m : nat.
Hypothesis Hrec : returns_upto rec m.

Lemma mapM_rec_total l :
  Forall (λ x, depth x ≤ m) l →
  ∃ l', mapM rec l = Some l' ∧ depth (JArray l') ≤ depth (JArray l).
Proof.
  intros Hl.
  assert (∃ l', Forall2 (λ x y, rec x = Some y ∧ depth y ≤ depth x) l l')
    as [l' H2].
  { induction Hl as [|x l Hx Hl [l' IH]]; [by exists []|].
    destruct (Hrec x Hx) as (y & Hy & Hd). exists (y :: l'). by constructor. }
  exists l'. split.
  - apply mapM_Some. eapply Forall2_impl; [exact H2|]. by intros ?? [? ?].
  - rewrite <- (list_fmap_id l). apply depth_array_mono.
    eapply Forall2_impl; [exact H2|]. by intros ?? [? ?].
Qed.

Lemma keyed_entry_total field kv :
  depth kv.2 ≤ m →
  ∃ y, keyed_entry rec field kv = Some y ∧ depth y ≤ depth kv.2.
Proof.
  destruct kv as [key value]. simpl. intros Hd.
  destruct (Hrec value Hd) as (y & Hy & Hdy).
  destruct value as [| | | | |props]; try by exists y.
  destruct (obj_has props field); [by exists y|].
  rewrite Hy. simpl. eexists. split; [done|].
  destruct (depth (JObject props)) as [|n] eqn:Hn; [done|].
  apply depth_object_le, spread_values.
  - repeat constructor. simpl. lia.
  - destruct y; try (simpl; by constructor).
    apply depth_object_le.
    change (depth (JObject props0) ≤ depth (JObject props)). by rewrite Hn.
Qed.

Lemma mapM_keyed_total field entries :
  Forall (λ x, depth x ≤ m) entries.*2 →
  ∃ arr, mapM (keyed_entry rec field) entries = Some arr
         ∧ depth (JArray arr) ≤ depth (JObject entries).
Proof.
  intros Hl.
  assert (∃ l', Forall2 (λ x y, keyed_entry rec field x = Some y
                                ∧ depth y ≤ depth x.2) entries l')
    as [l' H2].
  { induction entries as [|x l IH]; [by exists []|].
    rewrite fmap_cons in Hl. apply Forall_cons in Hl as [Hx Hl].
    destruct (IH Hl) as [l' IH'].
    destruct (keyed_entry_total field x Hx) as (y & Hy & Hd).
    exists (y :: l'). by constructor. }
  exists l'. split.
  - apply mapM_Some. eapply Forall2_impl; [exact H2|]. by intros ?? [? ?].
  - rewrite depth_object_array. apply depth_array_mono.
    eapply Forall2_impl; [exact H2|]. by intros ?? [? ?].
Qed.

Lemma normalize_keyed_total field key n :
  Forall (λ x, depth x ≤ m) n.*2 →
  ∃ n', normalize_keyed rec field key n = Some n'
        ∧ Forall (λ x, depth x ≤ m) n'.*2.
Proof.
  intros Hn. unfold normalize_keyed.
  destruct (obj_get n key) as [v|] eqn:Hg; [|by exists n].
  pose proof (obj_get_values _ _ _ _ Hn Hg) as Hv. cbv beta in Hv.
  destruct v as [| | | |items|entries]; try by exists n.
  - destruct (mapM_rec_total items) as (arr & -> & Hd).
    { by apply depth_array_items. }
    simpl. eexists. split; [done|]. apply obj_define_values; [done|]. lia.
  - destruct (mapM_keyed_total field entries) as (arr & -> & Hd).
    { by apply depth_object_values. }
    simpl. eexists. split; [done|]. apply obj_define_values; [done|]. lia.
Qed.

Lemma normalize_files_total ip1 :
  depth ip1 ≤ m →
  ∃ ip2, normalize_files rec ip1 = Some ip2 ∧ depth ip2 ≤ depth ip1.
Proof.
  intros Hd. unfold normalize_files.
  destruct ip1 as [| | | | |ip]; try by eexists.
  destruct (obj_get ip "files") as [v|] eqn:Hg; [|by eexists].
  destruct v as [| | | | |entries]; try by eexists.
  destruct (depth (JObject ip)) as [|n] eqn:Hn; [done|].
  assert (Forall (λ x, depth x ≤ n) ip.*2) as Hip
    by (apply depth_object_le; lia).
  pose proof (obj_get_values _ _ _ _ Hip Hg) as Hv. cbv beta in Hv.
  destruct (mapM_keyed_total "path" entries) as (arr & -> & Ha).
  { apply depth_object_values. lia. }
  simpl. eexists. split; [done|].
  apply depth_object_le, obj_define_values; [done|]. lia.
Qed.

Lemma normalize_initialPhase_total n :
  Forall (λ x, depth x ≤ m) n.*2 →
  ∃ n', normalize_initialPhase rec n = Some n'
        ∧ Forall (λ x, depth x ≤ m) n'.*2.
Proof.
  intros Hn. unfold normalize_initialPhase.
  destruct (obj_get n "initialPhase") as [v|] eqn:Hg; [|by exists n].
  pose proof (obj_get_values _ _ _ _ Hn Hg) as Hv. cbv beta in Hv.
  destruct v as [| | | | |ip]; try by exists n.
  destruct (Hrec _ Hv) as (ip1 & -> & H1). simpl.
  destruct (normalize_files_total ip1) as (ip2 & -> & H2); [lia|].
  simpl. eexists. split; [done|]. apply obj_define_values; [done|]. lia.
Qed.

Lemma normalize_strings_total key n :
  Forall (λ x, depth x ≤ m) n.*2 →
  Forall (λ x, depth x ≤ m) (normalize_strings key n).*2.
Proof.
  intros Hn. unfold normalize_strings.
  destruct (obj_get n key) as [v|] eqn:Hg; [|done].
  pose proof (obj_get_values _ _ _ _ Hn Hg) as Hv. cbv beta in Hv.
  destruct v as [| | | |items|entries]; try done.
  - apply obj_define_values; [done|].
    etrans; [apply depth_filter|done].
  - apply obj_define_values; [done|].
    etrans; [apply depth_filter|]. by rewrite <- depth_object_array.
Qed.

End Total.

Lemma returns_upto_le rec m n : n ≤ m → returns_upto rec m → returns_upto rec n.
Proof. intros Hle H x Hx. apply H. lia. Qed.

Lemma normalizeBody_total rec m raw :
  returns_upto rec m → depth raw ≤ S m →
  ∃ v, normalizeBody rec raw = Some v ∧ depth v ≤ depth raw.
Proof.
  intros Hrec Hd. destruct raw as [| | | |items|props]; try by eexists.
  - destruct (mapM_rec_total rec m Hrec items) as (arr & Ha & Hda).
    { by apply depth_array_le. }
    exists (JArray arr). simpl. by rewrite Ha.
  - unfold normalizeBody.
    destruct (depth (JObject props)) as [|n] eqn:Hn; [done|].
    assert (Forall (λ x, depth x ≤ n) props.*2) as Hp
      by (apply depth_object_le; lia).
    assert (returns_upto rec n) as Hn'
      by (eapply returns_upto_le; [|done]; lia).
    assert (Forall (λ x, depth x ≤ n) (spread [] props).*2) as H0
      by (by apply spread_values).
    destruct (normalize_keyed_total rec n Hn' "name" "views" _ H0)
      as (n1 & -> & H1). simpl.
    destruct (normalize_keyed_total rec n Hn' "phase"
                "implementationRoadmap" _ H1) as (n2 & -> & H2). simpl.
    destruct (normalize_initialPhase_total rec n Hn' _ H2)
      as (n3 & -> & H3). simpl.
    eexists. split; [done|]. apply depth_object_le.
    by do 3 apply normalize_strings_total.
Qed.

(** With fuel above the depth of its argument the repair returns a value,
    nested no deeper. *)
Lemma normalizeFuel_total f : returns_upto (normalizeFuel (S f)) f.
Proof.
  induction f as [|f IH]; intros x Hx.
  - destruct x; simpl in Hx; try lia; by eexists.
  - change (normalizeFuel (S (S f)) x)
      with (normalizeBody (normalizeFuel (S f)) x).
    by apply (normalizeBody_total _ f).
Qed.

(** *** What the repair returns is array-shaped *)

Lemma obj_get_spread_other field x p k :
  k ≠ field → NoDup p.*1 →
  obj_get (spread [(field, x)] p) k = obj_get p k.
Proof.
  intros Hk Hnd. rewrite obj_get_spread by done.
  destruct (obj_get p k); [done|]. simpl.
  by destruct (decide (field = k)) as [->|].
Qed.

Lemma canonical_singleton k v : Canonical [(k, v)].
Proof. split; simpl; [apply NoDup_singleton|repeat constructor]. Qed.

Lemma repaired_empty : Repaired (JObject []).
Proof. constructor; [apply canonical_nil|done..]. Qed.

Lemma repaired_with_key field key p :
  field ∈ ["name"; "phase"; "path"] →
  Repaired (JObject p) →
  Repaired (JObject (spread [(field, JString key)] p)).
Proof.
  intros Hf Hp. inversion Hp as [| | | | |? [Hnd Hs] Hk Hi Hstr]; subst.
  assert (∀ k, k ∈ ["views"; "implementationRoadmap"; "initialPhase";
                    "pitfalls"; "frameworks"; "colorPalette"] →
            obj_get (spread [(field, JString key)] p) k = obj_get p k) as Hg.
  { intros k Hin. apply obj_get_spread_other; [|done].
    intros ->. revert Hf Hin.
    rewrite !elem_of_cons, !elem_of_nil.
    intros [->|[->|[->|[]]]]; by intros [|[|[|[|[|[|[]]]]]]]. }
  constructor.
  - apply spread_canonical, canonical_singleton.
  - intros k v Hin. rewrite Hg; [by apply Hk|].
    revert Hin. rewrite !elem_of_cons. tauto.
  - intros ip. rewrite Hg; [by apply Hi|].
    rewrite !elem_of_cons. tauto.
  - intros k v Hin. rewrite Hg; [by apply Hstr|].
    revert Hin. rewrite !elem_of_cons. tauto.
Qed.

(** The step left the object as it was: the value under the key is no
    container the step converts. *)
Ltac unchanged Hn Hg :=
  try injection Hn as <-; split; [done|split; [done|]];
  intros ?; rewrite Hg; intros [= <-]; split; [done|]; by intros ? [=].

Section Shape.
Variable rec : JSON → option JSON.
Hypothesis Hrec : ∀ x y, rec x = Some y → Repaired y.

Lemma mapM_rec_repaired l l' : mapM rec l = Some l' → Forall Repaired l'.
Proof.
  intros H%mapM_Some_1. induction H as [|x y l l' Hxy H IH]; [done|].
  constructor; [by eapply Hrec|done].
Qed.

Lemma keyed_entry_repaired field kv y :
  field ∈ ["name"; "phase"; "path"] →
  keyed_entry rec field kv = Some y → Repaired y.
Proof.
  intros Hf. destruct kv as [key value]. simpl.
  destruct value as [| | | | |props]; try by apply Hrec.
  destruct (obj_has props field); [by apply Hrec|].
  destruct (rec (JObject props)) as [n|] eqn:Hn; [|done]. simpl.
  intros [= <-]. apply Hrec in Hn.
  destruct n; try (apply repaired_with_key; [done|apply repaired_empty]).
  by apply repaired_with_key.
Qed.

Lemma mapM_keyed_repaired field l l' :
  field ∈ ["name"; "phase"; "path"] →
  mapM (keyed_entry rec field) l = Some l' → Forall Repaired l'.
Proof.
  intros Hf H%mapM_Some_1. induction H as [|x y l l' Hxy H IH]; [done|].
  constructor; [by eapply keyed_entry_repaired|done].
Qed.

Lemma normalize_keyed_shape field key n n' :
  field ∈ ["name"; "phase"; "path"] →
  normalize_keyed rec field key n = Some n' → Canonical n →
  Canonical n'
  ∧ (∀ k, k ≠ key → obj_get n' k = obj_get n k)
  ∧ (∀ v, obj_get n' key = Some v →
       not_object v ∧ ∀ items, v = JArray items → Forall Repaired items).
Proof.
  intros Hf Hn Hc. unfold normalize_keyed in Hn.
  destruct (obj_get n key) as [v0|] eqn:Hg.
  - destruct v0 as [| | | |items|entries]; try (by unchanged Hn Hg).
    + destruct (mapM rec items) as [arr|] eqn:Ha; [|done].
      injection Hn as <-. split; [by apply obj_define_canonical|].
      split.
      * intros k Hk. rewrite obj_get_define. by destruct (decide (key = k)).
      * intros v. rewrite obj_get_define.
        destruct (decide (key = key)); [|done]. intros [= <-].
        split; [done|]. intros ? [= <-]. by eapply mapM_rec_repaired.
    + destruct (mapM (keyed_entry rec field) entries) as [arr|] eqn:Ha;
        [|done].
      injection Hn as <-. split; [by apply obj_define_canonical|].
      split.
      * intros k Hk. rewrite obj_get_define. by destruct (decide (key = k)).
      * intros v. rewrite obj_get_define.
        destruct (decide (key = key)); [|done]. intros [= <-].
        split; [done|]. intros ? [= <-]. by eapply mapM_keyed_repaired.
  - injection Hn as <-. split; [done|split; [done|]].
    intros v. by rewrite Hg.
Qed.

Lemma normalize_files_shape ip1 ip2 :
  normalize_files rec ip1 = Some ip2 → Repaired ip1 →
  Repaired ip2
  ∧ ∀ ip, ip2 = JObject ip → ∀ v, obj_get ip "files" = Some v → not_object v.
Proof.
  intros Hn Hr. unfold normalize_files in Hn.
  destruct ip1 as [| | | | |ip]; try (by injection Hn as <-).
  destruct (obj_get ip "files") as [v0|] eqn:Hg.
  - destruct v0 as [| | | | |entries];
      try (injection Hn as <-; split; [done|];
           intros ? [= <-] v; rewrite Hg; by intros [= <-]).
    destruct (mapM (keyed_entry rec "path") entries) as [arr|] eqn:Ha;
      [|done].
    injection Hn as <-.
    inversion Hr as [| | | | |? Hc Hk Hi Hstr]; subst.
    assert (∀ k, k ≠ "files" →
              obj_get (obj_define ip "files" (JArray arr)) k = obj_get ip k)
      as Hother.
    { intros k Hk'. rewrite obj_get_define.
      by destruct (decide ("files" = k)). }
    split.
    + constructor.
      * by apply obj_define_canonical.
      * intros k v Hin. rewrite Hother; [by apply Hk|].
        revert Hin. rewrite !elem_of_cons, elem_of_nil.
        by intros [->|[->|[]]].
      * intros ip'. rewrite Hother by done. by apply Hi.
      * intros k v Hin. rewrite Hother; [by apply Hstr|].
        revert Hin. rewrite !elem_of_cons, elem_of_nil.
        by intros [->|[->|[->|[]]]].
    + intros ? [= <-] v. rewrite obj_get_define.
      destruct (decide ("files" = "files")); [|done]. by intros [= <-].
  - injection Hn as <-. split; [done|]. intros ? [= <-] v. by rewrite Hg.
Qed.

Lemma normalize_initialPhase_shape n n' :
  normalize_initialPhase rec n = Some n' → Canonical n →
  Canonical n'
  ∧ (∀ k, k ≠ "initialPhase" → obj_get n' k = obj_get n k)
  ∧ (∀ ip, obj_get n' "initialPhase" = Some (JObject ip) →
       Repaired (JObject ip)
       ∧ ∀ v, obj_get ip "files" = Some v → not_object v).
Proof.
  intros Hn Hc. unfold normalize_initialPhase in Hn.
  destruct (obj_get n "initialPhase") as [v0|] eqn:Hg.
  - destruct v0 as [| | | | |ip0];
      try (injection Hn as <-; split; [done|split; [done|]];
           intros ip; by rewrite Hg).
    destruct (rec (JObject ip0)) as [ip1|] eqn:H1; [|done]. simpl in Hn.
    destruct (normalize_files rec ip1) as [ip2|] eqn:H2; [|done].
    injection Hn as <-. apply Hrec in H1.
    destruct (normalize_files_shape _ _ H2 H1) as [Hr2 Hf2].
    split; [by apply obj_define_canonical|]. split.
    + intros k Hk. rewrite obj_get_define.
      by destruct (decide ("initialPhase" = k)).
    + intros ip. rewrite obj_get_define.
      destruct (decide ("initialPhase" = "initialPhase")); [|done].
      intros [= ->]. split; [done|]. by apply Hf2.
  - injection Hn as <-. split; [done|split; [done|]].
    intros ip. by rewrite Hg.
Qed.

End Shape.

Lemma normalize_strings_shape key n :
  Canonical n →
  Canonical (normalize_strings key n)
  ∧ (∀ k, k ≠ key → obj_get (normalize_strings key n) k = obj_get n k)
  ∧ (∀ v, obj_get (normalize_strings key n) key = Some v →
       not_object v
       ∧ ∀ items, v = JArray items → Forall (λ x, is_string x = true) items).
Proof.
  intros Hc. unfold normalize_strings.
  destruct (obj_get n key) as [v0|] eqn:Hg.
  - destruct v0 as [| | | |items|entries]; try (by unchanged Hg Hg).
    all: split; [by apply obj_define_canonical|]; split.
    all: try (intros k Hk; rewrite obj_get_define;
              by destruct (decide (key = k))).
    all: intros v; rewrite obj_get_define;
      destruct (decide (key = key)); [|done]; intros [= <-];
      split; [done|]; intros ? [= <-];
      apply Forall_forall; by intros x [? _]%list_elem_of_filter.
  - split; [done|split; [done|]]. intros v. by rewrite Hg.
Qed.

Lemma normalizeBody_repaired rec raw v :
  (∀ x y, rec x = Some y → Repaired y) →
  normalizeBody rec raw = Some v → Repaired v.
Proof.
  intros Hrec Hn. destruct raw as [| | | |items|props];
    try (injection Hn as <-; constructor).
  - simpl in Hn. destruct (mapM rec items) as [arr|] eqn:Ha; [|done].
    injection Hn as <-. constructor. by eapply mapM_rec_repaired.
  - unfold normalizeBody in Hn.
    pose proof (spread_canonical props [] canonical_nil) as C0.
    destruct (normalize_keyed rec "name" "views" _) as [n1|] eqn:H1;
      [|done]. simpl in Hn.
    destruct (normalize_keyed rec "phase" "implementationRoadmap" n1)
      as [n2|] eqn:H2; [|done]. simpl in Hn.
    destruct (normalize_initialPhase rec n2) as [n3|] eqn:H3; [|done].
    simpl in Hn. injection Hn as <-.
    apply normalize_keyed_shape in H1 as (C1 & _ & V1);
      [|done|rewrite !elem_of_cons; tauto|done].
    apply normalize_keyed_shape in H2 as (C2 & E2 & V2);
      [|done|rewrite !elem_of_cons; tauto|done].
    apply normalize_initialPhase_shape in H3 as (C3 & E3 & V3);
      [|done|done].
    destruct (normalize_strings_shape "pitfalls" n3 C3) as (C4 & E4 & V4).
    destruct (normalize_strings_shape "frameworks" _ C4) as (C5 & E5 & V5).
    destruct (normalize_strings_shape "colorPalette" _ C5) as (C6 & E6 & V6).
    constructor; [done|..].
    + intros key v. rewrite !elem_of_cons, elem_of_nil.
      intros [->|[->|[]]]; rewrite E6, E5, E4, E3 by done.
      * rewrite E2 by done. apply V1.
      * apply V2.
    + intros ip. rewrite E6, E5, E4 by done. apply V3.
    + intros key v. rewrite !elem_of_cons, elem_of_nil.
      intros [->|[->|[->|[]]]].
      * rewrite E6, E5 by done. apply V4.
      * rewrite E6 by done. apply V5.
      * apply V6.
Qed.

Lemma normalizeFuel_repaired f : ∀ raw v,
  normalizeFuel f raw = Some v → Repaired v.
Proof.
  induction f as [|f IH]; intros raw v; [done|].
  simpl. by apply normalizeBody_repaired.
Qed.

(** *** An array-shaped value is left as it is *)

Section Fixed.
Variable rec : JSON → option JSON.
Variable m : nat.
Hypothesis Hfix : ∀ x, Repaired x → depth x ≤ m → rec x = Some x.

Lemma mapM_rec_fixed l :
  Forall Repaired l → Forall (λ x, depth x ≤ m) l → mapM rec l = Some l.
Proof.
  intros Hr Hd. apply mapM_Some_2, Forall_Forall2_diag.
  rewrite Forall_forall in Hr, Hd |- *. intros x Hx. apply Hfix; auto.
Qed.

Lemma normalize_keyed_fixed field key n :
  (∀ v, obj_get n key = Some v →
     not_object v ∧ ∀ items, v = JArray items → Forall Repaired items) →
  Forall (λ x, depth x ≤ m) n.*2 →
  normalize_keyed rec field key n = Some n.
Proof.
  intros Hv Hd. unfold normalize_keyed.
  destruct (obj_get n key) as [v|] eqn:Hg; [|done].
  destruct (Hv v eq_refl) as [Hno Hit].
  destruct v as [| | | |items|]; try done.
  rewrite mapM_rec_fixed; [simpl; by rewrite obj_define_same|by apply Hit|].
  apply depth_array_items. by apply (obj_get_values _ _ _ _ Hd Hg).
Qed.

Lemma normalize_initialPhase_fixed n :
  (∀ ip, obj_get n "initialPhase" = Some (JObject ip) →
     Repaired (JObject ip) ∧ ∀ v, obj_get ip "files" = Some v → not_object v) →
  Forall (λ x, depth x ≤ m) n.*2 →
  normalize_initialPhase rec n = Some n.
Proof.
  intros Hv Hd. unfold normalize_initialPhase.
  destruct (obj_get n "initialPhase") as [v|] eqn:Hg; [|done].
  destruct v as [| | | | |ip]; try done.
  destruct (Hv ip eq_refl) as [Hr Hfiles].
  rewrite Hfix; [|done|by apply (obj_get_values _ _ _ _ Hd Hg)]. simpl.
  destruct (obj_get ip "files") as [v|] eqn:Hf.
  - pose proof (Hfiles v eq_refl) as Hno.
    destruct v; try done; simpl; by rewrite obj_define_same.
  - simpl. by rewrite obj_define_same.
Qed.

End Fixed.

Lemma normalize_strings_fixed key n :
  (∀ v, obj_get n key = Some v →
     not_object v
     ∧ ∀ items, v = JArray items → Forall (λ x, is_string x = true) items) →
  normalize_strings key n = n.
Proof.
  intros Hv. unfold normalize_strings.
  destruct (obj_get n key) as [v|] eqn:Hg; [|done].
  destruct (Hv v eq_refl) as [Hno Hit].
  destruct v as [| | | |items|]; try done.
  rewrite filter_all by by apply Hit. by apply obj_define_same.
Qed.

Lemma normalizeBody_fixed rec m v :
  (∀ x, Repaired x → depth x ≤ m → rec x = Some x) →
  Repaired v → depth v ≤ S m → normalizeBody rec v = Some v.
Proof.
  intros Hfix Hr Hd.
  inversion Hr as [| | | |items Hit|props Hc Hk Hi Hstr]; subst; try done.
  - simpl. rewrite (mapM_rec_fixed rec m); [done|done|done|].
    by apply depth_array_le.
  - unfold normalizeBody. rewrite spread_canonical_id by done.
    apply depth_object_le in Hd.
    rewrite (normalize_keyed_fixed rec m); [|done| |done].
    2: { intros v. apply Hk. rewrite !elem_of_cons. tauto. }
    simpl. rewrite (normalize_keyed_fixed rec m); [|done| |done].
    2: { intros v. apply Hk. rewrite !elem_of_cons. tauto. }
    simpl. rewrite (normalize_initialPhase_fixed rec m); [|done|done|done].
    simpl.
    rewrite (normalize_strings_fixed "pitfalls" props),
      (normalize_strings_fixed "frameworks" props),
      (normalize_strings_fixed "colorPalette" props); [done|..].
    all: intros v; apply Hstr; rewrite !elem_of_cons; tauto.
Qed.

Lemma normalizeFuel_fixed f : ∀ v,
  Repaired v → depth v ≤ f → normalizeFuel (S f) v = Some v.
Proof.
  induction f as [|f IH]; intros v Hr Hd.
  - destruct v; simpl in Hd; try lia; done.
  - change (normalizeFuel (S (S f)) v)
      with (normalizeBody (normalizeFuel (S f)) v).
    by apply (normalizeBody_fixed _ f).
Qed.

(** *** More fuel changes nothing *)

Section Mono.
Variables rec rec' : JSON → option JSON.
Hypothesis Hle : ∀ x y, rec x = Some y → rec' x = Some y.

Lemma mapM_mono {A} (g g' : A → option JSON) l l' :
  (∀ x y, g x = Some y → g' x = Some y) →
  mapM g l = Some l' → mapM g' l = Some l'.
Proof.
  intros Hg H%mapM_Some_1. apply mapM_Some_2.
  eapply Forall2_impl; [exact H|]. auto.
Qed.

Lemma keyed_entry_mono field kv y :
  keyed_entry rec field kv = Some y → keyed_entry rec' field kv = Some y.
Proof.
  destruct kv as [key value]. simpl.
  destruct value as [| | | | |props]; try by apply Hle.
  destruct (obj_has props field); [by apply Hle|].
  destruct (rec (JObject props)) as [n|] eqn:Hn; [|done].
  by rewrite (Hle _ _ Hn).
Qed.

Lemma normalize_keyed_mono field key n n' :
  normalize_keyed rec field key n = Some n' →
  normalize_keyed rec' field key n = Some n'.
Proof.
  unfold normalize_keyed. destruct (obj_get n key) as [[| | | |items|entries]|];
    try done.
  - destruct (mapM rec items) as [arr|] eqn:Ha; [|done].
    by rewrite (mapM_mono rec rec' _ _ Hle Ha).
  - destruct (mapM (keyed_entry rec field) entries) as [arr|] eqn:Ha; [|done].
    by rewrite (mapM_mono _ _ _ _ (keyed_entry_mono field) Ha).
Qed.

Lemma normalize_files_mono ip1 ip2 :
  normalize_files rec ip1 = Some ip2 → normalize_files rec' ip1 = Some ip2.
Proof.
  unfold normalize_files. destruct ip1 as [| | | | |ip]; try done.
  destruct (obj_get ip "files") as [[| | | | |entries]|]; try done.
  destruct (mapM (keyed_entry rec "path") entries) as [arr|] eqn:Ha; [|done].
  by rewrite (mapM_mono _ _ _ _ (keyed_entry_mono "path") Ha).
Qed.

Lemma normalize_initialPhase_mono n n' :
  normalize_initialPhase rec n = Some n' →
  normalize_initialPhase rec' n = Some n'.
Proof.
  unfold normalize_initialPhase.
  destruct (obj_get n "initialPhase") as [[| | | | |ip]|]; try done.
  destruct (rec (JObject ip)) as [ip1|] eqn:H1; [|done].
  rewrite (Hle _ _ H1). simpl.
  destruct (normalize_files rec ip1) as [ip2|] eqn:H2; [|done].
  by rewrite (normalize_files_mono _ _ H2).
Qed.

Lemma normalizeBody_mono raw v :
  normalizeBody rec raw = Some v → normalizeBody rec' raw = Some v.
Proof.
  destruct raw as [| | | |items|props]; try done.
  - simpl. destruct (mapM rec items) as [arr|] eqn:Ha; [|done].
    by rewrite (mapM_mono rec rec' _ _ Hle Ha).
  - unfold normalizeBody.
    destruct (normalize_keyed rec "name" "views" _) as [n1|] eqn:H1; [|done].
    rewrite (normalize_keyed_mono _ _ _ _ H1). simpl.
    destruct (normalize_keyed rec "phase" "implementationRoadmap" n1)
      as [n2|] eqn:H2; [|done].
    rewrite (normalize_keyed_mono _ _ _ _ H2). simpl.
    destruct (normalize_initialPhase rec n2) as [n3|] eqn:H3; [|done].
    by rewrite (normalize_initialPhase_mono _ _ H3).
Qed.
End Mono.

Lemma normalizeFuel_mono f : ∀ f' raw v,
  f ≤ f' → normalizeFuel f raw = Some v → normalizeFuel f' raw = Some v.
Proof.
  induction f as [|f IH]; intros [|f'] raw v Hf; try done; [lia|].
  simpl. apply normalizeBody_mono. intros x y. apply IH. lia.
Qed.

(** Fuel never runs out above the depth, and the result does not depend
    on how much more there is. *)
Lemma normalizeFuel_enough f raw :
  depth raw < f → normalizeFuel f raw = normalizeBlueprintData raw.
Proof.
  intros Hd. unfold normalizeBlueprintData.
  destruct (normalizeFuel_total (depth raw) raw) as (v & Hv & _); [done|].
  rewrite Hv. by apply (normalizeFuel_mono (S (depth raw))).
Qed.

(** C8. The array repair is idempotent: it returns on every value, and
    repairing what it returned gives that value back. *)
Theorem normalizeBlueprintData_idempotent (raw : JSON) :
  ∃ v, normalizeBlueprintData raw = Some v
       ∧ normalizeBlueprintData v = Some v.
Proof.
  unfold normalizeBlueprintData.
  destruct (normalizeFuel_total (depth raw) raw) as (v & Hv & _); [done|].
  exists v. split; [done|].
  apply normalizeFuel_fixed; [|done]. by eapply normalizeFuel_repaired.
Qed.

(** The scenario of the repair: entries keep their order and the key is
    injected only where the identifying field is absent. *)
Example repair_files_scenario :
  normalizeBlueprintData
    (JObject [("initialPhase",
       JObject [("files",
         JObject [("A", JObject [("path", str "x")]);
                  ("B", JObject [("y", JNumber 1)])])])])
  = Some
    (JObject [("initialPhase",
       JObject [("files",
         JArray [JObject [("path", str "x")];
                 JObject [("path", str "B"); ("y", JNumber 1)]])])]).
Proof. vm_compute. reflexivity. Qed.

Example repair_strings_scenario :
  normalizeBlueprintData
    (JObject [("pitfalls",
       JObject [("p1", str "a"); ("p2", JNumber 2); ("p3", str "b")])])
  = Some (JObject [("pitfalls", JArray [str "a"; str "b"])]).
Proof. vm_compute. reflexivity. Qed.

End NormalizeProofs.

(** ** The 429 handlers *)
Module RateLimitProofs.
Import Json Context RateLimit.

(** The conversion rounds up to whole milliseconds. *)
Lemma to_millis_rounds_up (seconds : Q) :
  (seconds * 1000 <= inject_Z (to_millis seconds))%Q
  ∧ (inject_Z (to_millis seconds - 1) < seconds * 1000)%Q.
Proof.
  unfold to_millis. split.
  - apply Qle_ceiling.
  - apply Qceiling_lt.
Qed.

(** The handler around the chat-completion call reads the header: a
    fractional number of seconds is rounded up to milliseconds, and
    without a header the delay is the default of sixty seconds. *)
Example client_429_header :
  suggestedRetryAfter_of
    (classifyTransportError parseFloat_decimal show_rational None
       (status_429 (Some [("retry-after", HString "7.5")])))
  = Some 7500
  ∧ suggestedRetryAfter_of
      (classifyTransportError parseFloat_decimal show_rational None
         (status_429 (Some [("retry-after", HString "0.0001")])))
    = Some 1
  ∧ suggestedRetryAfter_of
      (classifyTransportError parseFloat_decimal show_rational None
         (status_429 (Some [("retry-after", HString "0")])))
    = Some 60000
  ∧ suggestedRetryAfter_of
      (classifyTransportError parseFloat_decimal show_rational None
         (status_429 None))
    = Some 60000.
Proof. vm_compute. done. Qed.

(** The native handler throws the generic error with the default delay
    whatever the answer holds. *)
Lemma geminiRateLimit_default (parseFloat : string → option Q)
    (JSON_parse : string → option JSON) (show_number : Q → string)
    (ToString : JSON → string) (res : HttpResponse) :
  geminiRateLimit parseFloat JSON_parse show_number ToString res
  = RateLimitExceededError "Gemini API rate limit exceeded" (Some 34000).
Proof. reflexivity. Qed.

(** C6. A 429 answer of the native endpoint without a [Retry-After]
    header whose body carries the retry-info delay ["7.5s"]: inside the
    [try] the handler computes 7500 milliseconds and throws; its own
    [catch] receives that throw, and what leaves the handler carries the
    default of 34000 milliseconds — as it does for every answer. *)
Theorem retry_info_delay_is_lost :
  geminiRateLimitTry parseFloat_decimal parse_retry_info show_rational
    (λ _, "[object Object]") too_many_requests
  = RateLimitExceededError
      "Gemini API rate limit exceeded. Retry after 15/2s" (Some 7500)
  ∧ geminiRateLimit parseFloat_decimal parse_retry_info show_rational
      (λ _, "[object Object]") too_many_requests
    = RateLimitExceededError "Gemini API rate limit exceeded" (Some 34000)
  ∧ ∀ (parseFloat : string → option Q) (JSON_parse : string → option JSON)
      (show_number : Q → string) (ToString : JSON → string)
      (res : HttpResponse),
      suggestedRetryAfter_of
        (geminiRateLimit parseFloat JSON_parse show_number ToString res)
      = Some 34000.
Proof.
  split; [by vm_compute|]. split; [by vm_compute|].
  intros. by rewrite geminiRateLimit_default.
Qed.

End RateLimitProofs.

(** ** The recursive inference loop *)
Module InferenceProofs.
Import Accumulator Messages Json Context RateLimit Inference.
Local Open Scope nat_scope.

Lemma requests_app (evs evs' : list Event) :
  requests (evs ++ evs') = requests evs + requests evs'.
Proof. unfold requests. by rewrite filter_app, length_app. Qed.

Lemma self_calls_app (evs evs' : list Event) :
  self_calls (evs ++ evs') = self_calls evs ++ self_calls evs'.
Proof. unfold self_calls. apply omap_app. Qed.

Section MonadFacts.
Context {World : Type}.

Lemma within_ret {A} (r s d : nat) (a : A) : within (World := World) r s d (ret a).
Proof.
  intros m. exists []. simpl. rewrite app_nil_r.
  repeat split; try done; unfold requests; simpl; lia.
Qed.

Lemma within_throw {A} (r s d : nat) (e : Thrown) :
  within (World := World) (A := A) r s d (throw e).
Proof.
  intros m. exists []. simpl. rewrite app_nil_r.
  repeat split; try done; unfold requests; simpl; lia.
Qed.

Lemma within_weaken {A} (r s r' s' d : nat) (c : M World A) :
  r ≤ r' → s ≤ s' → within r s d c → within r' s' d c.
Proof.
  intros Hr Hs Hc m. destruct (Hc m) as (evs & Ht & Hq & Hl & Hseq & Hne).
  exists evs. repeat split; try done; lia.
Qed.

Lemma within_bind {A B} (r s d : nat) (c : M World A) (k : A → M World B) :
  within 0 0 d c → (∀ a, within r s d (k a)) → within r s d (bind c k).
Proof.
  intros Hc Hk m. destruct (Hc m) as (evs & Ht & Hq & Hl & _ & Hne).
  assert (self_calls evs = []) as Hnil.
  { destruct (self_calls evs); [done|simpl in Hl; lia]. }
  unfold bind. destruct (c m) as [m' [a|e|]]; simpl in *.
  - destruct (Hk a m') as (evs' & Ht' & Hq' & Hl' & Hseq' & Hne').
    exists (evs ++ evs').
    rewrite Ht', Ht, app_assoc, requests_app, self_calls_app, Hnil.
    simpl. repeat split; try done. lia.
  - exists evs. rewrite Hnil. simpl. repeat split; try done; lia.
  - done.
Qed.

Lemma within_emit (d : nat) (ev : Event) :
  is_request ev = false → self_calls [ev] = [] →
  within (World := World) 0 0 d (emit ev).
Proof.
  intros Hq Hs m. exists [ev]. rewrite Hs. unfold requests.
  rewrite filter_cons_False by (rewrite Hq; done).
  by repeat split.
Qed.

Lemma within_request {A} (r s d : nat) (ev : Event) (k : M World A) :
  is_request ev = true →
  within r s d k → within (S r) s d (bind (emit ev) (λ _, k)).
Proof.
  intros Hq Hk m.
  destruct (Hk {| world := world m; trace := trace m ++ [ev] |})
    as (evs & Ht & Hr & Hl & Hseq & Hne).
  exists (ev :: evs).
  assert (requests (ev :: evs) = S (requests evs)) as ->.
  { unfold requests. by rewrite filter_cons_True. }
  assert (self_calls (ev :: evs) = self_calls evs) as ->.
  { by destruct ev. }
  change (bind (emit ev) (λ _, k) m)
    with (k {| world := world m; trace := trace m ++ [ev] |}).
  rewrite Ht. cbn [trace]. rewrite <- app_assoc.
  repeat split; try done. lia.
Qed.

Lemma within_self_call {A} (r s d : nat) (k : M World A) :
  within r s (S d) k →
  within r (S s) d (bind (emit (SelfCall (S d))) (λ _, k)).
Proof.
  intros Hk m.
  destruct (Hk {| world := world m; trace := trace m ++ [SelfCall (S d)] |})
    as (evs & Ht & Hr & Hl & Hseq & Hne).
  exists (SelfCall (S d) :: evs).
  assert (requests (SelfCall (S d) :: evs) = requests evs) as ->.
  { unfold requests. rewrite filter_cons_False; [done|]. by intros ?. }
  change (self_calls (SelfCall (S d) :: evs)) with (S d :: self_calls evs).
  change (bind (emit (SelfCall (S d))) (λ _, k) m)
    with (k {| world := world m; trace := trace m ++ [SelfCall (S d)] |}).
  rewrite Ht. cbn [trace length]. rewrite <- app_assoc.
  repeat split; try done.
  - lia.
  - cbn [seq]. by rewrite <- Hseq.
Qed.

Lemma within_ask {A} (d : nat) (f : World → World * A) :
  within 0 0 d (ask f).
Proof.
  intros m. exists []. unfold ask. destruct (f (world m)) as [w a]. simpl.
  rewrite app_nil_r. repeat split; try done; unfold requests; simpl; lia.
Qed.

Lemma within_ask_or_throw {A} (d : nat) (f : World → World * (Thrown + A)) :
  within 0 0 d (ask_or_throw f).
Proof.
  intros m. exists []. unfold ask_or_throw.
  destruct (f (world m)) as [w [e|a]]; simpl;
    rewrite app_nil_r; repeat split; try done; unfold requests; simpl; lia.
Qed.

Lemma within_ask_may_throw (d : nat) (f : World → World * option Thrown) :
  within 0 0 d (ask_may_throw f).
Proof.
  intros m. exists []. unfold ask_may_throw.
  destruct (f (world m)) as [w [e|]]; simpl;
    rewrite app_nil_r; repeat split; try done; unfold requests; simpl; lia.
Qed.

Lemma within_try_catch {A} (d : nat) (c : M World A)
    (handler : Thrown → M World A) :
  within 0 0 d c → (∀ e, within 0 0 d (handler e)) →
  within 0 0 d (try_catch c handler).
Proof.
  intros Hc Hh m. destruct (Hc m) as (evs & Ht & Hq & Hl & _ & Hne).
  assert (self_calls evs = []) as Hnil.
  { destruct (self_calls evs); [done|simpl in Hl; lia]. }
  unfold try_catch. destruct (c m) as [m' [a|e|]]; simpl in *.
  - exists evs. rewrite Hnil. by repeat split.
  - destruct (Hh e m') as (evs' & Ht' & Hq' & Hl' & Hseq' & Hne').
    exists (evs ++ evs').
    rewrite Ht', Ht, app_assoc, requests_app, self_calls_app, Hnil.
    simpl. repeat split; try done. lia.
  - done.
Qed.

Lemma extends_refl {A} (c : M World A) : extends c c.
Proof. by intros m _. Qed.

Lemma extends_out_of_fuel {A} (c : M World A) : extends out_of_fuel c.
Proof. by intros m Hne. Qed.

Lemma extends_bind {A B} (c : M World A) (k k' : A → M World B) :
  (∀ a, extends (k a) (k' a)) → extends (bind c k) (bind c k').
Proof.
  intros Hk m. unfold bind. destruct (c m) as [m' [a|e|]]; try done.
  apply Hk.
Qed.

Lemma extends_trans {A} (c1 c2 c3 : M World A) :
  extends c1 c2 → extends c2 c3 → extends c1 c3.
Proof.
  intros H12 H23 m Hne. rewrite <- (H12 m Hne). apply H23.
  by rewrite (H12 m Hne).
Qed.

End MonadFacts.

(** One step through two computations that differ in their fuel only. *)
Ltac ext_step leaf :=
  lazymatch goal with
  | |- extends out_of_fuel _ => apply extends_out_of_fuel
  | |- extends (bind _ _) (bind _ _) => apply extends_bind; intros
  | |- extends (if ?b then _ else _) _ => destruct b eqn:?
  | |- extends (match ?x with _ => _ end) _ => destruct x eqn:?
  | |- extends ?c ?c' => first [constr_eq c c'; apply extends_refl | leaf]
  end.

(** One step through a computation of the loop: a leaf is closed, a bind
    on a call that makes no request is split, a branch is taken apart. *)
Ltac walk_quiet :=
  first
    [ apply within_ret
    | apply within_throw
    | apply within_ask
    | apply within_ask_or_throw
    | apply within_ask_may_throw
    | apply within_emit; [reflexivity | reflexivity] ].

Ltac walk_step quiet :=
  lazymatch goal with
  | |- within _ _ _ (ret _) => apply within_ret
  | |- within _ _ _ (throw _) => apply within_throw
  | |- within _ _ _ (bind (emit (NetworkRequest _ _)) _) => fail
  | |- within _ _ _ (bind (emit (NativeRequest _ _)) _) => fail
  | |- within _ _ _ (bind (emit (SelfCall _)) _) => fail
  | |- within _ _ _ (bind _ _) => apply within_bind; [quiet | intros]
  | |- within _ _ _ (if ?b then _ else _) => destruct b eqn:?
  | |- within _ _ _ (match ?x with _ => _ end) => destruct x eqn:?
  | |- within _ _ _ (let _ := _ in _) => cbv zeta
  end.

Section LoopFacts.
Context {World Schema SchemaFormat ToolDefinition ActionKey Overrides : Type}.
Context `{!Collaborators World Schema SchemaFormat ToolDefinition ActionKey
            Overrides}.
Implicit Types
  (args : InferArgs Schema SchemaFormat ToolDefinition ActionKey Overrides)
  (toolCallContext : option ToolCallContext).

Lemma consumeStream_quiet (d chunkSize : nat)
    (events : list ChatCompletionChunk) (acc : Accumulator.State)
    (content : string) (streamIndex : nat) :
  within (World := World) 0 0 d
    (consumeStream chunkSize events acc content streamIndex).
Proof.
  revert acc content streamIndex.
  induction events as [|event rest IH]; intros acc content streamIndex.
  - apply within_ret.
  - cbn [consumeStream]. cbv zeta.
    repeat walk_step walk_quiet; apply IH.
Qed.

Lemma readResponse_quiet (d : nat) (stream : option StreamOptions)
    (response : ChatResponse) :
  within (World := World) 0 0 d (readResponse stream response).
Proof.
  unfold readResponse.
  repeat walk_step ltac:(first [apply consumeStream_quiet | walk_quiet]).
Qed.

Lemma requestCompletion_quiet (d : nat) (modelName : string)
    (messagesToPass : list Message) (stream : bool) toolCallContext :
  within (World := World) 0 0 d
    (requestCompletion modelName messagesToPass stream toolCallContext).
Proof.
  intros m. exists []. unfold requestCompletion.
  destruct (chat_completions_create _ _ _ _) as [w [e|a]]; simpl;
    rewrite app_nil_r; repeat split; try done; unfold requests; simpl; lia.
Qed.

Lemma runTools_quiet (d : nat) args toolCallContext
    (assistantMessage : Message) (content : string)
    (toolCalls : list ToolCall) :
  within (World := World) 0 0 d
    (runTools args toolCallContext assistantMessage content toolCalls).
Proof.
  unfold runTools. destruct (a_tools args) as [tools|]; [|apply within_ret].
  apply within_bind; [walk_quiet|intros _].
  apply within_try_catch.
  - apply within_bind; [walk_quiet|intros]. apply within_ret.
  - intros e. destruct e; apply within_ret.
Qed.

Lemma notify_quiet (d : nat) args (assistantMessage : Message) :
  within (World := World) 0 0 d (notify args assistantMessage).
Proof. unfold notify. repeat walk_step walk_quiet. walk_quiet. Qed.

Lemma finish_within (r s d : nat) args toolCallContext (content : string) :
  within (World := World) r s d (finish args toolCallContext content).
Proof. unfold finish. repeat walk_step walk_quiet. Qed.

Lemma property_quiet (d : nat) (v : JSON) (k : string) :
  within (World := World) 0 0 d (property v k).
Proof. unfold property. destruct v; walk_quiet. Qed.

Lemma depth_of_afterSanitize toolCallContext :
  depth_of (afterSanitize toolCallContext) = depth_of toolCallContext.
Proof. by destruct toolCallContext. Qed.

Lemma depth_of_update (JSON_stringify : JSON → string) toolCallContext
    (assistantMessage : Message) (executed : list ToolCallResult)
    (det : option CompletionDetector) :
  depth (updateToolCallContext JSON_stringify toolCallContext
           assistantMessage executed det)
  = S (depth_of toolCallContext).
Proof. by destruct toolCallContext. Qed.

Lemma nextArgs_actionKey args (modelName : string) :
  a_actionKey (nextArgs args modelName) = a_actionKey args.
Proof. unfold nextArgs. by destruct (structured args). Qed.

Ltac walk_loop :=
  repeat walk_step
    ltac:(first [ walk_quiet
                | apply property_quiet
                | apply readResponse_quiet
                | apply requestCompletion_quiet
                | apply runTools_quiet
                | apply notify_quiet ]).

Lemma inferGeminiNative_within (fuel : nat) args toolCallContext :
  getMaxToolCallingDepth (a_actionKey args) - depth_of toolCallContext ≤ fuel →
  within (World := World)
    (getMaxToolCallingDepth (a_actionKey args) - depth_of toolCallContext)
    (getMaxToolCallingDepth (a_actionKey args) - depth_of toolCallContext)
    (depth_of toolCallContext)
    (inferGeminiNative fuel args toolCallContext).
Proof.
  revert toolCallContext.
  induction fuel as [|fuel IH]; intros toolCallContext Hfuel;
    cbn [inferGeminiNative]; cbv zeta;
    destruct (getMaxToolCallingDepth (a_actionKey args)
              <=? depth_of toolCallContext) eqn:Hguard;
    try (walk_loop; fail);
    apply Nat.leb_gt in Hguard; [lia|].
  replace (getMaxToolCallingDepth (a_actionKey args)
           - depth_of toolCallContext)
    with (S (getMaxToolCallingDepth (a_actionKey args)
             - S (depth_of toolCallContext))) by lia.
  walk_loop. apply within_request; [done|].
  walk_loop.
  all: rewrite depth_of_update; apply within_self_call.
  all: match goal with
       | |- within _ _ _ (inferGeminiNative _ _ (Some ?c)) =>
           specialize (IH (Some c)); cbn [depth_of from_option] in IH;
           rewrite depth_of_update in IH; apply IH; lia
       end.
Qed.

Lemma infer_within (fuel : nat) args toolCallContext :
  getMaxToolCallingDepth (a_actionKey args) - depth_of toolCallContext ≤ fuel →
  within (World := World)
    (getMaxToolCallingDepth (a_actionKey args) - depth_of toolCallContext)
    (getMaxToolCallingDepth (a_actionKey args) - depth_of toolCallContext)
    (depth_of toolCallContext)
    (infer fuel args toolCallContext).
Proof.
  revert args toolCallContext.
  induction fuel as [|fuel IH]; intros args toolCallContext Hfuel;
    cbn [infer]; cbv zeta;
    (destruct (MAX_LLM_MESSAGES <? length (a_messages args));
       [apply within_throw|]);
    destruct (getMaxToolCallingDepth (a_actionKey args)
              <=? depth_of toolCallContext) eqn:Hguard;
    try (walk_loop; fail);
    apply Nat.leb_gt in Hguard; [lia|].
  walk_loop.
  - apply inferGeminiNative_within. lia.
  - replace (getMaxToolCallingDepth (a_actionKey args)
             - depth_of toolCallContext)
      with (S (getMaxToolCallingDepth (a_actionKey args)
               - S (depth_of toolCallContext))) by lia.
    apply within_request; [done|].
    walk_loop; try apply finish_within.
    all: rewrite depth_of_update, depth_of_afterSanitize;
      apply within_self_call.
    all: match goal with
         | |- within _ _ _ (infer _ (nextArgs _ ?n) (Some ?c)) =>
             specialize (IH (nextArgs args n) (Some c));
             cbn [depth_of from_option] in IH;
             rewrite depth_of_update, depth_of_afterSanitize,
               nextArgs_actionKey in IH;
             apply IH; lia
         end.
Qed.

Lemma inferGeminiNative_more_fuel (fuel : nat) args toolCallContext :
  extends (World := World) (inferGeminiNative fuel args toolCallContext)
    (inferGeminiNative (S fuel) args toolCallContext).
Proof.
  revert toolCallContext. induction fuel as [|fuel IH]; intros toolCallContext.
  - cbn [inferGeminiNative]; cbv zeta. repeat ext_step fail.
  - remember (S fuel) as fuel1 eqn:Hfuel1.
    rewrite Hfuel1 at 1. cbn [inferGeminiNative]; cbv zeta.
    repeat ext_step ltac:(apply IH).
Qed.

Lemma infer_more_fuel (fuel : nat) args toolCallContext :
  extends (World := World) (infer fuel args toolCallContext)
    (infer (S fuel) args toolCallContext).
Proof.
  revert args toolCallContext.
  induction fuel as [|fuel IH]; intros args toolCallContext.
  - cbn [infer]; cbv zeta.
    repeat ext_step ltac:(apply inferGeminiNative_more_fuel).
  - remember (S fuel) as fuel1 eqn:Hfuel1.
    rewrite Hfuel1 at 1. cbn [infer]; cbv zeta.
    repeat ext_step ltac:(first [ rewrite Hfuel1;
                                  apply inferGeminiNative_more_fuel
                                | apply IH ]).
Qed.

Lemma infer_enough_fuel (fuel fuel' : nat) args toolCallContext :
  fuel ≤ fuel' →
  extends (World := World) (infer fuel args toolCallContext)
    (infer fuel' args toolCallContext).
Proof.
  induction 1 as [|fuel' _ IH]; [apply extends_refl|].
  eapply extends_trans; [exact IH|apply infer_more_fuel].
Qed.

(** C10. A call whose conversation holds more than [MAX_LLM_MESSAGES]
    messages throws the rate-limit error at once, whatever the context
    and its depth: the machine is left as it was, so nothing was asked of
    the outside and no request was made, and this is so also where the
    depth guard alone would have returned its notice. *)
Theorem message_limit_checked_first (fuel : nat) args toolCallContext
    (m : Machine World) :
  MAX_LLM_MESSAGES < length (a_messages args) →
  infer fuel args toolCallContext m
  = (m, Threw (RateLimitExceededError
                 ("Message limit exceeded: "
                  +:+ show_nat (length (a_messages args))
                  +:+ " messages (max: " +:+ show_nat MAX_LLM_MESSAGES
                  +:+ "). Please use context compactification.")
                 None)).
Proof.
  intros Hlen. apply Nat.ltb_lt in Hlen.
  destruct fuel; cbn [infer]; by rewrite Hlen.
Qed.

(** C3, for conversations within the message limit. A call whose
    conversation holds at most [MAX_LLM_MESSAGES] messages and whose
    context depth has reached the maximum of its action ends at the
    guard, with any fuel: the machine is left as it was, so no request
    was made; with a schema the depth error is thrown, without one the
    notice is returned with the very context that was passed. The guard
    of the native path does the same. *)
Theorem depth_guard_ends_call (fuel : nat) args toolCallContext
    (m : Machine World) :
  length (a_messages args) ≤ MAX_LLM_MESSAGES →
  getMaxToolCallingDepth (a_actionKey args) ≤ depth_of toolCallContext →
  infer fuel args toolCallContext m
  = (m, match a_schema args with
        | Some _ =>
            Threw (AbortError
                     ("Maximum tool calling depth ("
                      +:+ show_nat (getMaxToolCallingDepth (a_actionKey args))
                      +:+ ") exceeded. Tools may be calling each other recursively.")
                     toolCallContext)
        | None => Returned (InferResponseString maxDepthNotice toolCallContext)
        end)
  ∧ inferGeminiNative fuel args toolCallContext m
    = (m, match a_schema args with
          | Some _ =>
              Threw (AbortError
                       ("Maximum tool calling depth ("
                        +:+ show_nat
                              (getMaxToolCallingDepth (a_actionKey args))
                        +:+ ") exceeded.")
                       toolCallContext)
          | None =>
              Returned (InferResponseString maxDepthNotice toolCallContext)
          end).
Proof.
  intros Hlen Hdepth.
  apply Nat.ltb_ge in Hlen. apply Nat.leb_le in Hdepth.
  split.
  - destruct fuel; cbn [infer]; rewrite Hlen; cbv zeta; rewrite Hdepth;
      by destruct (a_schema args).
  - destruct fuel; cbn [inferGeminiNative]; cbv zeta; rewrite Hdepth;
      by destruct (a_schema args).
Qed.

(** C9. With fuel for the rounds the depth guard leaves, a call ends
    with a result or a throw, never for lack of fuel, and more fuel
    changes nothing. Each context update adds one to the depth; the
    recursive calls of one request are given the depths [d+1], [d+2],
    ... in this order, [d] being the depth it started at; and the
    request makes at most [maxDepth - d], hence at most [maxDepth],
    requests to a model. *)
Theorem inference_loop_terminates (fuel : nat) args toolCallContext
    (m : Machine World) :
  getMaxToolCallingDepth (a_actionKey args) - depth_of toolCallContext ≤ fuel →
  (∀ ctx assistantMessage executed det,
     depth (updateToolCallContext JSON_stringify ctx assistantMessage
              executed det)
     = S (depth_of ctx))
  ∧ infer fuel args toolCallContext m = inferRequest args toolCallContext m
  ∧ ∃ evs,
      trace (infer fuel args toolCallContext m).1 = trace m ++ evs
      ∧ (infer fuel args toolCallContext m).2 ≠ OutOfFuel
      ∧ requests evs
        ≤ getMaxToolCallingDepth (a_actionKey args) - depth_of toolCallContext
      ∧ requests evs ≤ getMaxToolCallingDepth (a_actionKey args)
      ∧ length (self_calls evs)
        ≤ getMaxToolCallingDepth (a_actionKey args) - depth_of toolCallContext
      ∧ self_calls evs
        = seq (S (depth_of toolCallContext)) (length (self_calls evs)).
Proof.
  intros Hfuel.
  split; [intros; apply depth_of_update|].
  destruct (infer_within _ args toolCallContext (Nat.le_refl _) m)
    as (evs & Ht & Hr & Hl & Hseq & Hne).
  assert (infer fuel args toolCallContext m
          = inferRequest args toolCallContext m) as Heq.
  { by apply (infer_enough_fuel _ fuel args toolCallContext Hfuel). }
  split; [exact Heq|].
  exists evs. rewrite Heq. unfold inferRequest.
  repeat split; try done. lia.
Qed.

End LoopFacts.

Import Scenario.

(** Three messages against a limit of two, at depth zero. *)
Lemma message_limit_checked_first_witness :
  infer 3 (request long_conversation) None start
  = (start,
     Threw (RateLimitExceededError
              "Message limit exceeded: 3 messages (max: 2). Please use context compactification."
              None)).
Proof.
  rewrite (message_limit_checked_first 3 (request long_conversation) None
             start) by (simpl; lia).
  vm_compute. reflexivity.
Defined.

(** One message, no schema, and a context at the maximal depth. *)
Lemma depth_guard_ends_call_witness :
  infer 0 (request short_conversation) (Some exhausted) start
  = (start,
     Returned (InferResponseString
                 "[System: Maximum tool calling depth reached.]"
                 (Some exhausted))).
Proof.
  destruct (depth_guard_ends_call 0 (request short_conversation)
              (Some exhausted) start) as [Hinfer _]; [simpl; lia ..|].
  exact Hinfer.
Defined.

(** A conversation over the message limit meets the limit check before
    the depth guard: with the rounds used up and no schema, the call
    throws the rate-limit error where the guard would have returned its
    notice. *)
Lemma depth_guard_behind_message_limit :
  (getMaxToolCallingDepth (a_actionKey (request long_conversation))
   ≤ depth_of (Some exhausted))
  ∧ a_schema (request long_conversation) = None
  ∧ infer 0 (request long_conversation) (Some exhausted) start
    = (start,
       Threw (RateLimitExceededError
                "Message limit exceeded: 3 messages (max: 2). Please use context compactification."
                None)).
Proof. split; [simpl; lia|]. split; [done|]. by vm_compute. Qed.

(** More fuel than the three rounds of the action. *)
Lemma inference_loop_terminates_witness :
  (infer 5 (request short_conversation) None start).2 ≠ OutOfFuel
  ∧ infer 5 (request short_conversation) None start
    = inferRequest (request short_conversation) None start.
Proof.
  destruct (inference_loop_terminates 5 (request short_conversation) None
              start) as (_ & Heq & evs & _ & Hne & _).
  - simpl. lia.
  - split; [exact Hne|exact Heq].
Defined.

(** The model that asks for a tool at every round is stopped by the
    guard after three requests, the maximum of the action. *)
Example eager_model_three_rounds :
  let run := inferRequest (request short_conversation) None start in
  requests (trace run.1) = 3
  ∧ self_calls (trace run.1) = [1; 2; 3]
  ∧ world run.1 = 3
  ∧ ∃ ctx, run.2 = Returned (InferResponseString maxDepthNotice (Some ctx))
           ∧ depth ctx = 3.
Proof.
  vm_compute. repeat split. eexists. split; reflexivity.
Qed.

End InferenceProofs.

(** ** More of the inference loop *)
Module InferenceMoreProofs.
Import Accumulator Messages Json Context RateLimit Inference InferenceSpec.
Import InferenceProofs.
Local Open Scope nat_scope.

Section EmitsFacts.
Context {World : Type}.

Lemma emits_ret {A} (P : Event → Prop) (a : A) : emits (World := World) P (ret a).
Proof. intros m. exists []. by rewrite app_nil_r. Qed.

Lemma emits_throw {A} (P : Event → Prop) (e : Thrown) :
  emits (World := World) (A := A) P (throw e).
Proof. intros m. exists []. by rewrite app_nil_r. Qed.

Lemma emits_out_of_fuel {A} (P : Event → Prop) :
  emits (World := World) (A := A) P out_of_fuel.
Proof. intros m. exists []. by rewrite app_nil_r. Qed.

Lemma emits_emit (P : Event → Prop) (ev : Event) :
  P ev → emits (World := World) P (emit ev).
Proof. intros HP m. exists [ev]. split; [done|]. by constructor. Qed.

Lemma emits_ask {A} (P : Event → Prop) (f : World → World * A) :
  emits P (ask f).
Proof.
  intros m. exists []. unfold ask. destruct (f (world m)). simpl.
  by rewrite app_nil_r.
Qed.

Lemma emits_ask_or_throw {A} (P : Event → Prop)
    (f : World → World * (Thrown + A)) :
  emits P (ask_or_throw f).
Proof.
  intros m. exists []. unfold ask_or_throw. destruct (f (world m)). simpl.
  by rewrite app_nil_r.
Qed.

Lemma emits_ask_may_throw (P : Event → Prop)
    (f : World → World * option Thrown) :
  emits P (ask_may_throw f).
Proof.
  intros m. exists []. unfold ask_may_throw. destruct (f (world m)). simpl.
  by rewrite app_nil_r.
Qed.

Lemma emits_bind {A B} (P : Event → Prop) (c : M World A)
    (k : A → M World B) :
  emits P c → (∀ a, emits P (k a)) → emits P (bind c k).
Proof.
  intros Hc Hk m. destruct (Hc m) as (evs & Ht & HP).
  unfold bind. destruct (c m) as [m' [a|e|]]; simpl in *.
  - destruct (Hk a m') as (evs' & Ht' & HP').
    exists (evs ++ evs'). rewrite Ht', Ht, app_assoc. split; [done|].
    by apply Forall_app.
  - by exists evs.
  - by exists evs.
Qed.

Lemma emits_try_catch {A} (P : Event → Prop) (c : M World A)
    (handler : Thrown → M World A) :
  emits P c → (∀ e, emits P (handler e)) → emits P (try_catch c handler).
Proof.
  intros Hc Hh m. destruct (Hc m) as (evs & Ht & HP).
  unfold try_catch. destruct (c m) as [m' [a|e|]]; simpl in *.
  - by exists evs.
  - destruct (Hh e m') as (evs' & Ht' & HP').
    exists (evs ++ evs'). rewrite Ht', Ht, app_assoc. split; [done|].
    by apply Forall_app.
  - by exists evs.
Qed.

Lemma emits_impl {A} (P Q : Event → Prop) (c : M World A) :
  (∀ ev, P ev → Q ev) → emits P c → emits Q c.
Proof.
  intros HPQ Hc m. destruct (Hc m) as (evs & Ht & HP).
  exists evs. split; [done|]. by eapply Forall_impl.
Qed.

Lemma within_bind_ret {A B} (r s d : nat) (a : A) (k : A → M World B) :
  within r s d (k a) → within r s d (bind (ret a) k).
Proof. intros Hk m. exact (Hk m). Qed.

End EmitsFacts.

(** One step through a computation whose events are to satisfy a
    predicate. *)
Ltac emits_leaf :=
  first
    [ apply emits_ret
    | apply emits_throw
    | apply emits_out_of_fuel
    | apply emits_ask
    | apply emits_ask_or_throw
    | apply emits_ask_may_throw
    | apply emits_emit; done ].

Ltac emits_step leaf :=
  lazymatch goal with
  | |- emits _ (bind _ _) => apply emits_bind; [leaf | intros]
  | |- emits _ (if ?b then _ else _) => destruct b eqn:?
  | |- emits _ (match ?x with _ => _ end) => destruct x eqn:?
  | |- emits _ (let _ := _ in _) => cbv zeta
  | |- emits _ _ => leaf
  end.

(** The walk of the budget proofs, with a returned value passed on. *)
Ltac walk_plain :=
  repeat first
    [ lazymatch goal with
      | |- within _ _ _ (bind (ret _) _) =>
          apply within_bind_ret; cbv beta iota
      end
    | walk_step
        ltac:(first [ walk_quiet
                    | apply property_quiet
                    | apply readResponse_quiet
                    | apply requestCompletion_quiet
                    | apply notify_quiet ])
    | apply finish_within ].

Lemma length_append (a b : string) :
  String.length (a +:+ b) = String.length a + String.length b.
Proof.
  induction a as [|c a IH]; [done|]. rewrite append_cons. simpl. by rewrite IH.
Qed.

Lemma string_drop_all (s : string) : string_drop (String.length s) s = "".
Proof. induction s as [|c s IH]; [done|]. exact IH. Qed.

Lemma string_drop_append (n : nat) (a b : string) :
  n ≤ String.length a → string_drop n (a +:+ b) = string_drop n a +:+ b.
Proof.
  revert a. induction n as [|n IH]; intros a Hn; [done|].
  destruct a as [|c a]; [simpl in Hn; lia|].
  rewrite append_cons. simpl. apply IH. simpl in Hn. lia.
Qed.

Lemma length_string_drop (n : nat) (s : string) :
  n ≤ String.length s → n + String.length (string_drop n s) = String.length s.
Proof.
  revert s. induction n as [|n IH]; intros s Hn; [done|].
  destruct s as [|c s]; [simpl in Hn; lia|].
  simpl in *. rewrite IH; lia.
Qed.

Section MoreLoopFacts.
Context {World Schema SchemaFormat ToolDefinition ActionKey Overrides : Type}.
Context `{!Collaborators World Schema SchemaFormat ToolDefinition ActionKey
            Overrides}.
Implicit Types
  (args : InferArgs Schema SchemaFormat ToolDefinition ActionKey Overrides)
  (toolCallContext : option ToolCallContext).

Lemma property_emits (P : Event → Prop) (v : JSON) (k : string) :
  emits (World := World) P (property v k).
Proof. unfold property. destruct v; emits_leaf. Qed.

Lemma inferGeminiNative_emits (fuel : nat) args toolCallContext :
  emits (World := World)
    (λ ev, is_request ev = true
           → ev = NativeRequest (a_modelName args) (nativePrompt args))
    (inferGeminiNative fuel args toolCallContext).
Proof.
  revert toolCallContext.
  induction fuel as [|fuel IH]; intros toolCallContext;
    cbn [inferGeminiNative]; cbv zeta;
    repeat emits_step
      ltac:(first [emits_leaf | apply property_emits | apply IH]).
Qed.

(** X1. Every request the native path makes within one call chain is
    the same: the model named in the arguments and the prompt built from
    the caller's conversation, the format instructions and whether tools
    are on offer. Nothing of the tool-call context, so none of the tool
    results gathered in earlier rounds, is part of it. *)
Theorem native_requests_repeat_prompt (fuel : nat) args toolCallContext
    (m : Machine World) :
  ∃ evs,
    trace (inferGeminiNative fuel args toolCallContext m).1 = trace m ++ evs
    ∧ ∀ ev, ev ∈ evs → is_request ev = true →
        ev = NativeRequest (a_modelName args)
               (buildPrompt (a_messages args)
                  (match a_schema args with
                   | Some schema =>
                       if truthy (a_schemaName args)
                       then generateTemplateForSchema schema
                              (default markdown (a_format args))
                       else ""
                   | None => ""
                   end)
                  (bool_decide (is_Some (a_tools args)))).
Proof.
  destruct (inferGeminiNative_emits fuel args toolCallContext m)
    as (evs & Ht & HP).
  exists evs. split; [done|]. intros ev Hev.
  rewrite Forall_forall in HP. by apply HP.
Qed.

Lemma inferGeminiNative_plain (fuel : nat) args toolCallContext :
  a_tools args = None →
  getMaxToolCallingDepth (a_actionKey args) - depth_of toolCallContext ≤ fuel →
  within (World := World) 1 0 (depth_of toolCallContext)
    (inferGeminiNative fuel args toolCallContext).
Proof.
  intros Htools Hfuel.
  destruct fuel as [|fuel]; cbn [inferGeminiNative]; cbv zeta;
    rewrite ?Htools;
    destruct (getMaxToolCallingDepth (a_actionKey args)
              <=? depth_of toolCallContext) eqn:Hguard;
    try (walk_plain; fail);
    apply Nat.leb_gt in Hguard; [lia|].
  walk_plain. apply within_request; [done|].
  walk_plain.
Qed.

Lemma infer_plain (fuel : nat) args toolCallContext :
  a_tools args = None →
  getMaxToolCallingDepth (a_actionKey args) - depth_of toolCallContext ≤ fuel →
  within (World := World) 1 0 (depth_of toolCallContext)
    (infer fuel args toolCallContext).
Proof.
  intros Htools Hfuel.
  destruct fuel as [|fuel]; cbn [infer]; cbv zeta;
    unfold runTools; rewrite ?Htools;
    (destruct (MAX_LLM_MESSAGES <? length (a_messages args));
       [apply within_throw|]);
    destruct (getMaxToolCallingDepth (a_actionKey args)
              <=? depth_of toolCallContext) eqn:Hguard;
    try (walk_plain; fail);
    apply Nat.leb_gt in Hguard; [lia|].
  walk_plain.
  - apply inferGeminiNative_plain; [done|lia].
  - apply within_request; [done|]. walk_plain.
Qed.

(** X2. Without tools on offer a call makes at most one request to a
    model and never calls itself again, on either path; it ends with a
    result or a throw. *)
Theorem without_tools_one_request args toolCallContext (m : Machine World) :
  a_tools args = None →
  ∃ evs,
    trace (inferRequest args toolCallContext m).1 = trace m ++ evs
    ∧ requests evs ≤ 1
    ∧ self_calls evs = []
    ∧ (inferRequest args toolCallContext m).2 ≠ OutOfFuel.
Proof.
  intros Htools.
  destruct (infer_plain _ args toolCallContext Htools (Nat.le_refl _) m)
    as (evs & Ht & Hr & Hl & _ & Hne).
  exists evs. repeat split; try done.
  destruct (self_calls evs); [done|simpl in Hl; lia].
Qed.

(** X3. A model name that is not configured: a call within the message
    limit and below the maximal depth throws [Unknown model] and leaves
    the machine as it was, so before anything is asked of the outside. *)
Theorem unknown_model_throws_first (fuel : nat) args toolCallContext
    (m : Machine World) :
  length (a_messages args) ≤ MAX_LLM_MESSAGES →
  depth_of toolCallContext < getMaxToolCallingDepth (a_actionKey args) →
  AI_MODEL_CONFIG (a_modelName args) = None →
  infer fuel args toolCallContext m
  = (m, Threw (Error ("Unknown model: " +:+ a_modelName args))).
Proof.
  intros Hlen Hdepth Hmodel.
  apply Nat.ltb_ge in Hlen. apply Nat.leb_gt in Hdepth.
  destruct fuel; cbn [infer]; rewrite Hlen; cbv zeta; by rewrite Hdepth, Hmodel.
Qed.

(** X4. A provider of the native path without its API key: a call within
    the message limit and below the maximal depth, given any fuel but
    none, throws [Missing GOOGLE_AI_STUDIO_API_KEY] and leaves the
    machine as it was: no request is made. *)
Theorem native_key_checked_first (fuel : nat) args toolCallContext
    (provider : string) (m : Machine World) :
  length (a_messages args) ≤ MAX_LLM_MESSAGES →
  depth_of toolCallContext < getMaxToolCallingDepth (a_actionKey args) →
  AI_MODEL_CONFIG (a_modelName args) = Some provider →
  requiresNativeInference provider = true →
  truthy GOOGLE_AI_STUDIO_API_KEY = false →
  infer (S fuel) args toolCallContext m
  = (m, Threw (Error "Missing GOOGLE_AI_STUDIO_API_KEY")).
Proof.
  intros Hlen Hdepth Hmodel Hnative Hkey.
  apply Nat.ltb_ge in Hlen. apply Nat.leb_gt in Hdepth.
  cbn [infer]. rewrite Hlen. cbv zeta. rewrite Hdepth, Hmodel, Hnative.
  cbn [inferGeminiNative]. cbv zeta. by rewrite Hdepth, Hkey.
Qed.

Lemma consumeStream_chunks (chunkSize : nat)
    (events : list ChatCompletionChunk) :
  ∀ (acc : Accumulator.State) (content : string) (streamIndex : nat)
    (m : Machine World),
    streamIndex ≤ String.length content →
    ∃ acc' evs rest,
      consumeStream chunkSize events acc content streamIndex m
      = ({| world := world m; trace := trace m ++ evs |},
         Returned
           (acc',
            content +:+ AccumulatorSpec.concat_strings (contentDeltas events)))
      ∧ Forall (λ ev, ∃ text, ev = ChunkSent text) evs
      ∧ string_drop streamIndex
          (content +:+ AccumulatorSpec.concat_strings (contentDeltas events))
        = AccumulatorSpec.concat_strings (chunks evs) +:+ rest
      ∧ match last events with
        | None => rest = string_drop streamIndex content
        | Some event =>
            if bool_decide (is_Some (finish_reason event)) then rest = ""
            else rest = "" ∨ String.length rest < chunkSize
        end.
Proof.
  induction events as [|event events IH];
    intros acc content streamIndex m Hidx.
  - exists acc, [], (string_drop streamIndex content).
    cbn [consumeStream contentDeltas fmap list_fmap
         AccumulatorSpec.concat_strings foldr chunks omap list_omap last].
    rewrite append_nil_r, app_nil_r. destruct m. by repeat split.
  - cbn [consumeStream]. cbv zeta.
    set (acc1 := match chunk_delta event ≫= delta_tool_calls with
                 | Some deltas => accumulateAll _ _ acc deltas
                 | None => acc
                 end).
    set (δ := default "" (chunk_delta event ≫= delta_content)).
    assert (contentDeltas (event :: events) = δ :: contentDeltas events)
      as -> by done.
    change (AccumulatorSpec.concat_strings (δ :: contentDeltas events))
      with (δ +:+ AccumulatorSpec.concat_strings (contentDeltas events)).
    rewrite <- append_assoc.
    assert (streamIndex ≤ String.length (content +:+ δ)) as Hidx'
      by (rewrite length_append; lia).
    set (slice := string_drop streamIndex (content +:+ δ)).
    destruct ((chunkSize <=? String.length slice)
              || bool_decide (is_Some (finish_reason event))) eqn:Hflush.
    + destruct (IH acc1 (content +:+ δ)
                  (streamIndex + String.length slice)
                  {| world := world m;
                     trace := trace m ++ [ChunkSent slice] |})
        as (acc' & evs & rest & Hrun & Hev & Hcat & Hrest).
      { unfold slice. rewrite length_string_drop; [done|done]. }
      exists acc', (ChunkSent slice :: evs), rest.
      unfold bind, emit. rewrite Hrun. cbn [world trace].
      rewrite <- app_assoc. split; [done|].
      split; [constructor; [by eexists|done]|].
      assert (streamIndex + String.length slice
              = String.length (content +:+ δ)) as Hend
        by (unfold slice; by apply length_string_drop).
      rewrite Hend in Hcat, Hrest.
      rewrite string_drop_append, string_drop_all in Hcat by done.
      split.
      * rewrite string_drop_append by done. fold slice.
        change (chunks (ChunkSent slice :: evs)) with (slice :: chunks evs).
        change (AccumulatorSpec.concat_strings (slice :: chunks evs))
          with (slice +:+ AccumulatorSpec.concat_strings (chunks evs)).
        rewrite append_assoc. f_equal. exact Hcat.
      * destruct events as [|event' events'].
        -- cbn [last] in *. rewrite string_drop_all in Hrest.
           destruct (bool_decide _); [done|by left].
        -- change (last (event :: event' :: events'))
             with (last (event' :: events')).
           destruct (last (event' :: events')) eqn:Hlast; [exact Hrest|].
           by apply last_None in Hlast.
    + destruct (IH acc1 (content +:+ δ) streamIndex m Hidx')
        as (acc' & evs & rest & Hrun & Hev & Hcat & Hrest).
      exists acc', evs, rest. rewrite Hrun.
      split; [done|]. split; [done|]. split; [done|].
      destruct events as [|event' events'].
      * cbn [last] in *. apply orb_false_iff in Hflush as [Hsize ->].
        right. rewrite Hrest. fold slice. by apply Nat.leb_gt.
      * change (last (event :: event' :: events'))
          with (last (event' :: events')).
        destruct (last (event' :: events')) eqn:Hlast; [exact Hrest|].
        by apply last_None in Hlast.
Qed.

(** X5. Chunking loses and repeats nothing: from an empty buffer the
    loop over a stream returns the concatenation of the content deltas,
    leaves the world alone and hands to [onChunk] texts whose
    concatenation is a prefix of that content. What is not handed over
    is empty if the last event carried a finish reason, and empty or
    shorter than [chunk_size] otherwise. *)
Theorem stream_chunks_are_prefix (chunkSize : nat)
    (events : list ChatCompletionChunk) (m : Machine World) :
  ∃ acc evs rest,
    consumeStream chunkSize events Accumulator.initial "" 0 m
    = ({| world := world m; trace := trace m ++ evs |},
       Returned (acc, AccumulatorSpec.concat_strings (contentDeltas events)))
    ∧ Forall (λ ev, ∃ text, ev = ChunkSent text) evs
    ∧ AccumulatorSpec.concat_strings (contentDeltas events)
      = AccumulatorSpec.concat_strings (chunks evs) +:+ rest
    ∧ (rest = "" ∨ String.length rest < chunkSize)
    ∧ (∀ event, last events = Some event →
         is_Some (finish_reason event) → rest = "").
Proof.
  destruct (consumeStream_chunks chunkSize events Accumulator.initial "" 0 m)
    as (acc & evs & rest & Hrun & Hev & Hcat & Hrest); [simpl; lia|].
  exists acc, evs, rest. split; [exact Hrun|]. split; [done|].
  split; [exact Hcat|]. split.
  - destruct (last events) as [event|] eqn:Hlast.
    + destruct (bool_decide _); [by left|]. destruct Hrest; auto.
    + by left.
  - intros event Hlast Hfin. rewrite Hlast in Hrest.
    by rewrite bool_decide_eq_true_2 in Hrest.
Qed.

End MoreLoopFacts.

Import Scenario.

(** One message, no tools, a fresh context. *)
Lemma without_tools_one_request_witness :
  ∃ evs,
    trace (inferRequest (plain_request short_conversation) None start).1
    = trace start ++ evs
    ∧ requests evs ≤ 1
    ∧ self_calls evs = []
    ∧ (inferRequest (plain_request short_conversation) None start).2
      ≠ OutOfFuel.
Proof.
  apply (without_tools_one_request (plain_request short_conversation) None
           start).
  reflexivity.
Defined.

Lemma unknown_model_throws_first_witness :
  infer 3 (unknown_request short_conversation) None start
  = (start, Threw (Error "Unknown model: acme/model-x")).
Proof.
  apply (unknown_model_throws_first 3 (unknown_request short_conversation)
           None start); [simpl; lia|simpl; lia|reflexivity].
Defined.

Lemma native_key_checked_first_witness :
  infer (Collaborators0 := keyless_model) 3
    (native_request short_conversation) None start
  = (start, Threw (Error "Missing GOOGLE_AI_STUDIO_API_KEY")).
Proof.
  apply (native_key_checked_first (Collaborators0 := keyless_model) 2
           (native_request short_conversation) None "google-ai-studio" start);
    [simpl; lia|simpl; lia|reflexivity..].
Defined.

(** Three rounds on the native path: the tools answer every time, and
    the three requests carry the one prompt of the conversation. *)
Example native_rounds_same_prompt :
  let run :=
    inferRequest (Collaborators0 := eager_native_model)
      (native_request short_conversation) None start in
  filter (λ ev, is_request ev = true) (trace run.1)
  = replicate 3
      (NativeRequest "google-ai-studio/gemini-2.5-pro"
         "What does the file say?")
  ∧ self_calls (trace run.1) = [1; 2; 3].
Proof. by vm_compute. Qed.

(** What [readResponse] returns of a response of the kind asked for. *)
Lemma named_are_named (toolCalls : list ToolCall) :
  Forall (λ tc, has_name (tc_name tc) = true) (named toolCalls).
Proof.
  unfold named. apply Forall_forall. by intros tc [? _]%list_elem_of_filter.
Qed.

Section ReadFacts.
Context {World Schema SchemaFormat ToolDefinition ActionKey Overrides : Type}.
Context `{!Collaborators World Schema SchemaFormat ToolDefinition ActionKey
            Overrides}.

(** X23. Of a streamed response to a streaming call and of a plain
    response to a plain call only tool calls with a name that is not
    blank are kept for execution. (A plain response to a streaming call
    is taken as it is.) *)
Theorem kept_tool_calls_are_named (stream : option StreamOptions)
    (response : ChatResponse) (m : Machine World) :
  match stream, response with
  | Some _, ChatCompletion _ => True
  | _, _ =>
      match (readResponse stream response m).2 with
      | Returned r => Forall (λ tc, has_name (tc_name tc) = true) r.2
      | _ => True
      end
  end.
Proof.
  destruct stream as [options|], response as [message|events]; try done.
  - unfold readResponse.
    destruct (consumeStream_chunks (chunk_size options) events
                Accumulator.initial "" 0 m) as (acc & evs & rest & Hrun & _);
      [simpl; lia|].
    unfold bind. rewrite Hrun. cbn [ret snd]. apply named_are_named.
  - cbn [readResponse ret snd]. apply named_are_named.
Qed.

End ReadFacts.

(** A plain response to a streaming call: its unnamed tool call is
    kept. *)
Example fallback_keeps_unnamed_call :
  (readResponse (Collaborators0 := eager_model) (Some {| chunk_size := 8 |})
     (ChatCompletion
        (Some {| cm_content := None;
                 cm_tool_calls :=
                   Some [ {| tc_id := "call_0"; tc_type := "function";
                             tc_name := ""; tc_arguments := "{}" |} ] |}))
     start).2
  = Returned ("", [ {| tc_id := "call_0"; tc_type := "function";
                       tc_name := ""; tc_arguments := "{}" |} ]).
Proof. reflexivity. Qed.

End InferenceMoreProofs.

(** ** More of the sanitizer *)
Module SanitizerMoreProofs.
Import Accumulator Messages Json Context.
Import SanitizerProofs.

Lemma keep_message_other valid m :
  role m ≠ tool → (role m = assistant → tool_calls m = None) →
  keep_message valid m = (true, valid).
Proof.
  intros Hr Ha. unfold keep_message.
  destruct (role m) eqn:Hrole; try done.
  by rewrite Ha.
Qed.

Lemma keep_message_calls valid m tcs :
  role m = assistant → tool_calls m = Some tcs →
  keep_message valid m = (true, tc_id <$> tcs).
Proof. intros Hr Ht. unfold keep_message. by rewrite Hr, Ht. Qed.

Lemma keep_message_tool valid m :
  role m = tool →
  keep_message valid m
  = (name_present m && id_is_valid valid m, valid).
Proof.
  intros Hr. unfold keep_message. rewrite Hr.
  destruct (name_present m); [|done]. by destruct (id_is_valid valid m).
Qed.

(** A second pass of the filter over what the two passes kept, from any
    set of ids that holds the non-empty ids of the first. *)
Lemma filterContext_again ctx : ∀ valid valid',
  (∀ i, i ≠ "" → i ∈ valid → i ∈ valid') →
  filterContext valid' (stripToolCalls <$> filterContext valid ctx)
  = stripToolCalls <$> filterContext valid ctx.
Proof.
  induction ctx as [|m rest IH]; intros valid valid' Hsub; [done|].
  cbn [filterContext].
  destruct (decide (role m = tool)) as [Htool|Htool].
  - rewrite keep_message_tool by done.
    destruct (name_present m && id_is_valid valid m) eqn:Hkeep;
      [|by apply IH].
    rewrite fmap_cons. cbn [filterContext].
    rewrite (stripToolCalls_other m) by congruence.
    rewrite keep_message_tool by done.
    apply andb_true_iff in Hkeep as [-> Hid].
    rewrite (id_is_valid_mono valid valid' m Hsub Hid). simpl.
    f_equal. by apply IH.
  - destruct (decide (role m = assistant)) as [Hr|Hr];
      [destruct (tool_calls m) as [tcs|] eqn:Ht|].
    + rewrite (keep_message_calls valid m tcs) by done.
      rewrite fmap_cons. cbn [filterContext].
      rewrite (stripToolCalls_assistant m tcs) by done.
      destruct (filter (λ tc, tc_id tc ≠ "") tcs) as [|x kept] eqn:Hkept.
      * simpl. rewrite keep_message_other; [|simpl; congruence|done].
        f_equal. apply IH. intros i Hi (tc & -> & Hin)%list_elem_of_fmap.
        assert (tc ∈ filter (λ tc, tc_id tc ≠ "") tcs) as Hf
          by (by apply list_elem_of_filter).
        rewrite Hkept in Hf. by apply elem_of_nil in Hf.
      * simpl.
        rewrite (keep_message_calls valid' _ (x :: kept)); [|done|done].
        f_equal. apply IH. intros i Hi (tc & -> & Hin)%list_elem_of_fmap.
        rewrite <- Hkept. apply list_elem_of_fmap. exists tc. split; [done|].
        by apply list_elem_of_filter.
    + rewrite keep_message_other by done.
      rewrite fmap_cons. cbn [filterContext].
      rewrite (stripToolCalls_no_calls m) by done.
      rewrite keep_message_other by done.
      f_equal. by apply IH.
    + rewrite keep_message_other by done.
      rewrite fmap_cons. cbn [filterContext].
      rewrite (stripToolCalls_other m) by done.
      rewrite keep_message_other by done.
      f_equal. by apply IH.
Qed.

(** X6. Sanitizing is idempotent on the context: the sanitized context,
    passed as the context of a further call, comes out as it is. *)
Theorem sanitizer_idempotent (opt : string → string) (ctx : list Message) :
  sanitize opt [] (Some (sanitize opt [] (Some ctx)))
  = sanitize opt [] (Some ctx).
Proof.
  unfold sanitize. cbn [optimizeInputs fmap list_fmap app].
  rewrite filterContext_again by done.
  rewrite <- list_fmap_compose.
  apply list_fmap_ext. intros _ m _. apply stripToolCalls_idemp.
Qed.

Lemma filterContext_sublist ctx : ∀ valid,
  filterContext valid ctx `sublist_of` ctx.
Proof.
  induction ctx as [|m rest IH]; intros valid; [done|].
  cbn [filterContext]. destruct (keep_message valid m) as [[] valid'].
  - by apply sublist_skip.
  - by apply sublist_cons.
Qed.

Lemma filterContext_keeps_others ctx : ∀ valid,
  filter (λ m, role m ≠ tool) (filterContext valid ctx)
  = filter (λ m, role m ≠ tool) ctx.
Proof.
  induction ctx as [|m rest IH]; intros valid; [done|].
  cbn [filterContext].
  destruct (decide (role m = tool)) as [Htool|Htool].
  - rewrite keep_message_tool by done.
    rewrite (filter_cons_False _ m) by (intros ?; done).
    destruct (name_present m && id_is_valid valid m); [|by apply IH].
    rewrite filter_cons_False by (intros ?; done). by apply IH.
  - assert (∃ valid', keep_message valid m = (true, valid')) as [valid' ->].
    { destruct (decide (role m = assistant)) as [Hr|Hr];
        [destruct (tool_calls m) as [tcs|] eqn:Ht|].
      - eexists. by apply keep_message_calls.
      - eexists. by apply keep_message_other.
      - eexists. by apply keep_message_other. }
    rewrite !filter_cons_True by done. f_equal. by apply IH.
Qed.

(** X7. The first pass of the sanitizer drops tool messages only: what it
    keeps is a subsequence of the context, and the messages of every
    other role are all there, in their order. *)
Theorem sanitizer_drops_only_tool_messages (ctx : list Message) :
  filterContext [] ctx `sublist_of` ctx
  ∧ filter (λ m, role m ≠ tool) (filterContext [] ctx)
    = filter (λ m, role m ≠ tool) ctx.
Proof.
  split; [apply filterContext_sublist|apply filterContext_keeps_others].
Qed.

Lemma filterContext_app ctx ctx' : ∀ valid,
  ∃ valid',
    filterContext valid (ctx ++ ctx')
    = filterContext valid ctx ++ filterContext valid' ctx'.
Proof.
  induction ctx as [|m rest IH]; intros valid; [by exists valid|].
  cbn [app filterContext].
  destruct (keep_message valid m) as [keep valid1].
  destruct (IH valid1) as (valid' & Heq). exists valid'.
  rewrite Heq. by destruct keep.
Qed.

Lemma filterContext_answers valid (results : list Message) :
  Forall (λ m, role m = tool ∧ name_present m = true
               ∧ id_is_valid valid m = true) results →
  filterContext valid results = results.
Proof.
  induction 1 as [|m rest (Hr & Hn & Hi) _ IH]; [done|].
  cbn [filterContext]. rewrite keep_message_tool by done.
  rewrite Hn, Hi. simpl. by rewrite IH.
Qed.

(** X8. What a round appends to the context passes the filter of the
    next call: when the assistant message carries the tool calls and
    every named result bears the non-empty id of one of them, the filter
    keeps the assistant message and the tool message of every named
    result, after whatever it keeps of the earlier context. *)
Theorem round_passes_next_filter (JSON_stringify : JSON → string)
    (toolCallContext : option ToolCallContext) (assistantMessage : Message)
    (toolCalls : list ToolCall) (executed : list ToolCallResult)
    (det : option CompletionDetector) :
  role assistantMessage = assistant →
  tool_calls assistantMessage = Some toolCalls →
  Forall (λ r, has_name (r_name r) = true →
               r_id r ≠ "" ∧ r_id r ∈ tc_id <$> toolCalls) executed →
  filterContext []
    (messages (updateToolCallContext JSON_stringify toolCallContext
                 assistantMessage executed det))
  = filterContext [] (from_option messages [] toolCallContext)
    ++ assistantMessage
    :: (toolMessage JSON_stringify
          <$> filter (λ r, has_name (r_name r) = true) executed).
Proof.
  intros Hr Ht Hex. unfold updateToolCallContext. cbn [messages].
  destruct (filterContext_app (from_option messages [] toolCallContext)
              ([assistantMessage]
               ++ (toolMessage JSON_stringify
                     <$> filter (λ r, has_name (r_name r) = true) executed))
              []) as (valid' & ->).
  f_equal. cbn [app filterContext].
  rewrite (keep_message_calls valid' _ toolCalls) by done.
  f_equal. apply filterContext_answers.
  apply Forall_fmap, Forall_forall. intros r [Hname Hin]%list_elem_of_filter.
  rewrite Forall_forall in Hex. destruct (Hex r Hin Hname) as [Hid Hcall].
  split; [done|]. split.
  - unfold name_present, toolMessage. cbn [name].
    unfold has_name in Hname. by apply andb_true_iff in Hname as [_ ->].
  - unfold id_is_valid, toolMessage. cbn [tool_call_id].
    apply andb_true_iff. split.
    + apply negb_true_iff. by apply String.eqb_neq.
    + by apply bool_decide_eq_true.
Qed.

(** The round of the small world: one call, one result. *)
Lemma round_passes_next_filter_witness :
  let call := mkToolCall "call_0" "read_file" in
  let answer := mkMessage assistant "reading" (Some [call]) None None in
  let result := {| r_id := "call_0"; r_name := "read_file";
                   r_result := Some (JString "contents") |} in
  filterContext []
    (messages (updateToolCallContext (λ _, "{}") None answer [result] None))
  = [answer; toolMessage (λ _, "{}") result].
Proof.
  intros call answer result.
  apply (round_passes_next_filter (λ _, "{}") None answer [call] [result]
           None); [done|done|].
  constructor; [|done]. intros _. split; [done|]. by left.
Defined.

End SanitizerMoreProofs.

(** ** More of the accumulator: a stream with one index *)
Module AccumulatorMoreProofs.
Import Accumulator AccumulatorSpec AccumulatorMore.

Lemma foldl_last {A B} (g : B → option A) (ds : list B) : ∀ init,
  foldl (λ cur d, default cur (g d)) init ds
  = default init (last (omap g ds)).
Proof.
  induction ds as [|d ds IH]; intros init; [done|].
  cbn [foldl]. rewrite IH.
  change (omap g (d :: ds))
    with (match g d with Some x => x :: omap g ds | None => omap g ds end).
  destruct (g d) as [x|]; [|done]. cbn [default].
  destruct (omap g ds) as [|y l]; [done|].
  change (last (x :: y :: l)) with (last (y :: l)).
  destruct (last (y :: l)) eqn:Hlast; [done|]. by apply last_None in Hlast.
Qed.

Lemma last_given {A B} (g : B → option A) (d : B) (ds : list B) (init : A) :
  default (default init (g d)) (last (omap g ds))
  = default init (last (omap g (d :: ds))).
Proof. by rewrite <- !foldl_last. Qed.

Section SingleIndex.
Variable JSON_parses : string → bool.
Variable synthIdForIndex : nat → Z → string.

Local Abbreviation accumulate :=
  (accumulateToolCallDelta JSON_parses synthIdForIndex).
Local Abbreviation accumulateAll' :=
  (accumulateAll JSON_parses synthIdForIndex).

Lemma given_truthy (s : option string) :
  given s = if truthy s then Some (default "" s) else None.
Proof. unfold given. destruct s as [x|]; [|done]. by destruct (truthy _). Qed.

(** What a fragment with the index [i] does to the one entry filed under
    [i]: the id and the name are replaced where the fragment gives them. *)
Lemma update_indexed_entry i e d :
  d_index d = Some i → index e = Some i →
  ∃ e',
    update_entry JSON_parses
      {| store := [e]; byIndex := [(i, 0%nat)]; byId := [(id e, 0%nat)];
         orderCounterRef := 1%nat |} 0%nat d e
    = {| store := [e']; byIndex := [(i, 0%nat)]; byId := [(id e', 0%nat)];
         orderCounterRef := 1%nat |}
    ∧ id e' = default (id e) (given (d_id d))
    ∧ fn_name e' = default (fn_name e) (given (d_function d ≫= df_name))
    ∧ index e' = Some i ∧ __order e' = __order e.
Proof.
  intros Hd Hi.
  exists {| id := default (id e) (given (d_id d)); type := type e;
            fn_name := default (fn_name e) (given (d_function d ≫= df_name));
            fn_arguments :=
              appendChunk (isComplete JSON_parses) (fn_arguments e)
                (chunk_of d);
            index := Some i; __order := __order e |}.
  split; [|done].
  unfold update_entry, chunk_of. rewrite Hd. rewrite !given_truthy.
  destruct e as [ide ty nm ar ix ord]. simpl in Hi. subst ix.
  cbn [id type fn_name fn_arguments index __order].
  destruct (truthy (d_id d)) eqn:Hid; cbn [andb default].
  - destruct (String.eqb_spec ide (default "" (d_id d))) as [Heq|Hne];
      cbn [negb];
      destruct (d_function d) as [[n [c|]]|]; cbn [mbind option_bind df_name];
      try destruct (truthy n); simpl;
      try destruct (isComplete _ _) eqn:Hc;
      simpl; rewrite ?Hc, ?decide_True by done; subst; reflexivity.
  - destruct (d_function d) as [[n [c|]]|]; cbn [mbind option_bind df_name];
      try destruct (truthy n); simpl;
      try destruct (isComplete _ _) eqn:Hc;
      simpl; rewrite ?Hc; reflexivity.
Qed.

Lemma first_indexed i d :
  d_index d = Some i →
  ∃ e, holds_index i (accumulate initial d) e
       ∧ orderCounterRef (accumulate initial d) = 1%nat
       ∧ id e = default (synthIdForIndex 0%nat i) (given (d_id d))
       ∧ fn_name e = default "" (given (d_function d ≫= df_name)).
Proof.
  intros Hd.
  set (pid := if truthy (d_id d) then default "" (d_id d)
              else synthIdForIndex 0%nat i).
  set (e0 := {| id := pid; type := "function"; fn_name := "";
                fn_arguments := ""; index := Some i; __order := 0%nat |}).
  assert (accumulate initial d
          = update_entry JSON_parses
              {| store := [e0]; byIndex := [(i, 0%nat)];
                 byId := [(pid, 0%nat)]; orderCounterRef := 1%nat |}
              0%nat d e0) as ->.
  { unfold accumulateToolCallDelta, lookup_or_create, e0, pid.
    rewrite Hd. simpl. by destruct (truthy (d_id d)). }
  destruct (update_indexed_entry i e0 d Hd eq_refl)
    as (e' & Hupd & Hid & Hname & Hidx & _).
  change (id e0) with pid in Hupd. rewrite Hupd.
  exists e'. split; [by repeat split|]. split; [done|].
  rewrite Hid, Hname. split; [|done].
  change (id e0) with pid. unfold pid. rewrite given_truthy.
  by destruct (truthy (d_id d)).
Qed.

Lemma next_indexed i st e d :
  d_index d = Some i → holds_index i st e → orderCounterRef st = 1%nat →
  ∃ e', holds_index i (accumulate st d) e'
        ∧ orderCounterRef (accumulate st d) = 1%nat
        ∧ id e' = default (id e) (given (d_id d))
        ∧ fn_name e' = default (fn_name e) (given (d_function d ≫= df_name)).
Proof.
  intros Hd (Hst & Hbi & Hbd & Hi) Hc.
  destruct st as [σ bi bd c]. simpl in *. subst σ bi bd c.
  assert (accumulate {| store := [e]; byIndex := [(i, 0%nat)];
                        byId := [(id e, 0%nat)]; orderCounterRef := 1%nat |} d
          = update_entry JSON_parses
              {| store := [e]; byIndex := [(i, 0%nat)];
                 byId := [(id e, 0%nat)]; orderCounterRef := 1%nat |}
              0%nat d e) as ->.
  { unfold accumulateToolCallDelta, lookup_or_create. rewrite Hd. simpl.
    rewrite (decide_True (P := i = i)) by done.
    destruct (truthy (d_id d)); [|done].
    by destruct (decide (id e = default "" (d_id d))). }
  destruct (update_indexed_entry i e d Hd Hi)
    as (e' & -> & Hid & Hname & Hidx & _).
  exists e'. by repeat split.
Qed.

Lemma all_indexed_at i ds : ∀ st e,
  indexed_at i ds → holds_index i st e → orderCounterRef st = 1%nat →
  ∃ e', holds_index i (accumulateAll' st ds) e'
        ∧ id e' = foldl (λ cur d, default cur (given (d_id d))) (id e) ds
        ∧ fn_name e'
          = foldl (λ cur d, default cur (given (d_function d ≫= df_name)))
              (fn_name e) ds.
Proof.
  induction ds as [|d ds IH]; intros st e Hall Hst Hc; [by exists e|].
  apply Forall_cons in Hall as [Hd Hall].
  destruct (next_indexed i st e d Hd Hst Hc) as (e1 & H1 & Hc1 & Hid & Hn).
  destruct (IH _ e1 Hall H1 Hc1) as (e' & He' & Hid' & Hn').
  exists e'. unfold accumulateAll in *. cbn [foldl].
  rewrite <- Hid, <- Hn. by split.
Qed.

(** X9. A stream whose fragments all carry the same index accumulates
    into one entry, filed once under the index and once under its id.
    Its id is the last id a fragment gave, and the synthesized id if none
    did; its name is the last name a fragment gave, and empty if none
    did; the assembled list is the one call made of it. *)
Theorem one_index_one_call (i : Z) (ds : list ToolCallDelta) :
  ds ≠ [] → indexed_at i ds →
  ∃ e,
    store (accumulateAll' initial ds) = [e]
    ∧ JsMap.keys (byIndex (accumulateAll' initial ds)) = [i]
    ∧ JsMap.keys (byId (accumulateAll' initial ds)) = [id e]
    ∧ id e = default (synthIdForIndex 0%nat i) (last (givenIds ds))
    ∧ fn_name e = default "" (last (givenNames ds))
    ∧ assembleToolCalls (accumulateAll' initial ds) = [toToolCall e].
Proof.
  intros Hne Hall. destruct ds as [|d ds]; [done|].
  apply Forall_cons in Hall as [Hd Hall].
  destruct (first_indexed i d Hd) as (e1 & H1 & Hc1 & Hid1 & Hn1).
  destruct (all_indexed_at i ds _ e1 Hall H1 Hc1)
    as (e & (Hst & Hbi & Hbd & Hi) & Hid & Hn).
  exists e. unfold accumulateAll in *. cbn [foldl].
  rewrite Hst, Hbi, Hbd. repeat split; try done.
  - rewrite Hid, Hid1, (foldl_last (λ d, given (d_id d))).
    apply (last_given (λ d, given (d_id d))).
  - rewrite Hn, Hn1, (foldl_last (λ d, given (d_function d ≫= df_name))).
    apply (last_given (λ d, given (d_function d ≫= df_name))).
  - unfold assembleToolCalls, deref. rewrite Hbi, Hst. done.
Qed.

End SingleIndex.

(** Three fragments of the call at index 0: the id arrives with the
    second, the third renames the function. *)
Lemma one_index_one_call_witness :
  let ds := [ mkDelta (Some 0) None (Some "read") (Some "{");
              mkDelta (Some 0) (Some "call_7") None (Some "}");
              mkDelta (Some 0) None (Some "read_file") None ] in
  ∃ e,
    store (accumulateAll parses_braced synth_tally initial ds) = [e]
    ∧ JsMap.keys (byIndex (accumulateAll parses_braced synth_tally initial ds))
      = [0]
    ∧ JsMap.keys (byId (accumulateAll parses_braced synth_tally initial ds))
      = [id e]
    ∧ id e = default (synth_tally 0%nat 0) (last (givenIds ds))
    ∧ fn_name e = default "" (last (givenNames ds))
    ∧ assembleToolCalls (accumulateAll parses_braced synth_tally initial ds)
      = [toToolCall e].
Proof.
  intros ds.
  apply (one_index_one_call parses_braced synth_tally 0 ds); [done|].
  repeat constructor.
Defined.

Example index_stream_takes_late_id :
  assembleToolCalls
    (accumulateAll parses_braced synth_tally initial
       [ mkDelta (Some 0) None (Some "read") (Some "{");
         mkDelta (Some 0) (Some "call_7") None (Some "}");
         mkDelta (Some 0) None (Some "read_file") None ])
  = [ {| tc_id := "call_7"; tc_type := "function"; tc_name := "read_file";
         tc_arguments := "{}" |} ].
Proof. reflexivity. Qed.

End AccumulatorMoreProofs.

(** ** More of the array repair *)
Module NormalizeMoreProofs.
Import Json Normalize JsonProofs NormalizeProofs.
Local Open Scope nat_scope.

(** X10. The repair returns on every value, and in an object it returns
    none of [views], [implementationRoadmap], [pitfalls], [frameworks],
    [colorPalette] and the [files] of an [initialPhase] object is a plain
    object any more; the three string lists, where they are arrays, hold
    strings only. *)
Theorem repair_returns_arrays (raw : JSON) :
  ∃ v,
    normalizeBlueprintData raw = Some v
    ∧ ∀ props, v = JObject props →
        (∀ key x,
           key ∈ ["views"; "implementationRoadmap"; "pitfalls"; "frameworks";
                  "colorPalette"] →
           obj_get props key = Some x → not_object x)
        ∧ (∀ key items,
             key ∈ ["pitfalls"; "frameworks"; "colorPalette"] →
             obj_get props key = Some (JArray items) →
             Forall (λ x, is_string x = true) items)
        ∧ (∀ ip x,
             obj_get props "initialPhase" = Some (JObject ip) →
             obj_get ip "files" = Some x → not_object x).
Proof.
  unfold normalizeBlueprintData.
  destruct (normalizeFuel_total (depth raw) raw) as (v & Hv & _); [done|].
  exists v. split; [done|]. intros props ->.
  apply normalizeFuel_repaired in Hv.
  inversion Hv as [| | | | |? _ Hkeyed Hip Hstr]; subst.
  split; [|split].
  - intros key x Hkey Hget. revert Hkey.
    rewrite !elem_of_cons, elem_of_nil.
    intros [->|[->|[->|[->|[->|[]]]]]].
    1,2: eapply Hkeyed; [|done]; rewrite !elem_of_cons; tauto.
    all: eapply Hstr; [|done]; rewrite !elem_of_cons; tauto.
  - intros key items Hkey Hget.
    by destruct (Hstr key _ Hkey Hget) as [_ Hitems]; apply Hitems.
  - intros ip x Hget Hfiles. destruct (Hip ip Hget) as [_ Hf].
    by eapply Hf.
Qed.

Lemma obj_define_keys o k v :
  is_Some (obj_get o k) → (obj_define o k v).*1 = o.*1.
Proof.
  intros Hk. unfold obj_define.
  rewrite (proj2 (obj_has_true o k) Hk). apply obj_replace_keys.
Qed.

Section Keys.
Variable rec : JSON → option JSON.

Lemma normalize_keyed_keys field key n n' :
  normalize_keyed rec field key n = Some n' → n'.*1 = n.*1.
Proof.
  unfold normalize_keyed. destruct (obj_get n key) as [v|] eqn:Hg;
    [|by intros [= <-]].
  destruct v; try (by intros [= <-]).
  - destruct (mapM rec items); [|done]. intros [= <-].
    by apply obj_define_keys.
  - destruct (mapM _ props); [|done]. intros [= <-].
    by apply obj_define_keys.
Qed.

Lemma normalize_initialPhase_keys n n' :
  normalize_initialPhase rec n = Some n' → n'.*1 = n.*1.
Proof.
  unfold normalize_initialPhase.
  destruct (obj_get n "initialPhase") as [v|] eqn:Hg; [|by intros [= <-]].
  destruct v; try (by intros [= <-]).
  destruct (rec _) as [ip1|]; [|done]. simpl.
  destruct (normalize_files rec ip1); [|done]. intros [= <-].
  by apply obj_define_keys.
Qed.

Lemma normalize_strings_keys key n : (normalize_strings key n).*1 = n.*1.
Proof.
  unfold normalize_strings. destruct (obj_get n key) as [v|] eqn:Hg; [|done].
  destruct v; try done; by apply obj_define_keys.
Qed.

End Keys.

(** X11. Of an object the repair returns an object with the same keys in
    the same order, and every field other than [views],
    [implementationRoadmap], [initialPhase], [pitfalls], [frameworks] and
    [colorPalette] with the value it had. *)
Theorem repair_touches_six_fields (props : obj) :
  Canonical props →
  ∃ props',
    normalizeBlueprintData (JObject props) = Some (JObject props')
    ∧ props'.*1 = props.*1
    ∧ ∀ k,
        k ∉ ["views"; "implementationRoadmap"; "initialPhase"; "pitfalls";
             "frameworks"; "colorPalette"] →
        obj_get props' k = obj_get props k.
Proof.
  intros Hc. unfold normalizeBlueprintData.
  destruct (normalizeFuel_total (depth (JObject props)) (JObject props))
    as (v & Hv & _); [done|].
  rewrite Hv. cbn [normalizeFuel] in Hv.
  set (rec := normalizeFuel (depth (JObject props))) in Hv.
  assert (∀ x y, rec x = Some y → Repaired y) as Hrec
    by apply normalizeFuel_repaired.
  unfold normalizeBody in Hv. rewrite (spread_canonical_id props Hc) in Hv.
  destruct (normalize_keyed rec "name" "views" props) as [n1|] eqn:H1;
    [|done]. simpl in Hv.
  destruct (normalize_keyed rec "phase" "implementationRoadmap" n1)
    as [n2|] eqn:H2; [|done]. simpl in Hv.
  destruct (normalize_initialPhase rec n2) as [n3|] eqn:H3; [|done].
  simpl in Hv. injection Hv as <-.
  eexists. split; [done|]. split.
  - rewrite !normalize_strings_keys.
    rewrite (normalize_initialPhase_keys rec _ _ H3).
    rewrite (normalize_keyed_keys rec _ _ _ _ H2).
    by rewrite (normalize_keyed_keys rec _ _ _ _ H1).
  - intros k Hk. rewrite !not_elem_of_cons in Hk.
    destruct Hk as (K1 & K2 & K3 & K4 & K5 & K6 & _).
    apply (normalize_keyed_shape rec Hrec) in H1 as (C1 & E1 & _);
      [|rewrite !elem_of_cons; tauto|done].
    apply (normalize_keyed_shape rec Hrec) in H2 as (C2 & E2 & _);
      [|rewrite !elem_of_cons; tauto|done].
    apply (normalize_initialPhase_shape rec Hrec) in H3 as (C3 & E3 & _);
      [|done].
    destruct (normalize_strings_shape "pitfalls" n3 C3) as (C4 & E4 & _).
    destruct (normalize_strings_shape "frameworks" _ C4) as (C5 & E5 & _).
    destruct (normalize_strings_shape "colorPalette" _ C5) as (C6 & E6 & _).
    by rewrite E6, E5, E4, E3, E2, E1.
Qed.

(** A blueprint with a title, views given as an object and a list of
    pitfalls. *)
Lemma repair_touches_six_fields_witness :
  let props :=
    [ ("title", str "Shop");
      ("views", JObject [("Home", JObject [("description", str "start")])]);
      ("pitfalls", JArray [str "slow"; JNumber 1]) ] in
  ∃ props',
    normalizeBlueprintData (JObject props) = Some (JObject props')
    ∧ props'.*1 = props.*1
    ∧ ∀ k,
        k ∉ ["views"; "implementationRoadmap"; "initialPhase"; "pitfalls";
             "frameworks"; "colorPalette"] →
        obj_get props' k = obj_get props k.
Proof.
  intros props. apply (repair_touches_six_fields props).
  split.
  - cbn. repeat constructor; rewrite ?elem_of_cons, ?elem_of_nil; intuition
      discriminate.
  - cbn. repeat constructor.
Defined.

End NormalizeMoreProofs.

(** ** API keys and the configuration of a model *)
Module ApiKeysProofs.
Import RateLimit ApiKeys.
Local Open Scope nat_scope.

Lemma length_map_chars (f : ascii → ascii) (s : string) :
  String.length (map_chars f s) = String.length s.
Proof. induction s as [|c s IH]; [done|]. simpl. by rewrite IH. Qed.

Lemma eqb_length (a b : string) :
  String.length a ≠ String.length b → String.eqb a b = false.
Proof. intros Hne. apply String.eqb_neq. by intros ->. Qed.

Lemma trim_end_length (s : string) :
  String.length (trim_end s) ≤ String.length s.
Proof.
  induction s as [|c s IH]; [done|]. simpl.
  destruct (trim_end s); [destruct (is_white_space c)|]; simpl in *; lia.
Qed.

Lemma trim_start_length (s : string) :
  String.length (trim_start s) ≤ String.length s.
Proof.
  induction s as [|c s IH]; [done|]. simpl.
  destruct (is_white_space c); simpl; lia.
Qed.

Lemma trim_length (s : string) : String.length (trim s) ≤ String.length s.
Proof.
  unfold trim. etrans; [apply trim_end_length|apply trim_start_length].
Qed.

(** X12. A key is valid exactly when it is there and what is left of it
    after trimming has ten characters or more: the comparisons with
    [default] and [none] reject nothing that the length does not. *)
Theorem valid_key_iff_long (apiKey : option string) :
  isValidApiKey apiKey = true
  ↔ ∃ k, apiKey = Some k ∧ 10 ≤ String.length (trim k).
Proof.
  split.
  - destruct apiKey as [k|]; [|done]. unfold isValidApiKey.
    destruct (_ || _); [done|].
    destruct (String.length (trim k) <? 10) eqn:Hlen;
      [by rewrite orb_true_r|].
    intros _. exists k. split; [done|]. by apply Nat.ltb_ge.
  - intros (k & -> & Hlen). unfold isValidApiKey.
    pose proof (trim_length k) as Hk.
    rewrite (eqb_length k "") by (simpl; lia).
    rewrite (eqb_length (trim k) "") by (simpl; lia).
    rewrite (eqb_length (toLowerCase (trim k)) "default")
      by (unfold toLowerCase; rewrite length_map_chars; simpl; lia).
    rewrite (eqb_length (toLowerCase (trim k)) "none")
      by (unfold toLowerCase; rewrite length_map_chars; simpl; lia).
    simpl. by rewrite (proj2 (Nat.ltb_ge _ _) Hlen).
Qed.

Section Env.
Variable env : string → option string.

(** What [getApiKey] ends in, branch by branch. *)
Lemma getApiKey_outcome (provider : string)
    (runtimeOverrides : option RuntimeOverrides) :
  match getApiKey env provider runtimeOverrides with
  | inr key =>
      isValidApiKey key = true
      ∨ (provider ≠ "deepseek" ∧ key = gatewayToken env runtimeOverrides
         ∧ isValidApiKey (envValue env provider) = false)
  | inl e =>
      (provider = "deepseek" ∧ e = deepseekKeyRequired
       ∧ isValidApiKey (env "DEEPSEEK_API_KEY") = false)
      ∨ (e = TypeError ∧ provider ∈ Object_prototype
         ∧ ∃ keys, runtimeOverrides ≫= userApiKeys = Some keys
                   ∧ JsMap.get keys provider = None)
  end.
Proof.
  assert (match
            (if negb (isValidApiKey (envValue env provider))
             then if String.eqb provider "deepseek"
                  then inl deepseekKeyRequired
                  else inr (gatewayToken env runtimeOverrides)
             else inr (envValue env provider))
          with
          | inr key =>
              isValidApiKey key = true
              ∨ (provider ≠ "deepseek"
                 ∧ key = gatewayToken env runtimeOverrides
                 ∧ isValidApiKey (envValue env provider) = false)
          | inl e =>
              (provider = "deepseek" ∧ e = deepseekKeyRequired
               ∧ isValidApiKey (env "DEEPSEEK_API_KEY") = false)
              ∨ (e = TypeError ∧ provider ∈ Object_prototype
                 ∧ ∃ keys, runtimeOverrides ≫= userApiKeys = Some keys
                           ∧ JsMap.get keys provider = None)
          end) as Henv.
  { destruct (isValidApiKey (envValue env provider)) eqn:Hk; simpl;
      [by left|].
    destruct (String.eqb_spec provider "deepseek") as [->|Hne].
    - left. by repeat split.
    - right. by repeat split. }
  unfold getApiKey.
  destruct (runtimeOverrides ≫= userApiKeys) as [keys|] eqn:Hkeys;
    [|exact Henv].
  unfold object_get.
  destruct (JsMap.get keys provider) as [key|] eqn:Hget.
  - cbn [runtimeKeyIsValid].
    destruct (truthy (Some key) && isValidApiKey (Some key)) eqn:Hrun;
      [|exact Henv].
    left. by apply andb_true_iff in Hrun as [_ ?].
  - destruct (bool_decide (provider ∈ Object_prototype)) eqn:Hin;
      cbn [runtimeKeyIsValid]; [|exact Henv].
    right. apply bool_decide_eq_true in Hin. split; [done|].
    split; [done|]. by exists keys.
Qed.

(** X13. What [getApiKey] gives back: a valid key, or else, and never for
    DeepSeek, the gateway token of the overrides or the environment,
    whatever that is. It throws the DeepSeek error for DeepSeek only,
    when neither the runtime key nor [DEEPSEEK_API_KEY] is valid; and it
    throws a [TypeError] exactly when the object of user keys is there,
    has no own property of the provider's name, and that name is one
    every object inherits, such as [toString]. *)
Theorem api_key_valid_or_gateway_token (provider : string)
    (runtimeOverrides : option RuntimeOverrides) :
  match getApiKey env provider runtimeOverrides with
  | inr key =>
      isValidApiKey key = true
      ∨ (provider ≠ "deepseek" ∧ key = gatewayToken env runtimeOverrides
         ∧ isValidApiKey (envValue env provider) = false)
  | inl e =>
      (provider = "deepseek" ∧ e = deepseekKeyRequired
       ∧ isValidApiKey (env "DEEPSEEK_API_KEY") = false)
      ∨ e = TypeError
  end
  ∧ (getApiKey env provider runtimeOverrides = inl TypeError
     ↔ provider ∈ Object_prototype
       ∧ ∃ keys, runtimeOverrides ≫= userApiKeys = Some keys
                 ∧ JsMap.get keys provider = None).
Proof.
  pose proof (getApiKey_outcome provider runtimeOverrides) as Hout.
  split.
  - destruct (getApiKey env provider runtimeOverrides) as [e|key]; [|done].
    destruct Hout as [?|[? _]]; [by left|by right].
  - split.
    + intros Heq. rewrite Heq in Hout.
      by destruct Hout as [(_ & ? & _)|(_ & ? & ?)].
    + intros (Hin & keys & Hkeys & Hget). unfold getApiKey.
      rewrite Hkeys. unfold object_get. rewrite Hget.
      by rewrite bool_decide_eq_true_2.
Qed.

Section Gateway.
Variable buildGatewayUrl :
  option string → option GatewayOverride → Thrown + string.

(** X14. For DeepSeek a configuration is returned with a valid key only,
    on the direct route and through the gateway alike; otherwise the
    call throws. *)
Theorem deepseek_configuration_has_valid_key (direct : bool)
    (runtimeOverrides : option RuntimeOverrides) :
  match getConfigurationForModel env buildGatewayUrl
          {| provider := "deepseek"; directOverride := direct |}
          runtimeOverrides with
  | inr configuration => isValidApiKey (apiKey configuration) = true
  | inl _ => True
  end.
Proof.
  unfold getConfigurationForModel. cbn [provider directOverride].
  destruct direct; cbn [String.eqb Ascii.eqb Bool.eqb].
  - destruct (negb (truthy _) || negb (isValidApiKey _)) eqn:Hk; [done|].
    apply orb_false_iff in Hk as [_ Hk]. by apply negb_false_iff in Hk.
  - destruct (buildGatewayUrl None _); [done|].
    pose proof (getApiKey_outcome "deepseek" runtimeOverrides) as Hkey.
    destruct (getApiKey env "deepseek" runtimeOverrides) as [e|key]; [done|].
    cbn [apiKey]. by destruct Hkey as [?|[? _]].
Qed.

(** X15. The [cf-aig-authorization] header is set only on a route
    through the gateway, only with a gateway token that is not empty,
    and only when the key in use is not that token; it then carries the
    token. *)
Theorem gateway_header_only_with_other_key (modelConfig : AIModelConfig)
    (runtimeOverrides : option RuntimeOverrides) :
  match getConfigurationForModel env buildGatewayUrl modelConfig
          runtimeOverrides with
  | inr configuration =>
      ∀ headers, defaultHeaders configuration = Some headers →
        ∃ token forced,
          gatewayToken env runtimeOverrides = Some token
          ∧ token ≠ ""
          ∧ apiKey configuration ≠ Some token
          ∧ headers = [("cf-aig-authorization", "Bearer " +:+ token)]
          ∧ buildGatewayUrl forced (runtimeOverrides ≫= aiGatewayOverride)
            = inr (baseURL configuration)
  | inl _ => True
  end.
Proof.
  assert (∀ forced,
    match
      match buildGatewayUrl forced (runtimeOverrides ≫= aiGatewayOverride)
      with
      | inl e => inl e
      | inr url =>
          match getApiKey env (provider modelConfig) runtimeOverrides with
          | inl e => inl e
          | inr key =>
              inr {| baseURL := url; apiKey := key;
                     defaultHeaders :=
                       if truthy (gatewayToken env runtimeOverrides)
                          && negb (bool_decide
                                     (key = gatewayToken env runtimeOverrides))
                       then Some [("cf-aig-authorization",
                                   "Bearer "
                                   +:+ default ""
                                         (gatewayToken env runtimeOverrides))]
                       else None |}
          end
      end
    with
    | inr configuration =>
        ∀ headers, defaultHeaders configuration = Some headers →
          ∃ token forced,
            gatewayToken env runtimeOverrides = Some token
            ∧ token ≠ ""
            ∧ apiKey configuration ≠ Some token
            ∧ headers = [("cf-aig-authorization", "Bearer " +:+ token)]
            ∧ buildGatewayUrl forced (runtimeOverrides ≫= aiGatewayOverride)
              = inr (baseURL configuration)
    | inl _ => True
    end) as Hgateway.
  { intros forced.
    destruct (buildGatewayUrl forced _) as [e|url] eqn:Hurl; [done|].
    destruct (getApiKey env _ _) as [e|key]; [done|].
    cbn [defaultHeaders apiKey baseURL]. intros headers.
    destruct (gatewayToken env runtimeOverrides) as [token|] eqn:Htoken;
      [|done].
    destruct (truthy (Some token)) eqn:Ht; [|done].
    destruct (bool_decide (key = Some token)) eqn:Hk; [done|].
    cbn [andb negb default]. intros [= <-].
    exists token, forced. split; [done|]. split.
    - intros ->. by vm_compute in Ht.
    - split; [by apply bool_decide_eq_false in Hk|]. by split. }
  unfold getConfigurationForModel.
  destruct (directOverride modelConfig); [|apply Hgateway].
  repeat (match goal with
          | |- context [if String.eqb ?a ?b then _ else _] =>
              destruct (String.eqb a b)
          end; [by intros headers|]).
  destruct (String.eqb _ "deepseek"); [|apply Hgateway].
  by destruct (negb _ || negb _).
Qed.

End Gateway.

(** X16. On the direct route of OpenRouter, Anthropic, Grok, OpenAI and
    DeepSeek neither the runtime overrides nor the gateway take part: the
    outcome is the same whatever they are. *)
Theorem direct_route_ignores_overrides (modelConfig : AIModelConfig)
    (gateway gateway' : option string → option GatewayOverride
                        → Thrown + string)
    (runtimeOverrides runtimeOverrides' : option RuntimeOverrides) :
  directOverride modelConfig = true →
  provider modelConfig
    ∈ ["openrouter"; "anthropic"; "grok"; "openai"; "deepseek"] →
  getConfigurationForModel env gateway modelConfig runtimeOverrides
  = getConfigurationForModel env gateway' modelConfig runtimeOverrides'.
Proof.
  intros Hdirect Hprovider. unfold getConfigurationForModel.
  rewrite Hdirect. revert Hprovider. rewrite !elem_of_cons, elem_of_nil.
  intros [->|[->|[->|[->|[->|[]]]]]]; reflexivity.
Qed.

End Env.

(** A user key for OpenAI is of no effect on the direct route. *)
Lemma direct_route_ignores_overrides_witness :
  getConfigurationForModel demo_env demo_gateway
    {| provider := "openai"; directOverride := true |}
    (Some {| userApiKeys := Some [("openai", "sk-user-key-0123456789")];
             aiGatewayOverride := None |})
  = getConfigurationForModel demo_env demo_gateway
      {| provider := "openai"; directOverride := true |} None.
Proof.
  apply (direct_route_ignores_overrides demo_env
           {| provider := "openai"; directOverride := true |});
    [reflexivity|].
  rewrite !elem_of_cons. tauto.
Defined.

(** Through the gateway the user's key is used, and the header carries
    the gateway token; DeepSeek with the key [default] is refused. *)
Example gateway_route_scenario :
  getConfigurationForModel demo_env demo_gateway
    {| provider := "openai"; directOverride := false |}
    (Some {| userApiKeys := Some [("openai", "sk-user-key-0123456789")];
             aiGatewayOverride := None |})
  = inr {| baseURL := "https://gateway.example/v1/compat";
           apiKey := Some "sk-user-key-0123456789";
           defaultHeaders :=
             Some [("cf-aig-authorization", "Bearer gateway-token-xyz")] |}
  ∧ getApiKey demo_env "deepseek" None = inl deepseekKeyRequired
  ∧ getApiKey demo_env "anthropic" None = inr (Some "gateway-token-xyz").
Proof. by vm_compute. Qed.

(** A provider named like a member every object inherits: the lookup in
    the user's keys finds that member, and the call throws; with the key
    as an own property it is returned. *)
Example inherited_member_is_no_key :
  getApiKey demo_env "toString"
    (Some {| userApiKeys := Some [("openai", "sk-user-key-0123456789")];
             aiGatewayOverride := None |})
  = inl TypeError
  ∧ getApiKey demo_env "toString"
      (Some {| userApiKeys := Some [("toString", "sk-user-key-0123456789")];
               aiGatewayOverride := None |})
    = inr (Some "sk-user-key-0123456789")
  ∧ getApiKey demo_env "toString" None = inr (Some "gateway-token-xyz").
Proof. by vm_compute. Qed.

(** A no-break space is trimmed like a space: nine characters after one
    are no valid key, ten are. *)
Example no_break_space_is_trimmed :
  let nbsp := String (ascii_of_nat 160) EmptyString in
  isValidApiKey (Some (nbsp +:+ "123456789")) = false
  ∧ isValidApiKey (Some (nbsp +:+ "1234567890" +:+ nbsp)) = true
  ∧ trim (nbsp +:+ " key " +:+ nbsp) = "key".
Proof. by vm_compute. Qed.

End ApiKeysProofs.

(** ** Routing, delays and the history of a call chain *)
Module MiscProofs.
Import Accumulator Messages Json Context RateLimit Inference.

(** X17. Only the provider [google-ai-studio] is routed to the native
    path; every other name, configured or not, takes the
    OpenAI-compatible one. *)
Theorem native_route_only_for_google (provider : string) :
  requiresNativeInference provider = true ↔ provider = "google-ai-studio".
Proof.
  unfold requiresNativeInference, PROVIDER_CAPABILITIES.
  cbn [JsMap.get].
  repeat (case_decide; [subst; cbn; split; [done|discriminate]|]).
  case_decide; [by subst|].
  case_decide; [subst; cbn; split; [done|discriminate]|].
  split; [done|]. by intros ->.
Qed.

Lemma to_millis_positive (q : Q) : (0 < q)%Q → 1 ≤ to_millis q.
Proof.
  intros Hq. unfold to_millis.
  pose proof (Qle_ceiling (q * 1000)) as Hc.
  assert (0 < q * 1000)%Q as Hpos.
  { apply Qmult_lt_0_compat; [done|reflexivity]. }
  pose proof (Qlt_le_trans _ _ _ Hpos Hc) as Hlt.
  unfold Qlt in Hlt. simpl in Hlt. lia.
Qed.

Lemma find_retry_info_throws (details : list JSON) (e : Thrown) :
  find_retry_info details = inl e → e = TypeError.
Proof.
  induction details as [|d details IH]; [done|]. cbn [find_retry_info].
  destruct d; cbn [is_retry_info]; try done; [by intros [= <-]|].
  by destruct (match obj_get props "@type" with
               | Some (JString t) => _ | _ => false end).
Qed.

Section Delay.
Variable parseFloat : string → option Q.
Variable JSON_parse : string → option JSON.
Variable show_number : Q → string.
Variable ToString : JSON → string.

(** X18. A rate-limit error made by the handler around the
    chat-completion call, or inside the [try] of the native handler,
    always carries a delay, of one millisecond at least: a header or
    body value that is zero, negative or no number falls back to the
    default. *)
Theorem rate_limit_delay_positive
    (toolCallContext : option ToolCallContext) (error : TransportError)
    (res : HttpResponse) :
  match classifyTransportError parseFloat show_number toolCallContext error
  with
  | RateLimitExceededError _ ms => ∃ n, ms = Some n ∧ 1 ≤ n
  | _ => True
  end
  ∧ match geminiRateLimitTry parseFloat JSON_parse show_number ToString res
    with
    | RateLimitExceededError _ ms => ∃ n, ms = Some n ∧ 1 ≤ n
    | _ => True
    end.
Proof.
  split.
  - unfold classifyTransportError.
    destruct (e_instanceof_Error error && _); [done|].
    destruct (js_or number_truthy _ _) as [status|]; [|done].
    destruct (decide (status = 429)) as [->|Hne].
    + eexists. split; [done|].
      destruct (js_or header_truthy _ _) as [h|]; [|done].
      destruct (header_truthy h); [|done].
      destruct (match h with HString s => parseFloat s | HNumber q => Some q
                end) as [q|]; [|done].
      destruct (Qlt_le_dec 0 q); [by apply to_millis_positive|done].
    + destruct status as [|p|p]; try done.
      repeat (destruct p as [p|p|]; try done).
  - unfold geminiRateLimitTry.
    destruct (JSON_parse _) as [errorJson|]; [|done].
    assert (∀ q, (0 < q)%Q →
              ∃ n, Some (to_millis q) = Some n ∧ 1 ≤ n) as Hfinish.
    { intros q Hq. eexists. split; [done|]. by apply to_millis_positive. }
    assert (∃ n, Some (to_millis 34) = Some n ∧ 1 ≤ n) as Hdefault.
    { apply Hfinish. reflexivity. }
    repeat first
      [ done
      | by apply Hfinish
      | match goal with
        | |- context [Qlt_le_dec 0 ?q] => destruct (Qlt_le_dec 0 q)
        | |- match (match ?x with _ => _ end) with _ => _ end =>
            destruct x eqn:?
        | |- match (if ?b then _ else _) with _ => _ end => destruct b eqn:?
        | |- match (let _ := _ in _) with _ => _ end => cbv zeta
        end ].
  match goal with
  | H : find_retry_info _ = inl _ |- _ => by apply find_retry_info_throws in H as ->
  end.
Qed.

End Delay.

Section History.
Variable JSON_stringify : JSON → string.

Lemma update_extends ctx am ex det :
  from_option messages [] ctx
    `prefix_of` messages (updateToolCallContext JSON_stringify ctx am ex det).
Proof. unfold updateToolCallContext. cbn [messages]. by eexists. Qed.

Lemma contexts_history det rounds : ∀ ctx i c,
  contexts JSON_stringify det ctx rounds !! i = Some c →
  depth c = (from_option depth 0 ctx + S i)%nat
  ∧ from_option messages [] ctx `prefix_of` messages c.
Proof.
  induction rounds as [|[am ex] rounds IH]; intros ctx i c Hi; [done|].
  cbn [contexts] in Hi. destruct i as [|i].
  - injection Hi as <-. split; [|apply update_extends].
    unfold updateToolCallContext. cbn [depth]. lia.
  - cbn [lookup list_lookup] in Hi. apply IH in Hi as [Hd Hp].
    cbn [from_option] in Hd, Hp. split.
    + rewrite Hd. unfold updateToolCallContext. cbn [depth]. lia.
    + etrans; [apply update_extends|exact Hp].
Qed.

(** X19. The history of a call chain only grows: the context after any
    number of rounds has a depth that is the initial depth plus the
    number of rounds, and its messages start with the messages of every
    context before it, the initial one included. *)
Theorem history_is_append_only (det : option CompletionDetector)
    (ctx : option ToolCallContext) (rounds : list Round) :
  length (contexts JSON_stringify det ctx rounds) = length rounds
  ∧ (∀ i c, contexts JSON_stringify det ctx rounds !! i = Some c →
       depth c = (from_option depth 0 ctx + S i)%nat
       ∧ from_option messages [] ctx `prefix_of` messages c)
  ∧ (∀ i j ci cj, (i ≤ j)%nat →
       contexts JSON_stringify det ctx rounds !! i = Some ci →
       contexts JSON_stringify det ctx rounds !! j = Some cj →
       messages ci `prefix_of` messages cj).
Proof.
  split; [|split; [apply contexts_history|]].
  - revert ctx. induction rounds as [|[am ex] rounds IH]; intros ctx; [done|].
    cbn [contexts length]. by rewrite IH.
  - revert ctx. induction rounds as [|[am ex] rounds IH];
      intros ctx i j ci cj Hij Hi Hj; [done|].
    cbn [contexts] in Hi, Hj. destruct i as [|i], j as [|j]; try lia.
    + injection Hi as <-. by injection Hj as <-.
    + injection Hi as <-. cbn [lookup list_lookup] in Hj.
      by apply contexts_history in Hj as [_ Hp].
    + cbn [lookup list_lookup] in Hi, Hj. eapply IH; [|done|done]. lia.
Qed.

End History.

End MiscProofs.

(** ** The loop after a completion signal, and the format step *)
Module InferenceSignalProofs.
Import Accumulator Messages Json Context RateLimit Inference InferenceSpec.
Import InferenceProofs InferenceMoreProofs.
Local Open Scope nat_scope.

Section SignalFacts.
Context {World Schema SchemaFormat ToolDefinition ActionKey Overrides : Type}.
Context `{!Collaborators World Schema SchemaFormat ToolDefinition ActionKey
            Overrides}.
Implicit Types
  (args : InferArgs Schema SchemaFormat ToolDefinition ActionKey Overrides)
  (toolCallContext : option ToolCallContext).

Lemma signal_kept toolCallContext (s : CompletionSignal)
    (am : Message) (ex : list ToolCallResult)
    (det : option CompletionDetector) :
  toolCallContext ≫= completionSignal = Some s →
  completionSignal (updateToolCallContext JSON_stringify toolCallContext
                      am ex det) = Some s.
Proof.
  intros Hs. unfold updateToolCallContext. cbn [completionSignal].
  by rewrite Hs.
Qed.

Lemma signal_after_sanitize toolCallContext :
  afterSanitize toolCallContext ≫= completionSignal
  = toolCallContext ≫= completionSignal.
Proof. by destruct toolCallContext. Qed.

(** A branch that recurses is not there once the signal is set. *)
Ltac no_recursion Hs :=
  exfalso;
  repeat match goal with
         | H : context [completionSignal (updateToolCallContext _ _ _ _ _)]
           |- _ =>
             rewrite (signal_kept _ _ _ _ _ Hs) in H
         end;
  simpl in *; congruence.

Lemma inferGeminiNative_signaled (fuel : nat) args toolCallContext
    (s : CompletionSignal) :
  toolCallContext ≫= completionSignal = Some s → signaled s = true →
  getMaxToolCallingDepth (a_actionKey args) - depth_of toolCallContext ≤ fuel →
  within (World := World) 1 0 (depth_of toolCallContext)
    (inferGeminiNative fuel args toolCallContext).
Proof.
  intros Hs Hsig Hfuel.
  destruct fuel as [|fuel]; cbn [inferGeminiNative]; cbv zeta;
    destruct (getMaxToolCallingDepth (a_actionKey args)
              <=? depth_of toolCallContext) eqn:Hguard;
    try (walk_plain; fail);
    apply Nat.leb_gt in Hguard; [lia|].
  walk_plain. apply within_request; [done|].
  walk_plain; no_recursion Hs.
Qed.

Lemma infer_signaled (fuel : nat) args toolCallContext
    (s : CompletionSignal) :
  toolCallContext ≫= completionSignal = Some s → signaled s = true →
  getMaxToolCallingDepth (a_actionKey args) - depth_of toolCallContext ≤ fuel →
  within (World := World) 1 0 (depth_of toolCallContext)
    (infer fuel args toolCallContext).
Proof.
  intros Hs Hsig Hfuel.
  pose proof Hs as Hs'. rewrite <- signal_after_sanitize in Hs'.
  destruct fuel as [|fuel]; cbn [infer]; cbv zeta;
    (destruct (MAX_LLM_MESSAGES <? length (a_messages args));
       [apply within_throw|]);
    destruct (getMaxToolCallingDepth (a_actionKey args)
              <=? depth_of toolCallContext) eqn:Hguard;
    try (walk_plain; fail);
    apply Nat.leb_gt in Hguard; [lia|].
  walk_plain.
  - by apply (inferGeminiNative_signaled _ _ _ s); [| |lia].
  - apply within_request; [done|].
    repeat first
      [ lazymatch goal with
        | |- within _ _ _ (bind (runTools _ _ _ _ _) _) =>
            apply within_bind; [apply runTools_quiet|intros]
        end
      | progress walk_plain ];
      no_recursion Hs'.
Qed.

(** X20. A call given a context whose completion signal is set makes at
    most one request and never calls itself again: whatever the tools
    return, the signal is still set after the round and ends the
    chain. *)
Theorem signaled_context_never_recurses args toolCallContext
    (s : CompletionSignal) (m : Machine World) :
  toolCallContext ≫= completionSignal = Some s → signaled s = true →
  ∃ evs,
    trace (inferRequest args toolCallContext m).1 = trace m ++ evs
    ∧ requests evs ≤ 1
    ∧ self_calls evs = []
    ∧ (inferRequest args toolCallContext m).2 ≠ OutOfFuel.
Proof.
  intros Hs Hsig.
  destruct (infer_signaled _ args toolCallContext s Hs Hsig (Nat.le_refl _) m)
    as (evs & Ht & Hr & Hl & _ & Hne).
  exists evs. repeat split; try done.
  destruct (self_calls evs); [done|simpl in Hl; lia].
Qed.

End SignalFacts.

(** X21. The format step rebuilds the last message from its role and
    content: the messages before it stay, and the rebuilt one has no
    [name], [tool_call_id] or [tool_calls] any more. A tool message in
    that place is thereby an orphan by the sanitizer's own test. *)
Theorem format_step_strips_last_message (formatInstructions : string)
    (front : list Message) (m : Message) :
  content m ≠ ContentNull →
  ∃ m',
    appendInstructions formatInstructions (front ++ [m])
    = inr (front ++ [m'])
    ∧ role m' = role m
    ∧ name m' = None ∧ tool_call_id m' = None ∧ tool_calls m' = None
    ∧ (role m = tool → orphaned front m' = true).
Proof.
  intros Hc. unfold appendInstructions.
  rewrite last_snoc, length_app. cbn [length].
  replace (length front + 1 - 1) with (length front) by lia.
  rewrite take_app_length.
  destruct (content m) as [text|items|] eqn:Hm; [| |done];
    eexists; (split; [reflexivity|]); cbn [role name tool_call_id tool_calls];
    repeat split; intros Hr; unfold orphaned, name_present;
    cbn [role name]; by rewrite Hr.
Qed.

Import Scenario.

(** A context that carries the signal of a finished task. *)
Lemma signaled_context_never_recurses_witness :
  let ctx := {| messages := []; depth := 1;
                completionSignal :=
                  Some {| signaled := true; toolName := "finish";
                          summary := Some "done" |};
                warningInjected := None |} in
  ∃ evs,
    trace (inferRequest (request short_conversation) (Some ctx) start).1
    = trace start ++ evs
    ∧ requests evs ≤ 1
    ∧ self_calls evs = []
    ∧ (inferRequest (request short_conversation) (Some ctx) start).2
      ≠ OutOfFuel.
Proof.
  intros ctx.
  apply (signaled_context_never_recurses (request short_conversation)
           (Some ctx)
           {| signaled := true; toolName := "finish";
              summary := Some "done" |} start); reflexivity.
Defined.

(** The result of a tool as the last message. *)
Lemma format_step_strips_last_message_witness :
  let answer :=
    mkMessage tool "contents" None (Some "read_file") (Some "call_0") in
  ∃ m',
    appendInstructions "Reply in JSON."
      ([mkMessage assistant "" (Some [mkToolCall "call_0" "read_file"])
          None None] ++ [answer])
    = inr ([mkMessage assistant "" (Some [mkToolCall "call_0" "read_file"])
              None None] ++ [m'])
    ∧ role m' = role answer
    ∧ name m' = None ∧ tool_call_id m' = None ∧ tool_calls m' = None
    ∧ (role answer = tool
       → orphaned
           [mkMessage assistant "" (Some [mkToolCall "call_0" "read_file"])
              None None] m' = true).
Proof.
  intros answer.
  apply (format_step_strips_last_message "Reply in JSON."
           [mkMessage assistant "" (Some [mkToolCall "call_0" "read_file"])
              None None] answer).
  discriminate.
Defined.

End InferenceSignalProofs.

(** ** One request per round *)
Module InferencePaceProofs.
Import Accumulator Messages Json Context RateLimit Inference InferenceSpec.
Import InferenceProofs InferenceMoreProofs.
Local Open Scope nat_scope.

Section PaceFacts.
Context {World : Type}.

Lemma paced_nil {A} (a b : nat) (c : M World A) :
  (∀ m, trace (c m).1 = trace m) → paced a b c.
Proof.
  intros Hc m. exists []. rewrite app_nil_r.
  split; [apply Hc|]. unfold requests. simpl. lia.
Qed.

Lemma paced_ret {A} (a b : nat) (x : A) : paced (World := World) a b (ret x).
Proof. by apply paced_nil. Qed.

Lemma paced_throw {A} (a b : nat) (e : Thrown) :
  paced (World := World) (A := A) a b (throw e).
Proof. by apply paced_nil. Qed.

Lemma paced_out_of_fuel {A} (a b : nat) :
  paced (World := World) (A := A) a b out_of_fuel.
Proof. by apply paced_nil. Qed.

Lemma paced_weaken {A} (a b a' b' : nat) (c : M World A) :
  a ≤ a' → b ≤ b' → paced a b c → paced a' b' c.
Proof.
  intros Ha Hb Hc m. destruct (Hc m) as (evs & Ht & Hr & Hs).
  exists evs. repeat split; try done; lia.
Qed.

Lemma paced_bind {A B} (a b d : nat) (c : M World A) (k : A → M World B) :
  within 0 0 d c → (∀ x, paced a b (k x)) → paced a b (bind c k).
Proof.
  intros Hc Hk m. destruct (Hc m) as (evs & Ht & Hq & Hl & _ & Hne).
  assert (self_calls evs = []) as Hnil.
  { destruct (self_calls evs); [done|simpl in Hl; lia]. }
  unfold bind. destruct (c m) as [m' [x|e|]]; simpl in *.
  - destruct (Hk x m') as (evs' & Ht' & Hr' & Hs').
    exists (evs ++ evs').
    rewrite Ht', Ht, app_assoc, requests_app, self_calls_app, Hnil.
    simpl. repeat split; try done; lia.
  - exists evs. rewrite Hnil. simpl. repeat split; try done; lia.
  - done.
Qed.

Lemma paced_request {A} (b : nat) (ev : Event) (k : M World A) :
  is_request ev = true →
  paced 0 (S b) k → paced 1 b (bind (emit ev) (λ _, k)).
Proof.
  intros Hq Hk m.
  destruct (Hk {| world := world m; trace := trace m ++ [ev] |})
    as (evs & Ht & Hr & Hs).
  exists (ev :: evs).
  assert (requests (ev :: evs) = S (requests evs)) as ->.
  { unfold requests. by rewrite filter_cons_True. }
  assert (self_calls (ev :: evs) = self_calls evs) as ->.
  { by destruct ev. }
  change (bind (emit ev) (λ _, k) m)
    with (k {| world := world m; trace := trace m ++ [ev] |}).
  rewrite Ht. cbn [trace]. rewrite <- app_assoc.
  repeat split; try done; lia.
Qed.

Lemma paced_self_call {A} (d : nat) (k : M World A) :
  paced 1 0 k → paced 0 1 (bind (emit (SelfCall d)) (λ _, k)).
Proof.
  intros Hk m.
  destruct (Hk {| world := world m; trace := trace m ++ [SelfCall d] |})
    as (evs & Ht & Hr & Hs).
  exists (SelfCall d :: evs).
  assert (requests (SelfCall d :: evs) = requests evs) as ->.
  { unfold requests. rewrite filter_cons_False; [done|]. by intros ?. }
  change (self_calls (SelfCall d :: evs)) with (d :: self_calls evs).
  change (bind (emit (SelfCall d)) (λ _, k) m)
    with (k {| world := world m; trace := trace m ++ [SelfCall d] |}).
  rewrite Ht. cbn [trace length]. rewrite <- app_assoc.
  repeat split; try done; lia.
Qed.

End PaceFacts.

Ltac pace_step d :=
  lazymatch goal with
  | |- paced _ _ (ret _) => apply paced_ret
  | |- paced _ _ (throw _) => apply paced_throw
  | |- paced _ _ out_of_fuel => apply paced_out_of_fuel
  | |- paced _ _ (bind (emit (NetworkRequest _ _)) _) =>
      apply paced_request; [done|]
  | |- paced _ _ (bind (emit (NativeRequest _ _)) _) =>
      apply paced_request; [done|]
  | |- paced _ _ (bind (emit (SelfCall _)) _) => apply paced_self_call
  | |- paced _ _ (bind _ _) =>
      apply (paced_bind _ _ d);
      [first [ walk_quiet
             | apply property_quiet
             | apply readResponse_quiet
             | apply requestCompletion_quiet
             | apply runTools_quiet
             | apply notify_quiet ]
      | intros]
  | |- paced _ _ (if ?b then _ else _) => destruct b eqn:?
  | |- paced _ _ (match ?x with _ => _ end) => destruct x eqn:?
  | |- paced _ _ (let _ := _ in _) => cbv zeta
  end.

Section PaceLoop.
Context {World Schema SchemaFormat ToolDefinition ActionKey Overrides : Type}.
Context `{!Collaborators World Schema SchemaFormat ToolDefinition ActionKey
            Overrides}.
Implicit Types
  (args : InferArgs Schema SchemaFormat ToolDefinition ActionKey Overrides)
  (toolCallContext : option ToolCallContext).

Lemma finish_paced (a b : nat) args toolCallContext (content : string) :
  paced (World := World) a b (finish args toolCallContext content).
Proof.
  unfold finish.
  repeat first [apply paced_ret | apply paced_throw
               | lazymatch goal with
                 | |- paced _ _ (match ?x with _ => _ end) => destruct x eqn:?
                 | |- paced _ _ (let _ := _ in _) => cbv zeta
                 end].
Qed.

Lemma inferGeminiNative_paced (fuel : nat) args toolCallContext :
  paced (World := World) 1 0 (inferGeminiNative fuel args toolCallContext).
Proof.
  revert toolCallContext.
  induction fuel as [|fuel IH]; intros toolCallContext;
    cbn [inferGeminiNative]; cbv zeta;
    repeat first [ apply IH | pace_step 0 ].
Qed.

Lemma infer_paced (fuel : nat) args toolCallContext :
  paced (World := World) 1 0 (infer fuel args toolCallContext).
Proof.
  revert args toolCallContext.
  induction fuel as [|fuel IH]; intros args toolCallContext;
    cbn [infer]; cbv zeta;
    repeat first [ apply IH | apply inferGeminiNative_paced
                 | apply finish_paced | pace_step 0 ].
Qed.

(** X22. One request per round: in every run of the loop, with any fuel,
    the requests to a model are as many as the recursive calls or one
    more. No round makes two requests, and no recursive call is made
    that a request did not precede. *)
Theorem one_request_per_round (fuel : nat) args toolCallContext
    (m : Machine World) :
  ∃ evs,
    trace (infer fuel args toolCallContext m).1 = trace m ++ evs
    ∧ length (self_calls evs) ≤ requests evs
    ∧ requests evs ≤ S (length (self_calls evs)).
Proof.
  destruct (infer_paced fuel args toolCallContext m) as (evs & Ht & Hr & Hs).
  exists evs. repeat split; try done; lia.
Qed.

End PaceLoop.
End InferencePaceProofs.

(** ** The sequence sent upstream after a tool round *)
Module FormatStepProofs.
Import Accumulator Messages Json Context RateLimit Inference SanitizerSpec.
Import Scenario.
Local Open Scope nat_scope.

(** C4 fails on the code. A call that asks for an object in a custom
    format and offers a tool: after the first tool round the context ends
    in the tool's result, which the sanitizer keeps with its name and its
    [tool_call_id]; the format step then rebuilds this last message from
    role and content alone, and the second request carries a tool message
    without name and without [tool_call_id], an orphan in the sequence
    sent upstream. *)
Theorem format_step_sends_orphan :
  let run := inferRequest (structured_request short_conversation) None start in
  let asked :=
    mkMessage assistant "reading" (Some [read_file_call 0]) None None in
  let result :=
    mkMessage tool "{}" None (Some "read_file") (Some "call_0") in
  let sent :=
    {| role := tool; content := ContentText (instructed "{}");
       tool_calls := None; name := None; tool_call_id := None |} in
  sanitize optimizeTextContent short_conversation (Some [asked; result])
  = short_conversation ++ [asked; result]
  ∧ sent_upstream (trace run.1) !! 1
    = Some (short_conversation ++ [asked; sent])
  ∧ orphan (short_conversation ++ [asked]) sent.
Proof.
  split; [by vm_compute|]. split; [by vm_compute|].
  split; [done|]. by left.
Qed.

End FormatStepProofs.
